(** * Network synthesis engine: graph builder, branch pruner, cost aggregator
      and candidate post-filters of [backend/], as a shallow embedding.

    Numbers are IEEE binary64 floats ([PrimFloat]), as Python and numpy have
    them.  Node indices are positions in the coordinate array ([nat]).
    A [networkx.DiGraph] is its adjacency structure: an insertion-ordered
    dictionary from a node to the insertion-ordered dictionary of its
    successors, each carrying the edge's attribute record. *)

From Stdlib Require Import PrimFloat FloatOps FloatAxioms.
From Stdlib Require Uint63.
From stdpp Require Import gmap strings list relations pretty sorting.

Set Warnings "-inexact-float,-clear-no-such-hyp".
Set Default Proof Using "Type".



(** ** Insertion-ordered dictionaries with node keys *)

Abbreviation node := nat.

Section dict.
Context {V : Type}.

(** [d.get(k)]. *)
Fixpoint dict_get (k : node) (d : list (node * V)) : option V :=
  match d with
  | [] => None
  | (k', v) :: d' => if decide (k = k') then Some v else dict_get k d'
  end.

(** [k in d]. *)
Definition dict_mem (k : node) (d : list (node * V)) : bool :=
  bool_decide (is_Some (dict_get k d)).

(** [d[k] = v]: an existing key keeps its position, a new one goes last. *)
Fixpoint dict_set (k : node) (v : V) (d : list (node * V)) : list (node * V) :=
  match d with
  | [] => [(k, v)]
  | (k', v') :: d' =>
      if decide (k = k') then (k, v) :: d' else (k', v') :: dict_set k v d'
  end.

(** [d[k] = f(d[k])] for a key that is present. *)
Fixpoint dict_alter (f : V → V) (k : node) (d : list (node * V)) : list (node * V) :=
  match d with
  | [] => []
  | (k', v') :: d' =>
      if decide (k = k') then (k', f v') :: d' else (k', v') :: dict_alter f k d'
  end.

(** [del d[k]]. *)
Definition dict_del (k : node) (d : list (node * V)) : list (node * V) :=
  filter (λ kv, kv.1 ≠ k) d.
End dict.

(** ** The directed graph ([networkx.DiGraph]) *)

Record EdgeData := mkEdgeData {
  weight : float;
  length_m : float;
  voltage : string
}.

Definition DiGraph := list (node * list (node * EdgeData)).

Module DiGraph.

Definition empty : DiGraph := [].

(** [G.nodes()], in insertion order. *)
Definition nodes (G : DiGraph) : list node := G.*1.

(** [n in G]. *)
Definition has_node (G : DiGraph) (n : node) : bool := dict_mem n G.

(** [G[n]], the successor dictionary (empty for a node that is absent). *)
Definition adj (G : DiGraph) (n : node) : list (node * EdgeData) :=
  default [] (dict_get n G).

Definition successors (G : DiGraph) (n : node) : list node := (adj G n).*1.

(** [G.out_degree(n)]. *)
Definition out_degree (G : DiGraph) (n : node) : nat := length (adj G n).

(** [G.predecessors(n)], here in the order of the node list; the pruner
    removes the edge from each of them, in whatever order. *)
Definition predecessors (G : DiGraph) (n : node) : list node :=
  (filter (λ us, n ∈ us.2.*1) G).*1.

(** [G.edges(data=True)]: node by node, successor by successor. *)
Definition edges (G : DiGraph) : list (node * node * EdgeData) :=
  us ← G; (λ va, (us.1, va.1, va.2)) <$> us.2.

(** The relation "there is an edge from [u] to [v]". *)
Definition has_edge (G : DiGraph) (u v : node) : Prop :=
  ∃ a, (u, v, a) ∈ edges G.

Definition add_node (n : node) (G : DiGraph) : DiGraph :=
  if has_node G n then G else G ++ [(n, [])].

(** [G.add_edge(u, v, weight=.., length=.., voltage=..)]: both end points
    become nodes when they are not yet, [u] first; the three attributes
    given replace those of an existing edge. *)
Definition add_edge (u v : node) (a : EdgeData) (G : DiGraph) : DiGraph :=
  dict_alter (dict_set v a) u (add_node v (add_node u G)).

(** [G.remove_edge(u, v)] for an edge that is present. *)
Definition remove_edge (u v : node) (G : DiGraph) : DiGraph :=
  dict_alter (dict_del v) u G.

(** [G.remove_node(n)] for a node that is present: the node goes, and
    with it every edge into it and out of it. *)
Definition remove_node (n : node) (G : DiGraph) : DiGraph :=
  (λ us, (us.1, dict_del n us.2)) <$> dict_del n G.

(** One round of breadth-first expansion: the set with all its successors. *)
Definition reach_step (G : DiGraph) (X : gset node) : gset node :=
  X ∪ set_bind (λ n, list_to_set (successors G n)) X.

(** [nx.descendants(G, source)]: every node reachable from [source],
    [source] itself apart; an error ([None]) when [source] is not in [G].
    A node is reached after at most [len(G)] rounds. *)
Definition descendants (G : DiGraph) (source : node) : option (gset node) :=
  if has_node G source
  then Some (Nat.iter (length G) (reach_step G) {[source]} ∖ {[source]})
  else None.

(** Representation invariant of the adjacency structure: keys are not
    repeated, and every successor is itself a node. *)
Definition wf (G : DiGraph) : Prop :=
  NoDup (nodes G) ∧
  ∀ u s, (u, s) ∈ G → NoDup s.*1 ∧ ∀ v, v ∈ s.*1 → v ∈ nodes G.

End DiGraph.

Import DiGraph.

(** ** build_graph.py *)

Definition MIN_POLE_TO_TERMINAL : float := 10.0.
Definition MAX_POLE_TO_TERMINAL : float := 100.0.
Definition MIN_POLE_TO_POLE : float := 10.0.
Definition MAX_POLE_TO_POLE : float := 150.0.

(** A [for] loop whose body may raise. *)
Fixpoint for_each {A S : Type} (xs : list A) (body : A → S → option S) (s : S)
  : option S :=
  match xs with
  | [] => Some s
  | x :: xs' => s' ← body x s; for_each xs' body s'
  end.

(** [dist_matrix[i, j]]; an index outside the array raises. *)
Definition matrix_get (dist_matrix : list (list float)) (i j : nat) : option float :=
  row ← dist_matrix !! i; row !! j.

(** Python's chained comparison [lo < d <= hi]. *)
Definition within (lo d hi : float) : bool :=
  (lo <? d)%float && (d <=? hi)%float.

Definition low_edge (d : float) : EdgeData :=
  {| weight := d; length_m := d; voltage := "low" |}.
Definition trunk_edge (d : float) : EdgeData :=
  {| weight := d; length_m := d; voltage := "high" |}.
Definition span_edge (d : float) : EdgeData :=
  {| weight := (d + 100)%float; length_m := d; voltage := "high" |}.

Section build.
Variables (source_idx : node) (pole_indices : list node).
Variable dist_matrix : list (list float).

(** Body of the first loop: a service drop from pole [p] to terminal [h]. *)
Definition service_drop (p h : node) (DG : DiGraph) : option DiGraph :=
  d ← matrix_get dist_matrix p h;
  if within 0.1 d MAX_POLE_TO_TERMINAL
  then Some (add_edge p h (low_edge d) DG)
  else Some DG.

(** Body of the second loop: the span between the poles at positions
    [i < j] of [pole_indices], added in both directions. *)
Definition pole_span (i j : nat) (DG : DiGraph) : option DiGraph :=
  p1 ← pole_indices !! i;
  p2 ← pole_indices !! j;
  d ← matrix_get dist_matrix p1 p2;
  if within 0.1 d MAX_POLE_TO_POLE
  then Some (add_edge p2 p1 (span_edge d) (add_edge p1 p2 (span_edge d) DG))
  else Some DG.

(** Body of the third loop: the trunk from the source to pole [p]. *)
Definition source_trunk (p : node) (DG : DiGraph) : option DiGraph :=
  d ← matrix_get dist_matrix source_idx p;
  if within 0.1 d MAX_POLE_TO_POLE
  then Some (add_edge source_idx p (trunk_edge d) DG)
  else Some DG.

End build.

(** The [costs] argument is accepted and not consulted (the lines that read
    it are commented out in the source). *)
Definition build_directed_graph_for_arborescence
    (source_idx : node) (terminal_indices pole_indices : list node)
    (dist_matrix : list (list float)) (costs : gmap string float)
  : option DiGraph :=
  let n := length pole_indices in
  DG ← for_each pole_indices
          (λ p, for_each terminal_indices (service_drop dist_matrix p))
          DiGraph.empty;
  DG ← for_each (seq 0 n)
          (λ i, for_each (seq (S i) (n - S i))
                  (pole_span pole_indices dist_matrix i)) DG;
  for_each pole_indices (source_trunk source_idx dist_matrix) DG.

(** [any(d in terminal_indices for d in descendants)]. *)
Definition serves_terminal (terminal_indices : list node) (ds : gset node) : bool :=
  existsb (λ d, bool_decide (d ∈ terminal_indices)) (elements ds).

Section prune.
Variables (pole_indices terminal_indices : list node).

(** Body of the [for leaf in leaves] loop; the state is the working copy
    and the [removed] flag. *)
Definition prune_leaf (leaf : node) (st : DiGraph * bool) : option (DiGraph * bool) :=
  let '(arbo, removed) := st in
  if bool_decide (leaf ∈ pole_indices) then
    ds ← descendants arbo leaf;
    if negb (serves_terminal terminal_indices (ds ∪ {[leaf]})) then
      let arbo := foldl (λ G pred, remove_edge pred leaf G) arbo
                        (predecessors arbo leaf) in
      Some (remove_node leaf arbo, true)
    else Some (arbo, removed)
  else Some (arbo, removed).

(** One turn of the [while removed] loop. *)
Definition prune_pass (arbo : DiGraph) : option (DiGraph * bool) :=
  let leaves := filter (λ n, out_degree arbo n = 0) (nodes arbo) in
  for_each leaves prune_leaf (arbo, false).

(** The [while removed] loop.  Every turn that goes round again has taken
    a node away, so the [S (length arbo)] turns it is given below are
    never used up; [None] stands for an error raised by a graph operation. *)
Fixpoint prune_loop (turns : nat) (arbo : DiGraph) : option DiGraph :=
  match turns with
  | 0 => None
  | S turns' =>
      match prune_pass arbo with
      | None => None
      | Some (arbo', true) => prune_loop turns' arbo'
      | Some (arbo', false) => Some arbo'
      end
  end.

End prune.

Definition prune_dead_end_pole_branches
    (arbo : DiGraph) (pole_indices terminal_indices : list node) : option DiGraph :=
  prune_loop pole_indices terminal_indices (S (length arbo)) arbo.


(** ** utils.py and candidate_generation.py *)

(** [range(start, stop)]. *)
Definition py_range (start stop : nat) : list nat := seq start (stop - start).

(** The last step of [parse_input]:
    [terminal_indices = [i for i in range(len(coords)) if i != source_idx]]. *)
Definition terminal_indices_of (n_coords : nat) (source_idx : node) : list node :=
  filter (λ i, i ≠ source_idx) (py_range 0 n_coords).

(** A row [[lat, lon]] of a coordinate array. *)
Abbreviation point := (float * float)%type.

(** [MIN_DIST_TO_TERMINAL] is the one-element tuple [(8.0,)] in the source
    (a trailing comma); numpy compares an array with it element by element. *)
Definition MIN_DIST_TO_TERMINAL : float := 8.0.
Definition MAX_CIRCUMRADIUS : option float := Some 300.0%float.
Definition MIN_CANDIDATE_SEPARATION : float := 10.0.

(** [np.rint]: to the nearest integer, ties to even.  Below [2^52] adding and
    taking away [2^52] rounds in exactly that way; from there on (and for
    zeros, infinities and NaN) the value is already its own rounding. *)
Definition np_rint (x : float) : float :=
  let big := 4503599627370496%float in
  if (abs x <? big)%float && negb (x =? 0)%float then
    let r := (abs x + big - big)%float in
    if (x <? 0)%float then (- r)%float else r
  else x.

(** [np.round(x, decimals)] on a float: scale, [rint], scale back. *)
Definition np_round (x : float) (decimals : nat) : float :=
  let f := Nat.iter decimals (λ y, y * 10)%float 1%float in
  (np_rint (x * f) / f)%float.

Definition np_round_rows (rows : list point) (decimals : nat) : list point :=
  (λ r, (np_round r.1 decimals, np_round r.2 decimals)) <$> rows.

(** [np.unique(rows, axis=0)]: the rows in lexicographic order, each once. *)
Definition row_ltb (a b : point) : bool :=
  (a.1 <? b.1)%float || ((a.1 =? b.1)%float && (a.2 <? b.2)%float).
Definition row_eqb (a b : point) : bool :=
  (a.1 =? b.1)%float && (a.2 =? b.2)%float.
Fixpoint row_insert (r : point) (rows : list point) : list point :=
  match rows with
  | [] => [r]
  | r' :: rows' => if row_ltb r' r then r' :: row_insert r rows' else r :: rows
  end.
Fixpoint row_dedup (rows : list point) : list point :=
  match rows with
  | [] => []
  | r :: rows' =>
      match rows' with
      | r' :: _ => if row_eqb r r' then row_dedup rows' else r :: row_dedup rows'
      | [] => [r]
      end
  end.
Definition np_unique_rows (rows : list point) : list point :=
  row_dedup (foldr row_insert [] rows).

Section candidates.
(** The great-circle distance of [haversine_vec] for one pair of rows:
    numpy's [sin], [cos] and [arctan2] are not operations of [PrimFloat]. *)
Variable great_circle : point → point → float.
(** [Voronoi(coords).vertices] and [Delaunay(coords).simplices] of
    [scipy.spatial]; Qhull raises on degenerate input. *)
Variable Voronoi_vertices : list point → option (list point).
Variable Delaunay_simplices : list point → option (list (list nat)).
(** [np.partition(row, kth)] and [np.argsort(keys)]. *)
Variable np_partition : list float → nat → list float.
Variable np_argsort : list float → list nat.

(** [haversine_vec(A, B)]: one row per row of [A], one column per row of [B]. *)
Definition haversine_vec (A B : list point) : list (list float) :=
  (λ a, great_circle a <$> B) <$> A.

(** [rows[idx]]: the rows at the given positions; a position outside raises. *)
Definition take_rows {A : Type} (rows : list A) (idx : list nat) : option (list A) :=
  mapM (λ i, rows !! i) idx.

(** Body of the greedy loop; [kept] and [kept_array] hold the same rows. *)
Definition keep_if_separated (kept : list point) (pt : point) : list point :=
  if bool_decide (length kept = 0) then [pt]
  else
    let dists_to_kept := default [] (haversine_vec [pt] kept !! 0) in
    if forallb (λ d, (MIN_CANDIDATE_SEPARATION <=? d)%float) dists_to_kept
    then kept ++ [pt]
    else kept.

(** Sort by latitude, then keep a point only when it is far enough from
    every point kept so far. *)
Definition separation_filter (candidates : list point) : option (list point) :=
  candidates ← take_rows candidates (np_argsort candidates.*1);
  Some (foldl keep_if_separated [] candidates).

Definition generate_voronoi_candidates (coords : list point) : option (list point) :=
  if bool_decide (length coords < 3) then Some []
  else
    verts ← Voronoi_vertices coords;
    if bool_decide (length verts = 0) then Some []
    else
      let dists := haversine_vec verts coords in
      nearest_dists ← mapM (λ row,
          let part := np_partition row 2 in
          lo ← part !! 0; hi ← part !! 2; Some (lo, hi)) dists;
      let mask := (λ lh : float * float,
          (MIN_DIST_TO_TERMINAL <=? lh.1)%float &&
          match MAX_CIRCUMRADIUS with
          | Some r => (lh.2 <=? r)%float
          | None => true
          end) <$> nearest_dists in
      let candidates := (filter (λ vm, vm.2 = true) (zip verts mask)).*1 in
      if bool_decide (length candidates = 0) then Some candidates
      else
        let candidates := np_unique_rows (np_round_rows candidates 6) in
        if bool_decide (length candidates ≤ 1) then Some candidates
        else separation_filter candidates.

(** Euclidean norm of a row, [np.linalg.norm]: the root of the sum of the
    squares, each operation rounded on its own. *)
Definition norm (v : point) : float := PrimFloat.sqrt (v.1 * v.1 + v.2 * v.2)%float.
Definition row_sub (a b : point) : point := ((a.1 - b.1)%float, (a.2 - b.2)%float).

(** A [ValueError] unless there are exactly three points.  [x**2] is taken
    as the product [x * x], from which the power of the C library can differ
    in the last bit; the mean of a column is its sum from the left, divided
    by 3. *)
Definition fermat_torricelli_point (pts : list point) : option point :=
  match pts with
  | [A; B; C] =>
      let a := norm (row_sub B C) in
      let b := norm (row_sub A C) in
      let c := norm (row_sub A B) in
      let cosA := if negb (b * c =? 0)%float
                  then ((b * b + c * c - a * a) / (2 * b * c))%float else 1%float in
      let cosB := if negb (a * c =? 0)%float
                  then ((a * a + c * c - b * b) / (2 * a * c))%float else 1%float in
      let cosC := if negb (a * b =? 0)%float
                  then ((a * a + b * b - c * c) / (2 * a * b))%float else 1%float in
      if (cosA <=? -0.5)%float then Some A
      else if (cosB <=? -0.5)%float then Some B
      else if (cosC <=? -0.5)%float then Some C
      else Some (((A.1 + B.1 + C.1) / 3)%float, ((A.2 + B.2 + C.2) / 3)%float)
  | _ => None
  end.

Definition generate_fermat_candidates (coords : list point) (max_candidates : nat)
  : option (list point) :=
  if bool_decide (length coords < 3) then Some []
  else
    simplices ← Delaunay_simplices coords;
    candidates ← for_each simplices (λ simplex candidates,
        if bool_decide (max_candidates ≤ length candidates) then Some candidates
        else
          pts ← take_rows coords simplex;
          st_pt ← fermat_torricelli_point pts;
          Some (candidates ++ [st_pt])) [];
    if bool_decide (length candidates = 0) then Some []
    else if bool_decide (1 < length candidates) then separation_filter candidates
    else Some candidates.
End candidates.

(** A stable insertion [argsort], to stand for [np.argsort] in examples;
    numpy may order equal keys and NaN in another way. *)
Fixpoint argsort_insert (keys : list float) (i : nat) (idx : list nat) : list nat :=
  match idx with
  | [] => [i]
  | j :: idx' =>
      if (default 0 (keys !! i) <? default 0 (keys !! j))%float
      then i :: idx else j :: argsort_insert keys i idx'
  end.
Definition argsort (keys : list float) : list nat :=
  foldl (λ idx i, argsort_insert keys i idx) [] (seq 0 (length keys)).

(** ** mst.py *)

Record Endpoint := mkEndpoint { lat : float; lng : float; name : string }.
Record EdgeOut := mkEdgeOut {
  start : Endpoint; end_ : Endpoint; lengthMeters : float; edge_voltage : string
}.
Record NodeOut := mkNodeOut {
  index : nat; node_lat : float; node_lng : float; node_name : string; type : string
}.
Record DebugInfo := mkDebugInfo {
  sourceIndex : nat; sourceName : string; originalPoints : nat;
  candidatesGenerated : nat; candidatesUsed : nat
}.
Record Result := mkResult {
  result_edges : list EdgeOut;
  result_nodes : list NodeOut;
  totalLowVoltageMeters : float;
  totalHighVoltageMeters : float;
  numPolesUsed : nat;
  poleCostEstimate : float;
  lowWireCostEstimate : float;
  highWireCostEstimate : float;
  totalWireCostEstimate : float;
  totalCostEstimate : float;
  debug : DebugInfo
}.

(** An [int] where a [float] is wanted. *)
Definition float_of_nat (n : nat) : float := of_uint63 (Uint63.of_Z (Z.of_nat n)).

(** "Extract used nodes & name poles". *)
Definition used_nodes (mst : DiGraph) : gset node :=
  list_to_set ((λ e, e.1.1) <$> edges mst) ∪ list_to_set ((λ e, e.1.2) <$> edges mst).

Definition used_pole_indices (mst : DiGraph) (pole_indices : list node) : list node :=
  filter (λ i, i ∈ used_nodes mst) pole_indices.

Definition node_names (original_names : list string) (used_poles : list node)
  : gmap nat string :=
  foldl (λ names ip, <[ip.2 := "Pole " +:+ pretty (S ip.1)]> names)
        (map_seq 0 original_names) (imap pair used_poles).

(** "Cost calculation": the rates, with their defaults. *)
Definition pole_cost (costs : gmap string float) : float :=
  default 1500.0%float (costs !! "poleCost").
Definition low_cost_m (costs : gmap string float) : float :=
  default 8.0%float (costs !! "lowVoltageCostPerMeter").
Definition high_cost_m (costs : gmap string float) : float :=
  default 25.0%float (costs !! "highVoltageCostPerMeter").

Section mst.
Variable great_circle : point → point → float.
Variable Delaunay_simplices : list point → option (list (list nat)).
Variable np_argsort : list float → list nat.
(** [utils.haversine_meters], on [math.sin], [math.cos] and [math.atan2].
    It raises a [ValueError] ([None]) when rounding takes [a] above 1, where
    [math.sqrt(1 - a)] has no value: for two points that are nearly
    antipodal. *)
Variable haversine_meters : float → float → float → float → option float.
(** [nx.minimum_spanning_arborescence(DG, attr="weight", preserve_attrs=True,
    default=1e18)]; it raises when it finds no spanning arborescence. *)
Variable minimum_spanning_arborescence : DiGraph → option DiGraph.
(** Python's [round(x, ndigits)] on a float. *)
Variable round : float → nat → float.

(** [cdist(X, X, metric=lambda u, v: haversine_meters(u[0], u[1], v[0], v[1]))]:
    the metric is called for every pair of rows, and its error is the
    error of [cdist]. *)
Definition cdist (XA XB : list point) : option (list (list float)) :=
  mapM (λ u, mapM (λ v, haversine_meters u.1 u.2 v.1 v.2) XB) XA.

(** Body of the loop over [mst.edges(data=True)]; the state is the edge
    list and the two running totals. *)
Definition collect_edge (extended_coords : list point) (names : gmap nat string)
    (e : node * node * EdgeData) (st : list EdgeOut * float * float)
  : option (list EdgeOut * float * float) :=
  let '(edges, total_low_m, total_high_m) := st in
  let '(u, v, data) := e in
  let length_m := length_m data in
  let voltage := voltage data in
  let start_name := default ("Node " +:+ pretty u) (names !! u) in
  let end_name := default ("Node " +:+ pretty v) (names !! v) in
  cu ← extended_coords !! u;
  cv ← extended_coords !! v;
  let edges := edges ++ [ {|
    start := {| lat := cu.1; lng := cu.2; name := start_name |};
    end_ := {| lat := cv.1; lng := cv.2; name := end_name |};
    lengthMeters := round length_m 2;
    edge_voltage := voltage |} ] in
  if bool_decide (voltage = "low")
  then Some (edges, (total_low_m + length_m)%float, total_high_m)
  else Some (edges, total_low_m, (total_high_m + length_m)%float).

(** The second half of [compute_mst], from "Extract used nodes & name
    poles" to the [return]: everything that is read off the pruned tree. *)
Definition extract_result (mst : DiGraph) (coords candidates extended_coords : list point)
    (pole_indices : list node) (pole_start_idx : nat)
    (source_idx : node) (original_names : list string)
    (costs : gmap string float) (debug : bool) : option Result :=
  let used := used_nodes mst in
  let used_poles := used_pole_indices mst pole_indices in
  let names := node_names original_names used_poles in
  '(edges, total_low_m, total_high_m) ←
      for_each (DiGraph.edges mst) (collect_edge extended_coords names)
               ([], 0%float, 0%float);
  let num_poles := length used_poles in
  let pole_cost_est := (float_of_nat num_poles * pole_cost costs)%float in
  let low_wire_est := (total_low_m * low_cost_m costs)%float in
  let high_wire_est := (total_high_m * high_cost_m costs)%float in
  let total_wire_est := (low_wire_est + high_wire_est)%float in
  let total_cost_est := (pole_cost_est + total_wire_est)%float in
  return_nodes ←
    (if debug then
       Some (imap (λ i coord,
               {| index := i; node_lat := coord.1; node_lng := coord.2;
                  node_name := "Candidate " +:+ pretty i; type := "pole" |})
               extended_coords)
     else
       mapM (λ i,
               c ← extended_coords !! i;
               Some {| index := i; node_lat := c.1; node_lng := c.2;
                       node_name := default ("Unused " +:+ pretty i) (names !! i);
                       type := if bool_decide (i = source_idx) then "source"
                               else if bool_decide (i < pole_start_idx) then "terminal"
                               else "pole" |})
            (merge_sort (≤) (elements used)));
  Some {|
    result_edges := edges;
    result_nodes := return_nodes;
    totalLowVoltageMeters := round total_low_m 2;
    totalHighVoltageMeters := round total_high_m 2;
    numPolesUsed := num_poles;
    poleCostEstimate := round pole_cost_est 2;
    lowWireCostEstimate := round low_wire_est 2;
    highWireCostEstimate := round high_wire_est 2;
    totalWireCostEstimate := round total_wire_est 2;
    totalCostEstimate := round total_cost_est 2;
    debug := {| sourceIndex := source_idx;
                sourceName := default "Power Source" (names !! source_idx);
                originalPoints := length coords;
                candidatesGenerated := length candidates;
                candidatesUsed := num_poles |}
  |}.

(** [compute_mst] from the values [parse_input] hands it: the coordinate
    array, the terminal indices, the source index, the names and the
    cost map; [debug] is the request's flag. *)
Definition compute_mst (coords : list point) (terminal_indices : list node)
    (source_idx : node) (original_names : list string)
    (costs : gmap string float) (debug : bool) : option Result :=
  candidates ← generate_fermat_candidates great_circle Delaunay_simplices
                  np_argsort coords 100;
  let '(extended_coords, pole_indices, pole_start_idx) :=
    if bool_decide (0 < length candidates)
    then (coords ++ candidates,
          py_range (length coords) (length (coords ++ candidates)),
          length coords)
    else (coords, [], length coords) in
  dist_matrix ← cdist extended_coords extended_coords;
  DG ← build_directed_graph_for_arborescence
          source_idx terminal_indices pole_indices dist_matrix costs;
  arbo ← minimum_spanning_arborescence DG;
  mst ← prune_dead_end_pole_branches arbo pole_indices terminal_indices;
  extract_result mst coords candidates extended_coords pole_indices pole_start_idx
                 source_idx original_names costs debug.
End mst.

(** * Specification vocabulary for the graph builder *)

(** Every node is an end point of some edge. *)
Definition no_isolated_node (G : DiGraph) : Prop :=
  ∀ n, n ∈ nodes G → ∃ e, e ∈ edges G ∧ (n = e.1.1 ∨ n = e.1.2).

Section edge_kinds.
Variables (source_idx : node) (terminal_indices pole_indices : list node).
Variable dist_matrix : list (list float).

(** A service drop: pole to terminal, at most [MAX_POLE_TO_TERMINAL] long. *)
Definition is_service_drop (e : node * node * EdgeData) : Prop :=
  e.1.1 ∈ pole_indices ∧ e.1.2 ∈ terminal_indices ∧
  ∃ d, matrix_get dist_matrix e.1.1 e.1.2 = Some d ∧
       within 0.1 d MAX_POLE_TO_TERMINAL = true ∧ e.2 = low_edge d.

(** One direction of a span between two poles; [d] is the matrix entry
    the loop read for the pair, in one order or the other. *)
Definition is_pole_span (e : node * node * EdgeData) : Prop :=
  e.1.1 ∈ pole_indices ∧ e.1.2 ∈ pole_indices ∧
  ∃ d, (matrix_get dist_matrix e.1.1 e.1.2 = Some d ∨
        matrix_get dist_matrix e.1.2 e.1.1 = Some d) ∧
       within 0.1 d MAX_POLE_TO_POLE = true ∧ e.2 = span_edge d.

(** The trunk from the source to a pole. *)
Definition is_source_trunk (e : node * node * EdgeData) : Prop :=
  e.1.1 = source_idx ∧ e.1.2 ∈ pole_indices ∧
  ∃ d, matrix_get dist_matrix source_idx e.1.2 = Some d ∧
       within 0.1 d MAX_POLE_TO_POLE = true ∧ e.2 = trunk_edge d.

(** The same edge in the other direction. *)
Definition reversed (e : node * node * EdgeData) : node * node * EdgeData :=
  (e.1.2, e.1.1, e.2).

(** What holds after the first loop, after the second and at the end. *)
Definition after_drops (G : DiGraph) : Prop :=
  wf G ∧ no_isolated_node G ∧ ∀ e, e ∈ edges G → is_service_drop e.
Definition after_spans (G : DiGraph) : Prop :=
  wf G ∧ no_isolated_node G ∧
  ∀ e, e ∈ edges G → is_service_drop e ∨ (is_pole_span e ∧ reversed e ∈ edges G).
Definition after_trunks (G : DiGraph) : Prop :=
  wf G ∧ no_isolated_node G ∧
  ∀ e, e ∈ edges G →
    is_service_drop e ∨
    (is_pole_span e ∧ (e.1.2 ≠ source_idx → reversed e ∈ edges G)) ∨
    is_source_trunk e.

(** Every index the builder reads lies inside the square matrix. *)
Definition indices_in_range : Prop :=
  ∀ i j, i ∈ source_idx :: pole_indices → j ∈ terminal_indices ++ pole_indices →
         is_Some (matrix_get dist_matrix i j).
End edge_kinds.

(** * Specification vocabulary for the pruner *)

(** A pole that is not itself a terminal: removed once it is a leaf. *)
Definition dead_end (pole_indices terminal_indices : list node) (n : node) : Prop :=
  n ∈ pole_indices ∧ (n ∉ terminal_indices).

Global Instance dead_end_dec ps ts n : Decision (dead_end ps ts n).
Proof. unfold dead_end. apply _. Defined.

(** The nodes without outgoing edge, as the pass lists them. *)
Definition leaves (G : DiGraph) : list node :=
  filter (λ n, out_degree G n = 0) (nodes G).

Definition dead_leaves (pole_indices terminal_indices : list node) (G : DiGraph)
  : list node :=
  filter (dead_end pole_indices terminal_indices) (leaves G).

Definition remove_nodes (ns : list node) (G : DiGraph) : DiGraph :=
  foldl (λ G n, remove_node n G) G ns.

(** [G'] is [G] restricted to the nodes that are left: nothing is added,
    and an edge of [G] between two nodes that are left stays, with its data. *)
Definition induced_subgraph (G G' : DiGraph) : Prop :=
  (∀ n, n ∈ nodes G' → n ∈ nodes G) ∧
  ∀ e, e ∈ edges G' ↔ e ∈ edges G ∧ e.1.1 ∈ nodes G' ∧ e.1.2 ∈ nodes G'.

(** The simpler algorithm: repeatedly remove every node of [pole_indices]
    whose out-degree is zero, with its incoming edges, until none remains. *)
Definition pole_leaves (pole_indices : list node) (G : DiGraph) : list node :=
  filter (λ n, n ∈ pole_indices ∧ out_degree G n = 0) (nodes G).

Fixpoint remove_pole_leaves (rounds : nat) (pole_indices : list node) (G : DiGraph)
  : DiGraph :=
  match rounds with
  | 0 => G
  | S rounds' =>
      match pole_leaves pole_indices G with
      | [] => G
      | ls => remove_pole_leaves rounds' pole_indices (remove_nodes ls G)
      end
  end.

Definition prune_simple (arbo : DiGraph) (pole_indices : list node) : DiGraph :=
  remove_pole_leaves (S (length arbo)) pole_indices arbo.

(** No path of one edge or more leads from a node back to it. *)
Definition acyclic (G : DiGraph) : Prop := ∀ n, ¬ tc (has_edge G) n n.

(** Every edge leads to a pole or to a terminal. *)
Definition heads_classified (pole_indices terminal_indices : list node)
    (G : DiGraph) : Prop :=
  ∀ u v, has_edge G u v → v ∈ pole_indices ∨ v ∈ terminal_indices.

(** * Specification vocabulary for the cost aggregator *)

Definition is_low (e : node * node * EdgeData) : Prop := voltage e.2 = "low".

(** The lengths of the edges added up from [0.0], in the order of the list. *)
Definition total_length (es : list (node * node * EdgeData)) : float :=
  foldl (λ acc e, (acc + length_m e.2)%float) 0%float es.

(** Python's [round] is not consulted by what is proved; this stands in for
    it where a concrete function is needed. *)
Definition no_rounding (x : float) (ndigits : nat) : float := x.

(** * Specification vocabulary for the candidate generators *)

(** Every candidate is at least [MIN_CANDIDATE_SEPARATION] from every
    candidate before it, in the distance the greedy loop computes. *)
Definition pairwise_separated (great_circle : point → point → float)
    (out : list point) : Prop :=
  ∀ i j p q, i < j → out !! i = Some p → out !! j = Some q →
    (MIN_CANDIDATE_SEPARATION <=? great_circle q p)%float = true.

(** Rounding to 6 decimals, then one copy of each row. *)
Definition dedup_rounded (candidates : list point) : list point :=
  np_unique_rows (np_round_rows candidates 6).

(** The latitude-sorted greedy filter, which two candidates or more go
    through. *)
Definition finish_separated (great_circle : point → point → float)
    (np_argsort : list float → list nat) (candidates : list point)
  : option (list point) :=
  if bool_decide (1 < length candidates)
  then separation_filter great_circle np_argsort candidates
  else Some candidates.

(** * Example inputs *)

(** Root 9 with the pole 1 and the terminal 2 below it; below pole 1 the
    node 0, which is neither pole nor terminal. *)
Definition stray_leaf_tree : DiGraph :=
  [(9, [(1, trunk_edge 40); (2, low_edge 30)]);
   (1, [(0, span_edge 20)]); (2, []); (0, [])].

(** Source 0, poles 2, 3 and 4, terminal 1: pole 2 serves the terminal,
    pole 4 hangs below pole 3 and neither serves anything. *)
Definition dead_branch_tree : DiGraph :=
  [(0, [(2, trunk_edge 120); (3, trunk_edge 20)]);
   (2, [(1, low_edge 50)]); (3, [(4, span_edge 60)]); (1, []); (4, [])].

(** A 4 x 4 distance matrix: source 0, terminal 1, poles 2 and 3. *)
Definition four_points : list (list float) :=
  [[0; 5; 120; 20]; [5; 0; 50; 200]; [120; 50; 0; 130]; [20; 200; 130; 0]]%float.

(** The candidate graph of [four_points] with source 0, terminal 1 and
    poles 2 and 3. *)
Definition four_points_graph : DiGraph :=
  [(2, [(1, low_edge 50); (3, span_edge 130)]); (1, []);
   (3, [(2, span_edge 130)]);
   (0, [(2, trunk_edge 120); (3, trunk_edge 20)])].

(** Source 0 half a kilometre from the terminals 1 and 2, which are 50 m
    apart; the one pole, 3, sits on terminal 1 (the Fermat point of a
    triangle with an angle of 120 degrees or more is that vertex). *)
Definition far_source : list (list float) :=
  [[0; 500; 520; 500]; [500; 0; 50; 0]; [520; 50; 0; 50]; [500; 0; 50; 0]]%float.
Definition far_source_graph : DiGraph := [(3, [(2, low_edge 50)]); (2, [])].

(** Two points 111 m apart: the source and one terminal. *)
Definition two_points : list (list float) := [[0; 111]; [111; 0]]%float.

(** The pruned [dead_branch_tree]. *)
Definition served_tree : DiGraph :=
  [(0, [(2, trunk_edge 120)]); (2, [(1, low_edge 50)]); (1, [])].

Definition five_coords : list point :=
  [(0, 0); (0, 0.001); (0.0005, 0); (0.0001, 0.0001); (0.0003, 0.0003)]%float.

(** Three points with an angle of more than 120 degrees at the first. *)
Definition obtuse_triangle : list point :=
  [(10.12345678, 20); (10.12445678, 20); (10.12245678, 20.0005)]%float.
(** The triangulation of three points: the one triangle. *)
Definition one_triangle (coords : list point) : option (list (list nat)) :=
  Some [[0; 1; 2]].
(** A single candidate is compared with nothing: no distance is consulted. *)
Definition no_distance (p q : point) : float := 0%float.

(** The solver that hands back a graph that is a tree already; it stands
    in for [nx.minimum_spanning_arborescence] where a concrete function is
    needed. *)
Definition already_a_tree (G : DiGraph) : option DiGraph := Some G.

(** ** utils.py: the request and [parse_input] *)

(** A value of a point dictionary: [Union[float, str, None]]. *)
Inductive value :=
  | VFloat (x : float)
  | VStr (s : string)
  | VNone.

(** [OptimizationRequest]: the points (dictionaries with the keys 'lat',
    'lng' and, optionally, 'name'), the costs and the debug flag. *)
Record OptimizationRequest := mkOptimizationRequest {
  request_points : list (gmap string value);
  request_costs : gmap string float;
  request_debug : bool
}.

(** The [ValueError]s of [parse_input], by their message: "At least 2 points
    required", "Point {i + 1} missing/invalid lat/lng: ..." and
    "Point {i + 1} has invalid coordinates: ({lat}, {lng})". *)
Inductive ValueError :=
  | at_least_2_points_required
  | missing_or_invalid_lat_lng (point_number : nat)
  | invalid_coordinates (point_number : nat) (lat lng : float).

(** A [for] loop whose body may raise an exception that is told apart. *)
Fixpoint for_each_raising {A S E : Type} (xs : list A) (body : A → S → E + S) (s : S)
  : E + S :=
  match xs with
  | [] => inr s
  | x :: xs' =>
      match body x s with
      | inl e => inl e
      | inr s' => for_each_raising xs' body s'
      end
  end.

(** [kw in s] on strings. *)
Fixpoint str_in (kw s : string) : bool :=
  String.prefix kw s ||
  match s with
  | EmptyString => false
  | String _ s' => str_in kw s'
  end.

Definition SOURCE_KEYWORDS : list string :=
  ["power source"; "powersource"; "source"; "substation"; "main source";
   "primary"; "generator"; "grid tie"; "utility"].

Section parse_input.
(** [float(s)] on a string ([None] for the [ValueError] of a string that is
    no number), [str(x)] on a float, [s.strip()] and [s.lower()]: Python's
    own, which work on Unicode text. *)
Variable float_of_str : string → option float.
Variable str_of_float : float → string.
Variable str_strip : string → string.
Variable str_lower : string → string.

(** [float(p[key])]: [None] stands for the [KeyError] of a missing key, the
    [TypeError] of [float(None)] and the [ValueError] of [float(s)]. *)
Definition float_of_key (p : gmap string value) (key : string) : option float :=
  match p !! key with
  | Some (VFloat x) => Some x
  | Some (VStr s) => float_of_str s
  | Some VNone => None
  | None => None
  end.

(** The coordinates of point [i] (counted from 0): the [try] block and the
    range check. *)
Definition point_coords (i : nat) (p : gmap string value) : ValueError + point :=
  match float_of_key p "lat" with
  | None => inl (missing_or_invalid_lat_lng (S i))
  | Some lat =>
      match float_of_key p "lng" with
      | None => inl (missing_or_invalid_lat_lng (S i))
      | Some lng =>
          if negb ((-90 <=? lat)%float && (lat <=? 90)%float)
             || negb ((-180 <=? lng)%float && (lng <=? 180)%float)
          then inl (invalid_coordinates (S i) lat lng)
          else inr (lat, lng)
      end
  end.

(** "Name handling": [p.get("name")], stripped, or "Location {i + 1}". *)
Definition point_name (i : nat) (p : gmap string value) : string :=
  match p !! "name" with
  | Some (VStr s) => str_strip s
  | Some (VFloat x) => str_strip (str_of_float x)
  | Some VNone => "Location " +:+ pretty (S i)
  | None => "Location " +:+ pretty (S i)
  end.

(** "Source detection". *)
Definition is_source_name (name : string) : bool :=
  let name_lower := str_lower name in
  existsb (λ kw, str_in kw name_lower) SOURCE_KEYWORDS || str_in "source" name_lower.

(** Body of the loop over [enumerate(points)]; the state is [coords_list],
    [names] and [source_idx].  The warning printed at a second source name is
    left out. *)
Definition parse_point (ip : nat * gmap string value)
    (st : list point * list string * option nat)
  : ValueError + (list point * list string * option nat) :=
  let '(i, p) := ip in
  let '(coords_list, names, source_idx) := st in
  match point_coords i p with
  | inl e => inl e
  | inr c =>
      let coords_list := coords_list ++ [c] in
      let name := point_name i p in
      let names := names ++ [name] in
      if is_source_name name then
        match source_idx with
        | Some _ => inr (coords_list, names, source_idx)
        | None => inr (coords_list, <[i := "Power Source"]> names, Some i)
        end
      else inr (coords_list, names, source_idx)
  end.

(** [parse_input(request)]: the coordinates, the terminal indices, the source
    index, the names and the costs. *)
Definition parse_input (request : OptimizationRequest)
  : ValueError + (list point * list node * node * list string * gmap string float) :=
  let points := request_points request in
  let costs := request_costs request in
  if bool_decide (length points < 2) then inl at_least_2_points_required
  else
    match for_each_raising (imap pair points) parse_point ([], [], None) with
    | inl e => inl e
    | inr (coords, names, source_idx) =>
        let '(source_idx, names) :=
          match source_idx with
          | Some i => (i, names)
          | None => (0, <[0 := "Power Source"]> names)
          end in
        inr (coords, terminal_indices_of (length coords) source_idx, source_idx,
             names, costs)
    end.
End parse_input.

(** ** utils.py: [build_bounding_box] *)

(** [np.minimum(a, b)] and [np.maximum(a, b)]: a NaN among the two is the
    result (the first, when both are).  Of two entries that compare equal
    ([0.0] and [-0.0]) the first is taken here. *)
Definition np_minimum (a b : float) : float :=
  if is_nan a then a else if is_nan b then b
  else if (b <? a)%float then b else a.
Definition np_maximum (a b : float) : float :=
  if is_nan a then a else if is_nan b then b
  else if (a <? b)%float then b else a.

(** [np.min] and [np.max] of a column with first entry [x]. *)
Definition np_min (x : float) (xs : list float) : float := foldl np_minimum x xs.
Definition np_max (x : float) (xs : list float) : float := foldl np_maximum x xs.

Record BoundingBox := mkBoundingBox {
  min_lat : float; max_lat : float; min_lon : float; max_lon : float
}.

(** [build_bounding_box(coords)] on an array of rows [[lat, lon]]: Python's
    [None] for no row at all.  The [ValueError] for an array of another shape
    is not reachable from a list of rows. *)
Definition build_bounding_box (coords : list point) : option BoundingBox :=
  match coords with
  | [] => None
  | c :: cs =>
      Some {| min_lat := np_min c.1 cs.*1;
              max_lat := np_max c.1 cs.*1;
              min_lon := np_min c.2 cs.*2;
              max_lon := np_max c.2 cs.*2 |}
  end.

(** ** mst.py: [compute_mst] on a request *)

Section mst_request.
Variable float_of_str : string → option float.
Variable str_of_float : float → string.
Variable str_strip : string → string.
Variable str_lower : string → string.
Variable great_circle : point → point → float.
Variable Delaunay_simplices : list point → option (list (list nat)).
Variable np_argsort : list float → list nat.
Variable haversine_meters : float → float → float → float → option float.
Variable minimum_spanning_arborescence : DiGraph → option DiGraph.
Variable round : float → nat → float.

(** [compute_mst(request)]; [None] stands for any exception. *)
Definition compute_mst_request (request : OptimizationRequest) : option Result :=
  match parse_input float_of_str str_of_float str_strip str_lower request with
  | inl _ => None
  | inr (coords, terminal_indices, source_idx, original_names, costs) =>
      compute_mst great_circle Delaunay_simplices np_argsort haversine_meters
        minimum_spanning_arborescence round
        coords terminal_indices source_idx original_names costs
        (request_debug request)
  end.
End mst_request.

(** * Specification vocabulary for the candidate generators, continued *)

(** [np.mean(pts, axis=0)] of three rows. *)
Definition centroid (A B C : point) : point :=
  (((A.1 + B.1 + C.1) / 3)%float, ((A.2 + B.2 + C.2) / 3)%float).

(** What the generators rely on in [np.argsort]: it returns the positions
    of its argument, each once, in some order. *)
Definition returns_positions (np_argsort : list float → list nat) : Prop :=
  ∀ keys, np_argsort keys ≡ₚ seq 0 (length keys).

(** Example inputs: a great-circle distance of 50 m between any two points,
    a diagram with one vertex, and rows that are partitioned as they are. *)
Definition fifty_metres (p q : point) : float := 50%float.
Definition one_vertex (coords : list point) : option (list point) :=
  Some [(10.12345678, 20)%float].
Definition as_it_is (row : list float) (kth : nat) : list float := row.
(** * Specification vocabulary for the result of [compute_mst] *)

(** How the node [i] is named: the [k]-th used pole (from 1) is ["Pole k"],
    any other node keeps the name of the request, or gets [fallback] when the
    request has none for it. *)
Definition named_as (original_names : list string) (used_poles : list node)
    (i : node) (fallback name : string) : Prop :=
  (∀ k, used_poles !! k = Some i → name = "Pole " +:+ pretty (S k)) ∧
  (i ∉ used_poles → name = default fallback (original_names !! i)).
(** Example inputs for the parser: no string is a number, a float has no
    text, and names are lowercase and without blanks at the ends, so that
    [strip] and [lower] leave them as they are. *)
Definition no_number (s : string) : option float := None.
Definition no_text (x : float) : string := EmptyString.
Definition unchanged (s : string) : string := s.

(** A station and a house 111 m north of it. *)
Definition station_and_house : OptimizationRequest :=
  {| request_points :=
       [ {[ "lat" := VFloat 0; "lng" := VFloat 0; "name" := VStr "house" ]};
         {[ "lat" := VFloat 0.001; "lng" := VFloat 0; "name" := VStr "substation" ]} ];
     request_costs := ∅;
     request_debug := false |}.
(** The source, a terminal 55 m east of it and a terminal 60 m further on,
    at an angle of more than 120 degrees: the Fermat point of the triangle,
    the one pole, lies on the first terminal. *)
Definition pole_on_terminal : OptimizationRequest :=
  {| request_points :=
       [ {[ "lat" := VFloat 0; "lng" := VFloat 0; "name" := VStr "source" ]};
         {[ "lat" := VFloat 0; "lng" := VFloat 0.0005 ]};
         {[ "lat" := VFloat 0.0002; "lng" := VFloat 0.001 ]} ];
     request_costs := {[ "poleCost" := 1200%float ]};
     request_debug := false |}.
Definition bent_line : list point :=
  [(0, 0); (0, 0.0005); (0.0002, 0.001)]%float.

(** The candidate graph of [bent_line]: source 0, terminals 1 and 2, and
    pole 3 on terminal 1. *)
Definition bent_line_graph : DiGraph :=
  [(3, [(2, low_edge 50)]); (2, []); (0, [(3, trunk_edge 50)])].

(** The distances of [bent_line] with its pole: nothing between a row and
    itself, 50 m between two rows that differ. *)
Definition bent_line_distances : list (list float) :=
  [[0; 50; 50; 50]; [50; 0; 50; 0]; [50; 50; 0; 50]; [50; 0; 50; 0]]%float.

(** A distance for such points: nothing between a row and itself, 50 m
    between two rows that differ. *)
Definition metres_apart (lat1 lng1 lat2 lng2 : float) : option float :=
  if (lat1 =? lat2)%float && (lng1 =? lng2)%float then Some 0%float
  else Some 50%float.

(** Two points that are nearly antipodal, for which the distance raises. *)
Definition antipodes : OptimizationRequest :=
  {| request_points :=
       [ {[ "lat" := VFloat 2.5; "lng" := VFloat 0; "name" := VStr "source" ]};
         {[ "lat" := VFloat (-2.5); "lng" := VFloat 180 ]} ];
     request_costs := ∅;
     request_debug := false |}.
Definition no_antipodes (lat1 lng1 lat2 lng2 : float) : option float :=
  if (lat1 =? lat2)%float && (lng1 =? lng2)%float then Some 0%float
  else if (179 <? abs (lng1 - lng2))%float then None
  else Some 50%float.

(** A solver that raises on the null graph, as networkx does, and hands
    back any other graph as it is. *)
Definition tree_unless_null (G : DiGraph) : option DiGraph :=
  match G with
  | [] => None
  | _ => Some G
  end.

(** * Facts about dictionaries *)

Section dict_facts.
Context {V : Type}.
Implicit Types (d : list (node * V)) (k : node) (v : V).

Lemma dict_get_Some_elem k d v : dict_get k d = Some v → (k, v) ∈ d.
Proof.
  induction d as [|[k' v'] d IH]; simpl; [done|].
  case_decide; intros; simplify_eq; set_solver.
Qed.

Lemma dict_get_None k d : dict_get k d = None ↔ k ∉ d.*1.
Proof.
  induction d as [|[k' v'] d IH]; simpl; [set_solver|].
  case_decide; set_solver.
Qed.

Lemma dict_get_NoDup k v d : NoDup d.*1 → (k, v) ∈ d → dict_get k d = Some v.
Proof.
  induction d as [|[k' v'] d IH]; simpl; [set_solver|].
  rewrite NoDup_cons, elem_of_cons. intros [Hk' Hd] [Heq|Hin].
  - simplify_eq. by rewrite decide_True.
  - rewrite decide_False; [by apply IH|].
    intros ->. apply Hk'. by apply (list_elem_of_fmap_2' fst _ (k', v)).
Qed.

Lemma dict_mem_true k d : dict_mem k d = true ↔ k ∈ d.*1.
Proof.
  unfold dict_mem. rewrite bool_decide_eq_true.
  destruct (dict_get k d) eqn:E.
  - split; [|by eauto]. intros _.
    apply dict_get_Some_elem in E. by apply (list_elem_of_fmap_2' fst _ (k, v)).
  - apply dict_get_None in E. split; [by intros [? ?]|done].
Qed.

Lemma dict_mem_false k d : dict_mem k d = false ↔ k ∉ d.*1.
Proof. rewrite <-dict_mem_true. by destruct (dict_mem k d). Qed.

Lemma dict_set_keys k v d :
  (dict_set k v d).*1 = if decide (k ∈ d.*1) then d.*1 else d.*1 ++ [k].
Proof.
  induction d as [|[k' v'] d IH]; [by rewrite decide_False by set_solver|].
  rewrite fmap_cons. cbn [dict_set fst]. destruct (decide (k = k')) as [->|Hne].
  - rewrite fmap_cons. by rewrite decide_True by set_solver.
  - rewrite fmap_cons, IH. cbn [fst]. destruct (decide (k ∈ d.*1)).
    + by rewrite decide_True by set_solver.
    + by rewrite decide_False by set_solver.
Qed.

Lemma elem_of_dict_set_new k v d : (k, v) ∈ dict_set k v d.
Proof.
  induction d as [|[k' v'] d IH]; simpl; [set_solver|].
  case_decide; set_solver.
Qed.

Lemma elem_of_dict_set_inv k v d k' v' :
  (k', v') ∈ dict_set k v d → (k', v') = (k, v) ∨ (k', v') ∈ d.
Proof.
  induction d as [|[k0 v0] d IH]; simpl; [set_solver|].
  case_decide; set_solver.
Qed.

Lemma elem_of_dict_set_old k v d k' v' :
  (k', v') ∈ d → k' ≠ k → (k', v') ∈ dict_set k v d.
Proof.
  induction d as [|[k0 v0] d IH]; simpl; [set_solver|].
  case_decide; set_solver.
Qed.

Lemma dict_alter_keys f k d : (dict_alter f k d).*1 = d.*1.
Proof.
  induction d as [|[k' v'] d IH]; [done|]. cbn [dict_alter].
  case_decide; rewrite !fmap_cons; by rewrite ?IH.
Qed.

Lemma length_dict_alter f k d : length (dict_alter f k d) = length d.
Proof. by rewrite <-(length_fmap fst), dict_alter_keys, length_fmap. Qed.

Lemma elem_of_dict_alter_inv f k d k' v' :
  (k', v') ∈ dict_alter f k d →
  (k', v') ∈ d ∨ (k' = k ∧ ∃ v0, (k, v0) ∈ d ∧ v' = f v0).
Proof.
  induction d as [|[k0 v0] d IH]; simpl; [set_solver|].
  case_decide; set_solver.
Qed.

Lemma elem_of_dict_alter_hit f k d :
  k ∈ d.*1 → ∃ v0, (k, v0) ∈ d ∧ (k, f v0) ∈ dict_alter f k d.
Proof.
  induction d as [|[k0 v0] d IH]; simpl; [set_solver|].
  case_decide; [set_solver|].
  rewrite elem_of_cons. intros [?|Hin]; [done|].
  destruct (IH Hin) as (v1 & ? & ?). exists v1. set_solver.
Qed.

Lemma elem_of_dict_alter_old f k d k' v' :
  (k', v') ∈ d →
  (k', v') ∈ dict_alter f k d ∨ (k' = k ∧ (k, f v') ∈ dict_alter f k d).
Proof.
  induction d as [|[k0 v0] d IH]; simpl; [set_solver|].
  case_decide; set_solver.
Qed.

Lemma dict_del_keys k d : (dict_del k d).*1 = filter (λ x, x ≠ k) d.*1.
Proof.
  unfold dict_del. induction d as [|[k' v'] d IH]; [done|].
  rewrite fmap_cons, !filter_cons. cbn [fst].
  destruct (decide (k' ≠ k)); rewrite ?fmap_cons; by rewrite IH.
Qed.

Lemma elem_of_dict_del k d k' v' : (k', v') ∈ dict_del k d ↔ k' ≠ k ∧ (k', v') ∈ d.
Proof. unfold dict_del. by rewrite list_elem_of_filter. Qed.

Lemma dict_del_idemp k d : dict_del k (dict_del k d) = dict_del k d.
Proof.
  unfold dict_del. induction d as [|[k' v'] d IH]; [done|].
  rewrite filter_cons. destruct (decide ((k', v').1 ≠ k)); [|done].
  rewrite filter_cons, decide_True by done. by rewrite IH.
Qed.

Lemma dict_get_del_ne k k' d : k' ≠ k → dict_get k' (dict_del k d) = dict_get k' d.
Proof.
  intros Hne. unfold dict_del. induction d as [|[k0 v0] d IH]; [done|].
  rewrite filter_cons. simpl. destruct (decide (k0 ≠ k)) as [?|Heq]; simpl.
  - by rewrite IH.
  - apply dec_stable in Heq. subst. by rewrite decide_False.
Qed.

Lemma dict_get_fmap {W} (g : V → W) k d :
  dict_get k ((λ kv, (kv.1, g kv.2)) <$> d) = g <$> dict_get k d.
Proof.
  induction d as [|[k0 v0] d IH]; [done|]. simpl. by case_decide.
Qed.
End dict_facts.

(** * Facts about the graph operations *)

Section graph_facts.
Implicit Types (G : DiGraph) (u v n x y : node) (a b : EdgeData).

Lemma elem_of_edges G u v a :
  (u, v, a) ∈ edges G ↔ ∃ s, (u, s) ∈ G ∧ (v, a) ∈ s.
Proof.
  unfold edges. rewrite list_elem_of_bind. split.
  - intros ([x s] & Hin & HG).
    apply list_elem_of_fmap in Hin as ([y b] & Heq & Hs). simplify_eq/=. eauto.
  - intros (s & HG & Hs). exists (u, s). split; [|done].
    apply list_elem_of_fmap. by exists (v, a).
Qed.

Lemma edges_nil_adj G : edges G = [] ↔ ∀ u s, (u, s) ∈ G → s = [].
Proof.
  split.
  - intros HE u [|[v a] s] Hin; [done|].
    assert ((u, v, a) ∈ edges G) as Hc.
    { apply elem_of_edges. eexists. split; [done|]. by left. }
    rewrite HE in Hc. by apply not_elem_of_nil in Hc.
  - intros Hall. destruct (edges G) as [|[[u v] a] l] eqn:E; [done|].
    assert ((u, v, a) ∈ edges G) as Hc by (rewrite E; by left).
    apply elem_of_edges in Hc as (s & HG & Hs).
    apply Hall in HG. subst. by apply not_elem_of_nil in Hs.
Qed.

Lemma has_node_true G n : has_node G n = true ↔ n ∈ nodes G.
Proof. apply dict_mem_true. Qed.

Lemma has_node_false G n : has_node G n = false ↔ n ∉ nodes G.
Proof. apply dict_mem_false. Qed.

Lemma elem_of_nodes G n : n ∈ nodes G ↔ ∃ s, (n, s) ∈ G.
Proof.
  unfold nodes. rewrite list_elem_of_fmap. split.
  - intros ([x s] & -> & ?). eauto.
  - intros (s & ?). by exists (n, s).
Qed.

Lemma edge_endpoints G u v a : wf G → (u, v, a) ∈ edges G → u ∈ nodes G ∧ v ∈ nodes G.
Proof.
  intros [_ Hwf] He. apply elem_of_edges in He as (s & HG & Hs). split.
  - apply elem_of_nodes. eauto.
  - apply (Hwf u s HG). by apply (list_elem_of_fmap_2' fst _ (v, a)).
Qed.

Lemma edge_functional G u v a b :
  wf G → (u, v, a) ∈ edges G → (u, v, b) ∈ edges G → a = b.
Proof.
  intros [Hnd Hwf] Ha Hb.
  apply elem_of_edges in Ha as (s & HG & Hs).
  apply elem_of_edges in Hb as (s' & HG' & Hs').
  apply (dict_get_NoDup _ _ _ Hnd) in HG, HG'. simplify_eq.
  apply dict_get_Some_elem in HG. destruct (Hwf _ _ HG) as [Hs1 _].
  apply (dict_get_NoDup _ _ _ Hs1) in Hs, Hs'. congruence.
Qed.

Lemma elem_of_add_node n G x (s : list (node * EdgeData)) :
  (x, s) ∈ add_node n G ↔ (x, s) ∈ G ∨ ((n ∉ nodes G) ∧ (x, s) = (n, [])).
Proof.
  unfold add_node. destruct (has_node G n) eqn:E.
  - apply has_node_true in E. set_solver.
  - apply has_node_false in E. set_solver.
Qed.

Lemma nodes_add_node n G x : x ∈ nodes (add_node n G) ↔ x = n ∨ x ∈ nodes G.
Proof.
  rewrite !elem_of_nodes. setoid_rewrite elem_of_add_node. split.
  - intros (s & [?|[? ?]]); simplify_eq; eauto.
  - intros [->|[s ?]]; [|by eauto].
    destruct (decide (n ∈ nodes G)) as [Hin|Hnin].
    + apply elem_of_nodes in Hin as [s ?]. eauto.
    + exists []. by right.
Qed.

Lemma nodes_add_edge u v a G x :
  x ∈ nodes (add_edge u v a G) ↔ x = u ∨ x = v ∨ x ∈ nodes G.
Proof.
  unfold add_edge, nodes at 1. rewrite dict_alter_keys.
  fold (nodes (add_node v (add_node u G))).
  rewrite !nodes_add_node. tauto.
Qed.

Lemma edges_add_node n G : ∀ e, e ∈ edges (add_node n G) ↔ e ∈ edges G.
Proof.
  intros [[u v] a]. rewrite !elem_of_edges. setoid_rewrite elem_of_add_node.
  split; [|naive_solver]. intros (s & [?|[? ?]] & Hs); simplify_eq; [eauto|set_solver].
Qed.

(** What [add_edge] leaves in the graph: the new edge, and old ones. *)
Lemma edges_add_edge_inv u v a G x y b :
  (x, y, b) ∈ edges (add_edge u v a G) → (x, y, b) = (u, v, a) ∨ (x, y, b) ∈ edges G.
Proof.
  unfold add_edge. intros He. apply elem_of_edges in He as (s & HG & Hs).
  apply elem_of_dict_alter_inv in HG as [HG|(-> & s0 & HG & ->)].
  - right. apply (proj1 (edges_add_node u G _)), (proj1 (edges_add_node v _ _)).
    apply elem_of_edges. eauto.
  - apply elem_of_dict_set_inv in Hs as [?|Hs]; [left; congruence|right].
    apply (proj1 (edges_add_node u G _)), (proj1 (edges_add_node v _ _)).
    apply elem_of_edges. eauto.
Qed.

Lemma edges_add_edge_new u v a G : (u, v, a) ∈ edges (add_edge u v a G).
Proof.
  unfold add_edge. apply elem_of_edges.
  destruct (elem_of_dict_alter_hit (dict_set v a) u (add_node v (add_node u G)))
    as (s0 & _ & Hin).
  { apply nodes_add_node. right. apply nodes_add_node. by left. }
  eexists. split; [done|]. apply elem_of_dict_set_new.
Qed.

Lemma edges_add_edge_old u v a G x y b :
  (x, y, b) ∈ edges G → (x, y) ≠ (u, v) → (x, y, b) ∈ edges (add_edge u v a G).
Proof.
  intros Hin Hne.
  apply (proj2 (edges_add_node u G _)), (proj2 (edges_add_node v _ _)) in Hin.
  apply elem_of_edges in Hin as (s & HG & Hs).
  unfold add_edge. apply elem_of_edges.
  destruct (elem_of_dict_alter_old (dict_set v a) u _ _ _ HG) as [?|[-> ?]].
  - eauto.
  - eexists. split; [done|]. apply elem_of_dict_set_old; [done|congruence].
Qed.

Lemma wf_empty : wf empty.
Proof. split; [constructor|]. intros u s. set_solver. Qed.

Lemma wf_add_node n G : wf G → wf (add_node n G).
Proof.
  intros [Hnd Hwf]. split.
  - unfold add_node. destruct (has_node G n) eqn:E; [done|].
    apply has_node_false in E. unfold nodes. rewrite fmap_app.
    apply NoDup_app. split_and!; [done|set_solver|apply NoDup_singleton].
  - intros u s [HG|[_ ?]]%elem_of_add_node.
    + destruct (Hwf u s HG) as [? Hs]. split; [done|].
      intros v Hv. apply nodes_add_node. right. by apply Hs.
    + simplify_eq. split; [constructor|set_solver].
Qed.

Lemma wf_add_edge u v a G : wf G → wf (add_edge u v a G).
Proof.
  intros HG. apply (wf_add_node u), (wf_add_node v) in HG.
  assert (v ∈ nodes (add_node v (add_node u G))) as Hv
    by (apply nodes_add_node; by left).
  unfold add_edge. destruct HG as [Hnd Hwf]. split.
  - unfold nodes. by rewrite dict_alter_keys.
  - unfold nodes. rewrite dict_alter_keys.
    intros x s Hx.
    apply elem_of_dict_alter_inv in Hx as [Hin|(-> & s0 & Hin & ->)];
      [by apply (Hwf _ _ Hin)|].
    destruct (Hwf _ _ Hin) as [Hs0 Hsub]. rewrite dict_set_keys.
    case_decide; [done|]. split.
    + apply NoDup_app. split_and!; [done|set_solver|apply NoDup_singleton].
    + intros y Hy. apply elem_of_app in Hy as [?|Hy]; [by apply Hsub|].
      by apply list_elem_of_singleton in Hy as ->.
Qed.
End graph_facts.

(** * The [for] loop *)

Section for_each_facts.
Context {A S : Type}.
Implicit Types (xs : list A) (body : A → S → option S).

Lemma for_each_inv (P : S → Prop) xs body s s' :
  (∀ x t t', x ∈ xs → P t → body x t = Some t' → P t') →
  P s → for_each xs body s = Some s' → P s'.
Proof.
  revert s. induction xs as [|x xs IH]; intros s Hbody Hs; simpl.
  - by intros [= <-].
  - destruct (body x s) as [t|] eqn:E; [|done]. simpl. apply IH.
    + intros y t1 t2 Hy. apply Hbody. by right.
    + eapply Hbody; [by left|done..].
Qed.

Lemma for_each_is_Some (P : S → Prop) xs body s :
  (∀ x t, x ∈ xs → P t → ∃ t', body x t = Some t' ∧ P t') →
  P s → ∃ s', for_each xs body s = Some s' ∧ P s'.
Proof.
  revert s. induction xs as [|x xs IH]; intros s Hbody Hs; simpl; [by eauto|].
  destruct (Hbody x s) as (t & -> & Ht); [by left|done|]. simpl.
  apply IH; [|done]. intros y t1 Hy. apply Hbody. by right.
Qed.

Lemma for_each_app xs ys body s :
  for_each (xs ++ ys) body s = for_each xs body s ≫= for_each ys body.
Proof.
  revert s. induction xs as [|x xs IH]; intros s; simpl; [done|].
  destruct (body x s); simpl; [apply IH|done].
Qed.
End for_each_facts.

(** * The graph builder *)

Section build_facts.
Variables (source_idx : node) (terminal_indices pole_indices : list node).
Variable dist_matrix : list (list float).
Variable costs : gmap string float.

Local Abbreviation drop := (is_service_drop terminal_indices pole_indices dist_matrix).
Local Abbreviation span := (is_pole_span pole_indices dist_matrix).
Local Abbreviation trunk := (is_source_trunk source_idx pole_indices dist_matrix).
Local Abbreviation after_drops :=
  (after_drops terminal_indices pole_indices dist_matrix).
Local Abbreviation after_spans :=
  (after_spans terminal_indices pole_indices dist_matrix).
Local Abbreviation after_trunks :=
  (after_trunks source_idx terminal_indices pole_indices dist_matrix).


Lemma no_isolated_node_add_edge u v a G :
  no_isolated_node G → no_isolated_node (add_edge u v a G).
Proof.
  intros HG n Hn. apply nodes_add_edge in Hn as [->|[->|Hn]].
  - exists (u, v, a). split; [apply edges_add_edge_new|by left].
  - exists (u, v, a). split; [apply edges_add_edge_new|by right].
  - destruct (HG n Hn) as ([[x y] b] & He & Hxy). simpl in Hxy.
    destruct (decide ((x, y) = (u, v))) as [?|Hne]; simplify_eq.
    + exists (u, v, a). split; [apply edges_add_edge_new|done].
    + exists (x, y, b). split; [by apply edges_add_edge_old|done].
Qed.

Lemma service_drop_inv p h G G' :
  p ∈ pole_indices → h ∈ terminal_indices →
  after_drops G → service_drop dist_matrix p h G = Some G' → after_drops G'.
Proof.
  intros Hp Hh (Hwf & Hiso & Hall). unfold service_drop.
  destruct (matrix_get dist_matrix p h) as [d|] eqn:Hd; [simpl|done].
  destruct (within _ d _) eqn:Hin; intros [= <-]; [|done].
  split_and!; [by apply wf_add_edge|by apply no_isolated_node_add_edge|].
  intros [[x y] b] [?|?]%edges_add_edge_inv; [|by apply Hall].
  simplify_eq. split_and!; [done..|]. by exists d.
Qed.

Lemma pole_span_inv i j G G' :
  after_spans G → pole_span pole_indices dist_matrix i j G = Some G' →
  after_spans G'.
Proof.
  intros (Hwf & Hiso & Hall). unfold pole_span.
  destruct (pole_indices !! i) as [p1|] eqn:Hp1; [simpl|done].
  destruct (pole_indices !! j) as [p2|] eqn:Hp2; [simpl|done].
  destruct (matrix_get dist_matrix p1 p2) as [d|] eqn:Hd; [simpl|done].
  destruct (within _ d _) eqn:Hin; intros [= <-]; [|done].
  apply list_elem_of_lookup_2 in Hp1, Hp2.
  set (a := span_edge d). set (G1 := add_edge p1 p2 a G).
  assert (wf (add_edge p2 p1 a G1)) as Hwf'
    by (by apply wf_add_edge, wf_add_edge).
  assert ((p2, p1, a) ∈ edges (add_edge p2 p1 a G1)) as Hnew2
    by apply edges_add_edge_new.
  assert ((p1, p2, a) ∈ edges (add_edge p2 p1 a G1)) as Hnew1.
  { destruct (decide ((p1, p2) = (p2, p1))) as [?|Hne]; [by simplify_eq|].
    apply edges_add_edge_old; [apply edges_add_edge_new|done]. }
  split_and!; [done|by do 2 apply no_isolated_node_add_edge|].
  intros [[x y] b] He.
  destruct (edges_add_edge_inv _ _ _ _ _ _ _ He) as [?|He1]; simplify_eq.
  { right. split; [|done]. split_and!; [done..|]. exists d. eauto. }
  destruct (edges_add_edge_inv _ _ _ _ _ _ _ He1) as [?|He0]; simplify_eq.
  { right. split; [|done]. split_and!; [done..|]. exists d. eauto. }
  destruct (Hall _ He0) as [?|[Hspan Hrev]]; [by left|right].
  split; [done|]. unfold reversed in *. simpl in *.
  destruct (decide ((y, x) = (p1, p2))) as [?|Hne1]; simplify_eq.
  { by rewrite (edge_functional _ _ _ _ _ Hwf' He Hnew2). }
  destruct (decide ((y, x) = (p2, p1))) as [?|Hne2]; simplify_eq.
  { by rewrite (edge_functional _ _ _ _ _ Hwf' He Hnew1). }
  by do 2 (apply edges_add_edge_old; [|done]).
Qed.

(** One turn of the span loop adds nothing, or the span in both
    directions with one and the same data. *)
Lemma pole_span_both_directions i j G G' :
  pole_span pole_indices dist_matrix i j G = Some G' →
  G' = G ∨
  ∃ p1 p2 d, pole_indices !! i = Some p1 ∧ pole_indices !! j = Some p2 ∧
    matrix_get dist_matrix p1 p2 = Some d ∧
    (p1, p2, span_edge d) ∈ edges G' ∧ (p2, p1, span_edge d) ∈ edges G'.
Proof.
  unfold pole_span.
  destruct (pole_indices !! i) as [p1|] eqn:Hp1; [simpl|done].
  destruct (pole_indices !! j) as [p2|] eqn:Hp2; [simpl|done].
  destruct (matrix_get dist_matrix p1 p2) as [d|] eqn:Hd; [simpl|done].
  destruct (within _ d _) eqn:Hin; intros [= <-]; [right|by left].
  exists p1, p2, d. split_and!; [done..| |apply edges_add_edge_new].
  destruct (decide ((p1, p2) = (p2, p1))) as [?|Hne].
  - simplify_eq. apply edges_add_edge_new.
  - apply edges_add_edge_old; [apply edges_add_edge_new|done].
Qed.

Lemma source_trunk_inv p G G' :
  p ∈ pole_indices →
  after_trunks G → source_trunk source_idx dist_matrix p G = Some G' →
  after_trunks G'.
Proof.
  intros Hp (Hwf & Hiso & Hall). unfold source_trunk.
  destruct (matrix_get dist_matrix source_idx p) as [d|] eqn:Hd; [simpl|done].
  destruct (within _ d _) eqn:Hin; intros [= <-]; [|done].
  split_and!; [by apply wf_add_edge|by apply no_isolated_node_add_edge|].
  intros [[x y] b] [?|He]%edges_add_edge_inv; simplify_eq.
  { right; right. split_and!; [done..|]. by exists d. }
  destruct (Hall _ He) as [?|[[Hspan Hrev]|?]]; [by left| |by right; right].
  right; left. split; [done|]. intros Hy. unfold reversed in *. simpl in *.
  apply edges_add_edge_old; [by apply Hrev|congruence].
Qed.

(** The invariant of the whole builder. *)
Lemma build_after_trunks DG :
  build_directed_graph_for_arborescence
    source_idx terminal_indices pole_indices dist_matrix costs = Some DG →
  after_trunks DG.
Proof.
  unfold build_directed_graph_for_arborescence.
  destruct (for_each pole_indices _ empty) as [G1|] eqn:E1; [simpl|done].
  destruct (for_each (seq 0 _) _ G1) as [G2|] eqn:E2; [simpl|done].
  intros E3.
  assert (after_drops G1) as H1.
  { revert E1. apply for_each_inv.
    - intros p G G' Hp HG. apply for_each_inv; [|done].
      intros h ????. by eapply service_drop_inv.
    - split_and!; [apply wf_empty|intros n; set_solver|set_solver]. }
  assert (after_spans G2) as H2.
  { revert E2. apply for_each_inv.
    - intros i G G' _ HG. apply for_each_inv; [|done].
      intros j ????. by eapply pole_span_inv.
    - destruct H1 as (? & ? & Hall). split_and!; [done..|].
      intros e He. left. by apply Hall. }
  revert E3. apply for_each_inv.
  - intros p G G' Hp HG. by apply source_trunk_inv.
  - destruct H2 as (? & ? & Hall). split_and!; [done..|].
    intros e He. destruct (Hall e He) as [?|[? ?]]; [by left|right; left].
    by split.
Qed.

(** The builder raises only on an index outside the matrix. *)
Lemma build_returns :
  indices_in_range source_idx terminal_indices pole_indices dist_matrix →
  is_Some (build_directed_graph_for_arborescence
             source_idx terminal_indices pole_indices dist_matrix costs).
Proof.
  intros Hrange. unfold build_directed_graph_for_arborescence.
  assert (∀ (xs : list node) (body : node → DiGraph → option DiGraph) G,
    (∀ x t, x ∈ xs → is_Some (body x t)) → ∃ G', for_each xs body G = Some G')
    as Hloop.
  { intros xs body G Hbody.
    destruct (for_each_is_Some (λ _, True) xs body G) as (G' & ? & _); [|done|by eauto].
    intros x t Hx _. destruct (Hbody x t Hx) as [t' ?]. eauto. }
  destruct (Hloop pole_indices
    (λ p, for_each terminal_indices (service_drop dist_matrix p)) empty)
    as [G1 E1].
  { intros p G Hp. apply Hloop. intros h t Hh. unfold service_drop.
    destruct (Hrange p h) as [d ->]; [set_solver..|]. simpl. by case_match. }
  destruct (Hloop (seq 0 (length pole_indices))
    (λ i, for_each (seq (S i) (length pole_indices - S i))
            (pole_span pole_indices dist_matrix i)) G1) as [G2 E2].
  { intros i G Hi. apply elem_of_seq in Hi. cbv beta.
    apply Hloop. intros j t Hj. apply elem_of_seq in Hj. unfold pole_span.
    destruct (lookup_lt_is_Some_2 pole_indices i) as [p1 Hp1]; [lia|].
    destruct (lookup_lt_is_Some_2 pole_indices j) as [p2 Hp2]; [lia|].
    rewrite Hp1, Hp2. simpl. apply list_elem_of_lookup_2 in Hp1, Hp2.
    destruct (Hrange p1 p2) as [d ->]; [set_solver..|]. simpl. by case_match. }
  destruct (Hloop pole_indices (source_trunk source_idx dist_matrix) G2)
    as [G3 E3].
  { intros p t Hp. unfold source_trunk.
    destruct (Hrange source_idx p) as [d ->]; [set_solver..|]. simpl. by case_match. }
  exists G3. cbv zeta. apply bind_Some. exists G1. split; [done|].
  apply bind_Some. by exists G2.
Qed.
End build_facts.

(** * Removing nodes *)

Section remove_facts.
Implicit Types (G : DiGraph) (u v n x y : node) (a b : EdgeData).

Lemma nodes_remove_node n G : nodes (remove_node n G) = filter (λ x, x ≠ n) (nodes G).
Proof.
  unfold remove_node, nodes. rewrite <-list_fmap_compose.
  rewrite <-dict_del_keys. by apply list_fmap_ext.
Qed.

Lemma elem_of_nodes_remove_node n G x :
  x ∈ nodes (remove_node n G) ↔ x ≠ n ∧ x ∈ nodes G.
Proof. by rewrite nodes_remove_node, list_elem_of_filter. Qed.

Lemma elem_of_remove_node n G x (s' : list (node * EdgeData)) :
  (x, s') ∈ remove_node n G ↔ x ≠ n ∧ ∃ s, (x, s) ∈ G ∧ s' = dict_del n s.
Proof.
  unfold remove_node. rewrite list_elem_of_fmap. split.
  - intros ([y s] & ? & [? ?]%elem_of_dict_del). simplify_eq/=. eauto.
  - intros (? & s & ? & ->). exists (x, s). split; [done|].
    by apply elem_of_dict_del.
Qed.

Lemma edges_remove_node n G u v a :
  (u, v, a) ∈ edges (remove_node n G) ↔ u ≠ n ∧ v ≠ n ∧ (u, v, a) ∈ edges G.
Proof.
  rewrite !elem_of_edges. setoid_rewrite elem_of_remove_node. split.
  - intros (s' & (? & s & ? & ->) & [? ?]%elem_of_dict_del). eauto.
  - intros (? & ? & s & ? & ?). exists (dict_del n s).
    split; [by eauto|]. by apply elem_of_dict_del.
Qed.

Lemma adj_remove_node n G x : x ≠ n → adj (remove_node n G) x = dict_del n (adj G x).
Proof.
  intros Hne. unfold adj, remove_node.
  rewrite (dict_get_fmap (dict_del n)), dict_get_del_ne by done.
  by destruct (dict_get x G).
Qed.

Lemma wf_remove_node n G : wf G → wf (remove_node n G).
Proof.
  intros [Hnd Hwf]. split.
  - rewrite nodes_remove_node. by apply NoDup_filter.
  - intros x s' (? & s & HG & ->)%elem_of_remove_node.
    destruct (Hwf x s HG) as [Hs Hsub]. rewrite dict_del_keys. split.
    + by apply NoDup_filter.
    + intros y [? ?]%list_elem_of_filter.
      apply elem_of_nodes_remove_node. split; [done|]. by apply Hsub.
Qed.

Lemma length_remove_node_le n G : length (remove_node n G) ≤ length G.
Proof. unfold remove_node, dict_del. rewrite length_fmap. apply length_filter. Qed.

Lemma length_remove_node_lt n G : n ∈ nodes G → length (remove_node n G) < length G.
Proof.
  intros [s Hs]%elem_of_nodes. unfold remove_node, dict_del. rewrite length_fmap.
  apply (length_filter_lt _ _ (n, s)); [done|]. simpl. by intros ?.
Qed.

(** Taking the edges into [n] away first changes nothing in the end. *)
Lemma remove_node_remove_edge u n G :
  remove_node n (remove_edge u n G) = remove_node n G.
Proof.
  unfold remove_node, remove_edge, dict_del.
  induction G as [|[x s] G IH]; [done|]. cbn [dict_alter].
  destruct (decide (u = x)) as [->|Hne].
  - rewrite !filter_cons. cbn [fst]. case_decide; [|done].
    rewrite !fmap_cons. cbn [fst snd].
    pose proof (dict_del_idemp n s) as Hi. unfold dict_del in Hi. by rewrite Hi.
  - rewrite !filter_cons. cbn [fst]. case_decide; [|done].
    rewrite !fmap_cons. by rewrite IH.
Qed.

Lemma remove_node_remove_edges n G preds :
  remove_node n (foldl (λ G pred, remove_edge pred n G) G preds) = remove_node n G.
Proof.
  revert G. induction preds as [|p preds IH]; intros G; [done|]. simpl.
  by rewrite IH, remove_node_remove_edge.
Qed.

Lemma length_remove_nodes_le ns G : length (remove_nodes ns G) ≤ length G.
Proof.
  revert G. induction ns as [|n ns IH]; intros G; simpl; [done|].
  etrans; [apply IH|apply length_remove_node_le].
Qed.

Lemma wf_remove_nodes ns G : wf G → wf (remove_nodes ns G).
Proof.
  revert G. induction ns as [|n ns IH]; intros G; simpl; [done|].
  intros. by apply IH, wf_remove_node.
Qed.

Lemma elem_of_nodes_remove_nodes ns G x :
  x ∈ nodes (remove_nodes ns G) ↔ (x ∉ ns) ∧ x ∈ nodes G.
Proof.
  revert G. induction ns as [|n ns IH]; intros G; simpl; [set_solver|].
  rewrite IH, elem_of_nodes_remove_node. set_solver.
Qed.

Lemma edges_remove_nodes ns G u v a :
  (u, v, a) ∈ edges (remove_nodes ns G) ↔
  (u ∉ ns) ∧ (v ∉ ns) ∧ (u, v, a) ∈ edges G.
Proof.
  revert G. induction ns as [|n ns IH]; intros G; simpl; [set_solver|].
  rewrite IH, edges_remove_node. set_solver.
Qed.

Lemma induced_subgraph_refl G : wf G → induced_subgraph G G.
Proof.
  intros HG. split; [done|]. intros [[u v] a]. split; [|tauto].
  intros He. split; [done|]. by apply (edge_endpoints G u v a).
Qed.

Lemma induced_subgraph_trans G1 G2 G3 :
  induced_subgraph G1 G2 → induced_subgraph G2 G3 → induced_subgraph G1 G3.
Proof.
  intros [Hn12 He12] [Hn23 He23]. split; [by auto|].
  intros e. rewrite He23, He12. naive_solver.
Qed.

Lemma induced_subgraph_remove_nodes ns G :
  wf G → induced_subgraph G (remove_nodes ns G).
Proof.
  intros HG. split.
  - intros n. rewrite elem_of_nodes_remove_nodes. tauto.
  - intros [[u v] a]. rewrite edges_remove_nodes, !elem_of_nodes_remove_nodes.
    simpl. split; [|tauto]. intros (? & ? & He).
    destruct (edge_endpoints G u v a HG He). tauto.
Qed.
End remove_facts.

(** * The pruning pass and the loop around it *)

Section prune_facts.
Variables (pole_indices terminal_indices : list node).
Implicit Types (G : DiGraph) (n leaf : node).

Local Abbreviation dead := (dead_end pole_indices terminal_indices).

Lemma out_degree_0 G n : out_degree G n = 0 ↔ adj G n = [].
Proof. unfold out_degree. apply length_zero_iff_nil. Qed.

Lemma elem_of_leaves G n : n ∈ leaves G ↔ n ∈ nodes G ∧ adj G n = [].
Proof. unfold leaves. rewrite list_elem_of_filter, out_degree_0. tauto. Qed.

Lemma reach_step_leaf G n : adj G n = [] → reach_step G {[n]} = {[n]}.
Proof.
  intros Hadj. unfold reach_step, successors.
  rewrite set_bind_singleton_L, Hadj. set_solver.
Qed.

(** A leaf has no descendant. *)
Lemma descendants_leaf G n :
  n ∈ nodes G → adj G n = [] → descendants G n = Some ∅.
Proof.
  intros Hn Hadj. unfold descendants.
  apply has_node_true in Hn. rewrite Hn. f_equal.
  assert (∀ k, Nat.iter k (reach_step G) {[n]} = ({[n]} : gset node)) as ->.
  { induction k as [|k IH]; simpl; [done|]. by rewrite IH, reach_step_leaf. }
  apply difference_diag_L.
Qed.

Lemma serves_terminal_singleton n :
  serves_terminal terminal_indices (∅ ∪ {[n]}) = bool_decide (n ∈ terminal_indices).
Proof.
  unfold serves_terminal. rewrite (left_id_L ∅ (∪)), elements_singleton. simpl.
  apply orb_false_r.
Qed.

(** The loop body at a leaf: the descendant check looks at the leaf alone. *)
Lemma prune_leaf_leaf leaf G r :
  leaf ∈ nodes G → adj G leaf = [] →
  prune_leaf pole_indices terminal_indices leaf (G, r) =
  Some (if decide (dead leaf) then (remove_node leaf G, true) else (G, r)).
Proof.
  intros Hn Hadj. unfold prune_leaf, dead_end.
  destruct (decide (leaf ∈ pole_indices)) as [Hp|Hp].
  - rewrite bool_decide_eq_true_2 by done.
    rewrite descendants_leaf by done. simpl.
    rewrite serves_terminal_singleton, remove_node_remove_edges.
    destruct (decide (leaf ∈ terminal_indices)) as [Ht|Ht].
    + rewrite bool_decide_eq_true_2 by done. simpl.
      by rewrite decide_False by tauto.
    + rewrite bool_decide_eq_false_2 by done. simpl.
      by rewrite decide_True by tauto.
  - rewrite bool_decide_eq_false_2 by done. by rewrite decide_False by tauto.
Qed.

Lemma prune_leaves_spec ls G r :
  NoDup ls → (∀ l, l ∈ ls → l ∈ nodes G ∧ adj G l = []) →
  for_each ls (prune_leaf pole_indices terminal_indices) (G, r) =
  Some (remove_nodes (filter dead ls) G, r || bool_decide (filter dead ls ≠ [])).
Proof.
  revert G r. induction ls as [|l ls IH]; intros G r Hnd Hls.
  - simpl. by rewrite orb_false_r.
  - apply NoDup_cons in Hnd as [Hl Hnd].
    destruct (Hls l) as [Hn Hadj]; [by left|].
    cbn [for_each]. rewrite prune_leaf_leaf by done. simpl.
    destruct (decide (dead l)) as [Hd|Hd].
    + rewrite filter_cons_True by done. rewrite IH; [|done|].
      * simpl. by rewrite orb_true_r.
      * intros l' Hl'. destruct (Hls l') as [? Hadj']; [by right|].
        assert (l' ≠ l) by (by intros ->). split.
        -- by apply elem_of_nodes_remove_node.
        -- rewrite adj_remove_node by done. by rewrite Hadj'.
    + rewrite filter_cons_False by done. apply IH; [done|].
      intros l' Hl'. apply Hls. by right.
Qed.

(** One pass removes exactly the dead-end leaves found at its start. *)
Lemma prune_pass_spec G :
  NoDup (nodes G) →
  prune_pass pole_indices terminal_indices G =
  Some (remove_nodes (dead_leaves pole_indices terminal_indices G) G,
        bool_decide (dead_leaves pole_indices terminal_indices G ≠ [])).
Proof.
  intros Hnd. unfold prune_pass. fold (leaves G).
  rewrite prune_leaves_spec; [done|by apply NoDup_filter|].
  intros l. by rewrite elem_of_leaves.
Qed.

Lemma length_remove_dead_leaves G :
  dead_leaves pole_indices terminal_indices G ≠ [] →
  length (remove_nodes (dead_leaves pole_indices terminal_indices G) G) < length G.
Proof.
  destruct (dead_leaves _ _ G) as [|d ds] eqn:E; [done|]. intros _. simpl.
  assert (d ∈ nodes G) as Hd.
  { assert (d ∈ dead_leaves pole_indices terminal_indices G) as Hin
      by (rewrite E; by left).
    unfold dead_leaves in Hin.
    by apply list_elem_of_filter in Hin as [_ [? _]%elem_of_leaves]. }
  eapply Nat.le_lt_trans; [apply length_remove_nodes_le|].
  by apply length_remove_node_lt.
Qed.

(** The loop ends within the turns it is given, at a graph without
    dead-end leaf, which is the input restricted to the nodes left; only
    dead ends have gone. *)
Lemma prune_loop_spec turns G :
  wf G → length G < turns →
  ∃ G', prune_loop pole_indices terminal_indices turns G = Some G' ∧
        wf G' ∧ dead_leaves pole_indices terminal_indices G' = [] ∧
        induced_subgraph G G' ∧
        ∀ n, n ∈ nodes G → n ∉ nodes G' → dead n.
Proof.
  revert G. induction turns as [|turns IH]; intros G HG Hlen; [lia|].
  cbn [prune_loop]. rewrite prune_pass_spec by apply HG.
  destruct (decide (dead_leaves pole_indices terminal_indices G = [])) as [E|E].
  - rewrite bool_decide_eq_false_2 by (by intros ?). rewrite E. simpl.
    exists G. split_and!; [done..|by apply induced_subgraph_refl|done].
  - rewrite bool_decide_eq_true_2 by done.
    set (G1 := remove_nodes (dead_leaves pole_indices terminal_indices G) G).
    destruct (IH G1) as (G' & Hrun & Hwf' & Hdl & Hsub & Hgone).
    { by apply wf_remove_nodes. }
    { pose proof (length_remove_dead_leaves G E). unfold G1. lia. }
    exists G'. split_and!; [done..| |].
    + eapply induced_subgraph_trans; [|done].
      by apply induced_subgraph_remove_nodes.
    + intros n Hn Hn'. destruct (decide (n ∈ nodes G1)) as [H1|H1]; [by apply Hgone|].
      unfold G1 in H1. rewrite elem_of_nodes_remove_nodes in H1.
      destruct (decide (n ∈ dead_leaves pole_indices terminal_indices G)) as [Hd|Hd];
        [|tauto].
      unfold dead_leaves in Hd. by apply list_elem_of_filter in Hd as [? _].
Qed.

(** The pruner returns on every graph. *)
Lemma prune_spec arbo :
  wf arbo →
  ∃ mst, prune_dead_end_pole_branches arbo pole_indices terminal_indices = Some mst ∧
         wf mst ∧ dead_leaves pole_indices terminal_indices mst = [] ∧
         induced_subgraph arbo mst ∧
         ∀ n, n ∈ nodes arbo → n ∉ nodes mst → dead n.
Proof. intros. apply prune_loop_spec; [done|lia]. Qed.

(** On a graph without dead-end leaf the pruner changes nothing. *)
Lemma prune_fixed_point G :
  wf G → dead_leaves pole_indices terminal_indices G = [] →
  prune_dead_end_pole_branches G pole_indices terminal_indices = Some G.
Proof.
  intros HG E. unfold prune_dead_end_pole_branches. cbn [prune_loop].
  rewrite prune_pass_spec by apply HG. by rewrite E.
Qed.

(** With disjoint index lists a dead end is just a pole. *)
Lemma dead_leaves_pole_leaves G :
  (∀ n, n ∈ pole_indices → n ∉ terminal_indices) →
  dead_leaves pole_indices terminal_indices G = pole_leaves pole_indices G.
Proof.
  intros Hdisj. unfold dead_leaves, leaves, pole_leaves.
  rewrite list_filter_filter. apply list_filter_iff.
  intros n. unfold dead_end. naive_solver.
Qed.

Lemma prune_loop_simple turns G :
  (∀ n, n ∈ pole_indices → n ∉ terminal_indices) →
  wf G → length G < turns →
  prune_loop pole_indices terminal_indices turns G =
  Some (remove_pole_leaves turns pole_indices G).
Proof.
  intros Hdisj. revert G. induction turns as [|turns IH]; intros G HG Hlen; [lia|].
  cbn [prune_loop remove_pole_leaves]. rewrite prune_pass_spec by apply HG.
  pose proof (length_remove_dead_leaves G) as Hlt.
  rewrite dead_leaves_pole_leaves in * by done.
  destruct (pole_leaves pole_indices G) as [|l ls] eqn:E.
  - by rewrite bool_decide_eq_false_2 by (by intros ?).
  - rewrite bool_decide_eq_true_2 by done.
    apply IH; [by apply wf_remove_nodes|]. specialize (Hlt ltac:(done)). lia.
Qed.
End prune_facts.

(** * Descendants are the reachable nodes *)

Section reach_facts.
Implicit Types (G : DiGraph) (u v n s t : node) (X : gset node).

Lemma has_edge_successors G u v : wf G → has_edge G u v ↔ v ∈ successors G u.
Proof.
  intros [Hnd _]. unfold has_edge, successors, adj. split.
  - intros (a & He). apply elem_of_edges in He as (su & HG & Hs).
    rewrite (dict_get_NoDup _ _ _ Hnd HG). simpl.
    by apply (list_elem_of_fmap_2' fst _ (v, a)).
  - destruct (dict_get u G) as [su|] eqn:E; simpl; [|by intros ?%not_elem_of_nil].
    intros ([y a] & -> & Hs)%list_elem_of_fmap. exists a.
    apply elem_of_edges. exists su. split; [by apply dict_get_Some_elem|done].
Qed.

Lemma elem_of_reach_step G X t :
  t ∈ reach_step G X ↔ t ∈ X ∨ ∃ u, u ∈ X ∧ t ∈ successors G u.
Proof.
  unfold reach_step. rewrite elem_of_union, elem_of_set_bind.
  by setoid_rewrite elem_of_list_to_set.
Qed.

Lemma reach_step_stable G X k : reach_step G X = X → Nat.iter k (reach_step G) X = X.
Proof. intros HX. induction k as [|k IH]; simpl; [done|]. by rewrite IH. Qed.

(** Each round either changes nothing or finds a new node. *)
Lemma reach_progress G X k :
  reach_step G (Nat.iter k (reach_step G) X) = Nat.iter k (reach_step G) X ∨
  size X + k ≤ size (Nat.iter k (reach_step G) X).
Proof.
  induction k as [|k IH]; simpl; [right; lia|].
  set (Y := Nat.iter k (reach_step G) X) in *.
  destruct (decide (reach_step G Y = Y)) as [E|E]; [left; by rewrite !E|].
  destruct IH as [?|IH]; [done|]. right.
  assert (Y ⊂ reach_step G Y) as Hsub.
  { split; [intros t; rewrite elem_of_reach_step; tauto|].
    intros Hsub. apply E. apply set_eq. intros t. split; [apply Hsub|].
    rewrite elem_of_reach_step. tauto. }
  apply subset_size in Hsub. lia.
Qed.

Lemma reach_start G s k : s ∈ Nat.iter k (reach_step G) {[s]}.
Proof.
  induction k as [|k IH]; simpl; [set_solver|]. apply elem_of_reach_step. by left.
Qed.

Lemma reach_sound G s k t :
  wf G → t ∈ Nat.iter k (reach_step G) {[s]} → rtc (has_edge G) s t.
Proof.
  intros HG. revert t. induction k as [|k IH]; intros t; simpl.
  - by intros ->%elem_of_singleton.
  - rewrite elem_of_reach_step. intros [?|(u & Hu & Ht)]; [by apply IH|].
    eapply rtc_r; [by apply IH|]. by apply has_edge_successors.
Qed.

Lemma rtc_edge_nodes G s t : wf G → s ∈ nodes G → rtc (has_edge G) s t → t ∈ nodes G.
Proof.
  intros HG Hs Hst. induction Hst as [|x y z [a He] _ IH]; [done|].
  apply IH. by apply (edge_endpoints G x y a).
Qed.

(** After [len(G)] rounds nothing new can turn up. *)
Lemma reach_saturated G s :
  wf G → s ∈ nodes G →
  let X := Nat.iter (length G) (reach_step G) {[s]} in reach_step G X = X.
Proof.
  intros HG Hs X. destruct (reach_progress G {[s]} (length G)) as [?|Hsz]; [done|].
  exfalso. fold X in Hsz. rewrite size_singleton in Hsz.
  assert (X ⊆ list_to_set (nodes G)) as Hsub.
  { intros t Ht. apply elem_of_list_to_set.
    eapply rtc_edge_nodes; [done..|]. by eapply reach_sound. }
  apply subseteq_size in Hsub.
  rewrite size_list_to_set in Hsub by apply HG.
  unfold nodes in Hsub. rewrite length_fmap in Hsub. lia.
Qed.

(** [nx.descendants] returns on a node of the graph, with exactly the
    nodes that a path of one edge or more leads to, the start apart. *)
Lemma descendants_spec G s :
  wf G → s ∈ nodes G →
  ∃ ds, descendants G s = Some ds ∧ ∀ t, t ∈ ds ↔ t ≠ s ∧ rtc (has_edge G) s t.
Proof.
  intros HG Hs. unfold descendants.
  rewrite (proj2 (has_node_true G s) Hs). eexists. split; [done|].
  intros t. rewrite elem_of_difference, elem_of_singleton.
  pose proof (reach_saturated G s HG Hs) as Hsat. simpl in Hsat.
  set (X := Nat.iter (length G) (reach_step G) {[s]}) in *.
  split.
  - intros [Ht ?]. split; [done|]. by eapply reach_sound.
  - intros [Hne Hst]. split; [|done]. clear Hne. revert t Hst. apply rtc_ind_r.
    + apply reach_start.
    + intros y z _ Hyz Hy. rewrite <-Hsat. apply elem_of_reach_step. right.
      exists y. split; [done|]. by apply has_edge_successors.
Qed.
End reach_facts.

(** * What is left after pruning serves a terminal *)

Section served.
Variables (pole_indices terminal_indices : list node).
Implicit Types (G : DiGraph) (n p t : node).

Local Abbreviation heads_classified :=
  (heads_classified pole_indices terminal_indices).

Lemma tc_edge_nodes G u v : wf G → tc (has_edge G) u v → v ∈ nodes G.
Proof.
  intros HG Huv. induction Huv as [x y [a He]|x y z _ _ IH]; [|done].
  by apply (edge_endpoints G x y a).
Qed.

Lemma acyclic_sn G n : wf G → acyclic G → sn (has_edge G) n.
Proof.
  intros HG Hacyc. apply tc_finite_sn; [exact Hacyc|].
  exists (nodes G). intros y. by apply tc_edge_nodes.
Qed.

(** In an acyclic graph without dead-end leaf whose edges lead to poles
    and terminals only, a path leads from every pole to a terminal. *)
Lemma pole_reaches_terminal G p :
  wf G → acyclic G → heads_classified G →
  dead_leaves pole_indices terminal_indices G = [] →
  p ∈ nodes G → p ∈ pole_indices →
  ∃ t, t ∈ terminal_indices ∧ rtc (has_edge G) p t.
Proof.
  intros HG Hacyc Hheads Hdl. induction (acyclic_sn G p HG Hacyc) as [p _ IH].
  intros Hp Hpole. destruct (adj G p) as [|[v a] s] eqn:Hadj.
  - destruct (decide (p ∈ terminal_indices)) as [?|Ht]; [by exists p|].
    exfalso. eapply (filter_nil_not_elem_of _ _ p Hdl); [by split|].
    by apply elem_of_leaves.
  - assert (has_edge G p v) as Hpv.
    { apply has_edge_successors; [done|]. unfold successors. rewrite Hadj.
      rewrite fmap_cons. by left. }
    destruct (Hheads p v Hpv) as [Hv|Hv].
    + destruct (IH v Hpv) as (t & ? & ?); [|done|].
      * destruct Hpv as [b He]. by apply (edge_endpoints G p v b).
      * exists t. split; [done|]. by eapply rtc_l.
    + exists v. split; [done|]. by apply rtc_once.
Qed.

Lemma induced_subgraph_has_edge G G' u v :
  induced_subgraph G G' → has_edge G' u v → has_edge G u v.
Proof. intros [_ He] [a Ha]. exists a. by apply He in Ha as [? _]. Qed.

Lemma induced_subgraph_tc G G' u v :
  induced_subgraph G G' → tc (has_edge G') u v → tc (has_edge G) u v.
Proof.
  intros Hsub Huv. induction Huv as [x y Hxy|x y z Hxy _ IH].
  - apply tc_once. by apply (induced_subgraph_has_edge G G').
  - eapply tc_l; [|done]. by apply (induced_subgraph_has_edge G G').
Qed.

Lemma induced_subgraph_acyclic G G' : induced_subgraph G G' → acyclic G → acyclic G'.
Proof. intros Hsub Hacyc n Hn. apply (Hacyc n). by eapply induced_subgraph_tc. Qed.
End served.

(** * Floats *)

Lemma within_bounds lo d hi :
  within lo d hi = true → (lo <? d)%float = true ∧ (d <=? hi)%float = true.
Proof. unfold within. by intros [? ?]%andb_prop. Qed.

(** Neither zero is inside an interval that starts at 0.1. *)
Lemma zero_not_within d hi : (d =? 0)%float = true → within 0.1 d hi = false.
Proof.
  intros H. unfold within. rewrite FloatAxioms.ltb_spec.
  rewrite FloatAxioms.eqb_spec in H.
  by destruct (Prim2SF d) as [[]|[]| |[]].
Qed.

Ltac list_membership :=
  repeat first [ apply list_elem_of_here | apply list_elem_of_further ].

Lemma wf_dead_branch_tree : wf dead_branch_tree.
Proof.
  split.
  - vm_compute. repeat (apply NoDup_cons; split; [set_solver|]). apply NoDup_nil_2.
  - intros u s Hus. unfold dead_branch_tree in Hus.
    repeat (apply elem_of_cons in Hus as [Hus|Hus]; [simplify_eq; split;
      [vm_compute; repeat (apply NoDup_cons; split; [set_solver|]); apply NoDup_nil_2
      |vm_compute; set_solver]|]).
    by apply not_elem_of_nil in Hus.
Qed.

(** A numbering that grows along every edge rules out cycles. *)
Lemma ranked_acyclic (G : DiGraph) (rank : node → nat) :
  (∀ e, e ∈ edges G → rank e.1.1 < rank e.1.2) → acyclic G.
Proof.
  intros Hrank. assert (∀ u v, tc (has_edge G) u v → rank u < rank v) as Htc.
  { intros u v Huv. induction Huv as [x y [a He]|x y z [a He] _ IH].
    - apply (Hrank _ He).
    - pose proof (Hrank _ He). simpl in *. lia. }
  intros n Hn. apply Htc in Hn. lia.
Qed.

(** * The branch pruner *)

(** C1, as amended: on an acyclic graph all of whose edges lead to a pole or a
    terminal, the pruner returns a graph in which the descendant set of every
    pole (the pole included) holds a terminal; and a node listed as terminal
    is never removed. *)
Theorem pruned_poles_serve_a_terminal
    (arbo : DiGraph) (pole_indices terminal_indices : list node) :
  wf arbo → acyclic arbo → heads_classified pole_indices terminal_indices arbo →
  ∃ mst, prune_dead_end_pole_branches arbo pole_indices terminal_indices = Some mst ∧
    (∀ p, p ∈ nodes mst → p ∈ pole_indices →
       ∃ ds, descendants mst p = Some ds ∧
             ∃ t, t ∈ ds ∪ {[p]} ∧ t ∈ terminal_indices) ∧
    (∀ t, t ∈ nodes arbo → t ∈ terminal_indices → t ∈ nodes mst).
Proof.
  intros Hwf Hacyc Hheads.
  destruct (prune_spec pole_indices terminal_indices arbo Hwf)
    as (mst & Hrun & Hwf' & Hdl & Hsub & Hgone).
  exists mst. split_and!; [done| |].
  - intros p Hp Hpole.
    destruct (descendants_spec mst p Hwf' Hp) as (ds & Hds & Hspec).
    exists ds. split; [done|].
    destruct (pole_reaches_terminal pole_indices terminal_indices mst p)
      as (t & Ht & Hpt); [done| | |done..|].
    { by eapply induced_subgraph_acyclic. }
    { intros u v Huv. apply (Hheads u v). by eapply induced_subgraph_has_edge. }
    exists t. split; [|done]. destruct (decide (t = p)) as [->|Hne]; [set_solver|].
    apply elem_of_union_l, Hspec. by split.
  - intros t Ht Hterm. destruct (decide (t ∈ nodes mst)) as [?|Hout]; [done|].
    by destruct (Hgone t Ht Hout) as [_ []].
Qed.

Lemma pruned_poles_serve_a_terminal_witness :
  ∃ mst, prune_dead_end_pole_branches dead_branch_tree [2; 3; 4] [1] = Some mst ∧
    (∀ p, p ∈ nodes mst → p ∈ [2; 3; 4] →
       ∃ ds, descendants mst p = Some ds ∧ ∃ t, t ∈ ds ∪ {[p]} ∧ t ∈ [1]) ∧
    (∀ t, t ∈ nodes dead_branch_tree → t ∈ [1] → t ∈ nodes mst).
Proof.
  apply (pruned_poles_serve_a_terminal dead_branch_tree [2; 3; 4] [1]).
  - apply wf_dead_branch_tree.
  - apply (ranked_acyclic _ (λ n, match n with 0 => 0 | 1 => 3 | 4 => 2 | _ => 1 end)).
    intros e He. vm_compute in He.
    repeat (apply elem_of_cons in He as [->|He]; [simpl; lia|]).
    by apply not_elem_of_nil in He.
  - intros u v [a He]. vm_compute in He.
    repeat (apply elem_of_cons in He as [He|He]; [simplify_eq; set_solver|]).
    by apply not_elem_of_nil in He.
Defined.

(** C1, as stated, fails: in [stray_leaf_tree] the pole 1 stays although its
    descendant set [{0, 1}] holds no terminal, because its only leaf is not a
    pole and so is never looked at. *)
Lemma stray_leaf_keeps_dead_end_pole :
  prune_dead_end_pole_branches stray_leaf_tree [9; 1] [2] = Some stray_leaf_tree ∧
  1 ∈ nodes stray_leaf_tree ∧ 1 ∈ [9; 1] ∧
  (elements <$> descendants stray_leaf_tree 1) = Some [0] ∧
  ¬ (0 ∈ [2] ∨ 1 ∈ [2]).
Proof.
  split_and!; [by vm_compute|vm_compute; list_membership|list_membership
              |by vm_compute|set_solver].
Qed.

(** C7: the pruner returns, and run again on what it returned it returns
    the very same graph. *)
Theorem prune_idempotent (arbo : DiGraph) (pole_indices terminal_indices : list node) :
  wf arbo →
  ∃ mst, prune_dead_end_pole_branches arbo pole_indices terminal_indices = Some mst ∧
         prune_dead_end_pole_branches mst pole_indices terminal_indices = Some mst.
Proof.
  intros Hwf.
  destruct (prune_spec pole_indices terminal_indices arbo Hwf)
    as (mst & Hrun & Hwf' & Hdl & _).
  exists mst. split; [done|]. by apply prune_fixed_point.
Qed.

Lemma prune_idempotent_witness :
  ∃ mst, prune_dead_end_pole_branches dead_branch_tree [2; 3; 4] [1] = Some mst ∧
         prune_dead_end_pole_branches mst [2; 3; 4] [1] = Some mst.
Proof. apply (prune_idempotent dead_branch_tree [2; 3; 4] [1]), wf_dead_branch_tree. Defined.

(** C10: when no pole index is a terminal index, the descendant check at a
    leaf sees the leaf alone, and the pruner computes what the simpler
    algorithm computes: remove the poles of out-degree zero, again and again. *)
Theorem prune_is_prune_simple
    (arbo : DiGraph) (pole_indices terminal_indices : list node) :
  wf arbo → (∀ n, n ∈ pole_indices → n ∉ terminal_indices) →
  (∀ leaf, leaf ∈ nodes arbo → out_degree arbo leaf = 0 →
     descendants arbo leaf = Some ∅ ∧
     (leaf ∈ pole_indices → serves_terminal terminal_indices (∅ ∪ {[leaf]}) = false)) ∧
  prune_dead_end_pole_branches arbo pole_indices terminal_indices =
  Some (prune_simple arbo pole_indices).
Proof.
  intros Hwf Hdisj. split.
  - intros leaf Hleaf Hdeg. apply out_degree_0 in Hdeg. split.
    + by apply descendants_leaf.
    + intros Hp. rewrite serves_terminal_singleton.
      apply bool_decide_eq_false_2. by apply Hdisj.
  - apply prune_loop_simple; [done..|lia].
Qed.

Lemma prune_is_prune_simple_witness :
  (∀ leaf, leaf ∈ nodes dead_branch_tree → out_degree dead_branch_tree leaf = 0 →
     descendants dead_branch_tree leaf = Some ∅ ∧
     (leaf ∈ [2; 3; 4] → serves_terminal [1] (∅ ∪ {[leaf]}) = false)) ∧
  prune_dead_end_pole_branches dead_branch_tree [2; 3; 4] [1] =
  Some (prune_simple dead_branch_tree [2; 3; 4]).
Proof.
  apply (prune_is_prune_simple dead_branch_tree [2; 3; 4] [1]).
  - apply wf_dead_branch_tree.
  - intros n Hn. set_solver.
Defined.

(** * The graph builder *)

Lemma build_four_points :
  build_directed_graph_for_arborescence 0 [1] [2; 3] four_points ∅
  = Some four_points_graph.
Proof. by vm_compute. Qed.

Lemma build_far_source :
  build_directed_graph_for_arborescence 0 [1; 2] [3] far_source ∅
  = Some far_source_graph.
Proof. by vm_compute. Qed.

(** C2: every edge of the candidate graph is a service drop from a pole to
    a terminal, "low" and between 0.1 m (excluded) and 100 m long, or a span
    between poles or a trunk from the source to a pole, "high" and between
    0.1 m (excluded) and 150 m long; its length is not zero, and a pair whose
    matrix entries are zero has no edge. *)
Theorem candidate_edge_bounds
    (source_idx : node) (terminal_indices pole_indices : list node)
    (dist_matrix : list (list float)) (costs : gmap string float) (DG : DiGraph) :
  build_directed_graph_for_arborescence
    source_idx terminal_indices pole_indices dist_matrix costs = Some DG →
  ∀ u v a, (u, v, a) ∈ edges DG →
    ((u ∈ pole_indices ∧ v ∈ terminal_indices ∧ voltage a = "low" ∧
      (0.1 <? length_m a)%float = true ∧ (length_m a <=? 100)%float = true)
     ∨
     (((u ∈ pole_indices ∧ v ∈ pole_indices) ∨ (u = source_idx ∧ v ∈ pole_indices)) ∧
      voltage a = "high" ∧
      (0.1 <? length_m a)%float = true ∧ (length_m a <=? 150)%float = true)) ∧
    (length_m a =? 0)%float = false ∧
    ¬ (∃ d1 d2, matrix_get dist_matrix u v = Some d1 ∧ (d1 =? 0)%float = true ∧
                matrix_get dist_matrix v u = Some d2 ∧ (d2 =? 0)%float = true).
Proof.
  intros Hbuild u v a He.
  destruct (build_after_trunks _ _ _ _ _ _ Hbuild) as (_ & _ & Hall).
  destruct (Hall _ He) as [Hk|[[Hk _]|Hk]];
    unfold is_service_drop, is_pole_span, is_source_trunk in Hk; simpl in Hk;
    destruct Hk as (Hu & Hv & d & Hd & Hin & ->); simpl.
  - destruct (within_bounds _ _ _ Hin) as [? ?]. split_and!.
    + left. by split_and!.
    + destruct (d =? 0)%float eqn:E; [|done].
      by rewrite (zero_not_within d _ E) in Hin.
    + intros (d1 & d2 & Hd1 & E1 & _). simplify_eq.
      by rewrite (zero_not_within d _ E1) in Hin.
  - destruct (within_bounds _ _ _ Hin) as [? ?]. split_and!.
    + right. split_and!; [by left|done..].
    + destruct (d =? 0)%float eqn:E; [|done].
      by rewrite (zero_not_within d _ E) in Hin.
    + intros (d1 & d2 & Hd1 & E1 & Hd2 & E2).
      destruct Hd; simplify_eq.
      * by rewrite (zero_not_within d _ E1) in Hin.
      * by rewrite (zero_not_within d _ E2) in Hin.
  - destruct (within_bounds _ _ _ Hin) as [? ?]. split_and!.
    + right. split_and!; [by right|done..].
    + destruct (d =? 0)%float eqn:E; [|done].
      by rewrite (zero_not_within d _ E) in Hin.
    + intros (d1 & d2 & Hd1 & E1 & _). simplify_eq.
      by rewrite (zero_not_within d _ E1) in Hin.
Qed.

Lemma candidate_edge_bounds_witness :
  ((2 ∈ [2; 3] ∧ 1 ∈ [1] ∧ voltage (low_edge 50) = "low" ∧
    (0.1 <? length_m (low_edge 50))%float = true ∧
    (length_m (low_edge 50) <=? 100)%float = true)
   ∨
   (((2 ∈ [2; 3] ∧ 1 ∈ [2; 3]) ∨ (2 = 0 ∧ 1 ∈ [2; 3])) ∧
    voltage (low_edge 50) = "high" ∧
    (0.1 <? length_m (low_edge 50))%float = true ∧
    (length_m (low_edge 50) <=? 150)%float = true)) ∧
  (length_m (low_edge 50) =? 0)%float = false ∧
  ¬ (∃ d1 d2, matrix_get four_points 2 1 = Some d1 ∧ (d1 =? 0)%float = true ∧
              matrix_get four_points 1 2 = Some d2 ∧ (d2 =? 0)%float = true).
Proof.
  apply (candidate_edge_bounds 0 [1] [2; 3] four_points ∅ four_points_graph).
  - by vm_compute.
  - vm_compute. list_membership.
Defined.

(** C5: the weight of a service drop and of a source trunk is its length,
    the weight of a span between poles is its length plus 100; and the span
    in the other direction is in the graph with the same weight and length
    (unless that direction starts at the source, where the trunk loop, which
    runs last, may have written over it).  Each turn of the span loop that
    adds anything adds both directions with the same data. *)
Theorem candidate_edge_weights
    (source_idx : node) (terminal_indices pole_indices : list node)
    (dist_matrix : list (list float)) (costs : gmap string float) (DG : DiGraph) :
  build_directed_graph_for_arborescence
    source_idx terminal_indices pole_indices dist_matrix costs = Some DG →
  (∀ u v a, (u, v, a) ∈ edges DG →
    (u ∈ pole_indices ∧ v ∈ terminal_indices ∧ voltage a = "low" ∧
     weight a = length_m a)
    ∨
    (u = source_idx ∧ v ∈ pole_indices ∧ voltage a = "high" ∧
     weight a = length_m a)
    ∨
    (u ∈ pole_indices ∧ v ∈ pole_indices ∧ voltage a = "high" ∧
     weight a = (length_m a + 100)%float ∧
     (v ≠ source_idx → (v, u, a) ∈ edges DG))) ∧
  (∀ i j G G', pole_span pole_indices dist_matrix i j G = Some G' →
     G' = G ∨
     ∃ p1 p2 d, pole_indices !! i = Some p1 ∧ pole_indices !! j = Some p2 ∧
       matrix_get dist_matrix p1 p2 = Some d ∧
       (p1, p2, span_edge d) ∈ edges G' ∧ (p2, p1, span_edge d) ∈ edges G').
Proof.
  intros Hbuild. split; [|apply pole_span_both_directions]. intros u v a He.
  destruct (build_after_trunks _ _ _ _ _ _ Hbuild) as (_ & _ & Hall).
  destruct (Hall _ He) as [Hk|[[Hk Hrev]|Hk]];
    unfold is_service_drop, is_pole_span, is_source_trunk in Hk; simpl in Hk;
    destruct Hk as (Hu & Hv & d & Hd & Hin & ->); simpl.
  - left. by split_and!.
  - right; right. by split_and!.
  - right; left. by split_and!.
Qed.

Lemma candidate_edge_weights_witness :
  (2 ∈ [2; 3] ∧ 3 ∈ [1] ∧ voltage (span_edge 130) = "low" ∧
   weight (span_edge 130) = length_m (span_edge 130))
  ∨
  (2 = 0 ∧ 3 ∈ [2; 3] ∧ voltage (span_edge 130) = "high" ∧
   weight (span_edge 130) = length_m (span_edge 130))
  ∨
  (2 ∈ [2; 3] ∧ 3 ∈ [2; 3] ∧ voltage (span_edge 130) = "high" ∧
   weight (span_edge 130) = (length_m (span_edge 130) + 100)%float ∧
   (3 ≠ 0 → (3, 2, span_edge 130) ∈ edges four_points_graph)).
Proof.
  apply (candidate_edge_weights 0 [1] [2; 3] four_points ∅ four_points_graph).
  - by vm_compute.
  - vm_compute. list_membership.
Defined.

(** The candidate graph has the shape the pruner's guarantee asks for: its
    edges lead to poles and terminals only. *)
Lemma build_heads_classified
    (source_idx : node) (terminal_indices pole_indices : list node)
    (dist_matrix : list (list float)) (costs : gmap string float) (DG : DiGraph) :
  build_directed_graph_for_arborescence
    source_idx terminal_indices pole_indices dist_matrix costs = Some DG →
  heads_classified pole_indices terminal_indices DG.
Proof.
  intros Hbuild u v [a He].
  destruct (build_after_trunks _ _ _ _ _ _ Hbuild) as (_ & _ & Hall).
  destruct (Hall _ He) as [Hk|[[Hk _]|Hk]];
    unfold is_service_drop, is_pole_span, is_source_trunk in Hk; simpl in Hk; tauto.
Qed.

(** * The cost aggregator *)

Section aggregator_facts.
Variable round : float → nat → float.
Variables (extended_coords : list point) (names : gmap nat string).

Lemma collect_edge_totals es E l h E' l' h' :
  for_each es (collect_edge round extended_coords names) (E, l, h) = Some (E', l', h') →
  l' = foldl (λ acc e, (acc + length_m e.2)%float) l (filter is_low es) ∧
  h' = foldl (λ acc e, (acc + length_m e.2)%float) h (filter (λ e, ¬ is_low e) es).
Proof.
  revert E l h. induction es as [|[[u v] data] es IH]; intros E l h; simpl.
  - by intros [= <- <- <-].
  - destruct (extended_coords !! u) as [cu|]; [simpl|done].
    destruct (extended_coords !! v) as [cv|]; [simpl|done].
    destruct (decide (voltage data = "low")) as [Hlow|Hlow].
    + rewrite bool_decide_eq_true_2 by done. simpl. intros Hrun.
      apply IH in Hrun as [-> ->].
      rewrite (filter_cons_True is_low) by done.
      by rewrite (filter_cons_False (λ e, ¬ is_low e)) by (by intros []).
    + rewrite bool_decide_eq_false_2 by done. simpl. intros Hrun.
      apply IH in Hrun as [-> ->].
      rewrite (filter_cons_False is_low) by done.
      by rewrite (filter_cons_True (λ e, ¬ is_low e)) by done.
Qed.

Lemma collect_edge_returns es st :
  (∀ e, e ∈ es → e.1.1 < length extended_coords ∧ e.1.2 < length extended_coords) →
  is_Some (for_each es (collect_edge round extended_coords names) st).
Proof.
  intros Hes.
  destruct (for_each_is_Some (λ _, True) es
              (collect_edge round extended_coords names) st) as (st' & ? & _);
    [|done|by eauto].
  intros [[u v] data] [[E l] h] He _. destruct (Hes _ He) as [Hu Hv]. simpl in Hu, Hv.
  destruct (lookup_lt_is_Some_2 extended_coords u Hu) as [cu Hcu].
  destruct (lookup_lt_is_Some_2 extended_coords v Hv) as [cv Hcv].
  unfold collect_edge. rewrite Hcu, Hcv. simpl.
  case_bool_decide; eauto.
Qed.
End aggregator_facts.

Lemma elem_of_used_nodes (mst : DiGraph) (i : node) :
  i ∈ used_nodes mst ↔ ∃ e, e ∈ edges mst ∧ (i = e.1.1 ∨ i = e.1.2).
Proof.
  unfold used_nodes.
  rewrite elem_of_union, !elem_of_list_to_set, !list_elem_of_fmap. naive_solver.
Qed.

(** C6: on a pruned tree whose edges join rows of the coordinate array, the
    second half of [compute_mst] returns, and in what it returns the low
    total is the rounded sum of the lengths of the "low" edges, the high total
    the rounded sum of the lengths of all others, [numPolesUsed] the number of
    pole indices that are an end point of an edge, and the total cost the
    rounded [poles * pole_cost + (low * low_rate + high * high_rate)] on the
    sums before rounding, where each rate is the value the cost map has
    under its key, and 1500, 8 and 25 for a key the map lacks; the number of
    poles enters the product as the float nearest to it. *)
Theorem cost_totals
    (round : float → nat → float)
    (mst : DiGraph) (coords candidates extended_coords : list point)
    (pole_indices : list node) (pole_start_idx : nat) (source_idx : node)
    (original_names : list string) (costs : gmap string float) (debug : bool) :
  (∀ e, e ∈ edges mst →
        e.1.1 < length extended_coords ∧ e.1.2 < length extended_coords) →
  ∃ r, extract_result round mst coords candidates extended_coords pole_indices
         pole_start_idx source_idx original_names costs debug = Some r ∧
    let low := total_length (filter is_low (edges mst)) in
    let high := total_length (filter (λ e, ¬ is_low e) (edges mst)) in
    let poles_used := of_uint63 (Uint63.of_Z (Z.of_nat (numPolesUsed r))) in
    totalLowVoltageMeters r = round low 2 ∧
    totalHighVoltageMeters r = round high 2 ∧
    numPolesUsed r =
      length (filter (λ i, i ∈ used_nodes mst) pole_indices) ∧
    (∀ i, i ∈ used_nodes mst ↔ ∃ e, e ∈ edges mst ∧ (i = e.1.1 ∨ i = e.1.2)) ∧
    totalCostEstimate r =
      round (poles_used * default 1500 (costs !! "poleCost")
             + (low * default 8 (costs !! "lowVoltageCostPerMeter")
                + high * default 25 (costs !! "highVoltageCostPerMeter")))%float 2 ∧
    ((Z.of_nat (numPolesUsed r) < 2 ^ 63)%Z →
       Prim2SF poles_used =
       SpecFloat.binary_normalize prec emax (Z.of_nat (numPolesUsed r)) 0 false).
Proof.
  intros Hrange. unfold extract_result.
  destruct (collect_edge_returns round extended_coords
              (node_names original_names (used_pole_indices mst pole_indices))
              (edges mst) ([], 0%float, 0%float) Hrange) as [[[E l] h] Hrun].
  rewrite Hrun. simpl.
  apply collect_edge_totals in Hrun as [-> ->].
  assert (is_Some (if debug
    then Some (imap (λ i coord,
           {| index := i; node_lat := coord.1; node_lng := coord.2;
              node_name := "Candidate " +:+ pretty i; type := "pole" |})
           extended_coords)
    else mapM (λ i,
           c ← extended_coords !! i;
           Some {| index := i; node_lat := c.1; node_lng := c.2;
                   node_name := default ("Unused " +:+ pretty i)
                     (node_names original_names
                        (used_pole_indices mst pole_indices) !! i);
                   type := if bool_decide (i = source_idx) then "source"
                           else if bool_decide (i < pole_start_idx) then "terminal"
                           else "pole" |})
         (merge_sort (≤) (elements (used_nodes mst))))) as [ns Hns].
  { destruct debug; [by eauto|]. apply mapM_is_Some, Forall_forall.
    intros i Hi. rewrite merge_sort_Permutation, elem_of_elements in Hi.
    apply elem_of_used_nodes in Hi as (e & He & Hi).
    destruct (Hrange e He) as [? ?].
    destruct (lookup_lt_is_Some_2 extended_coords i) as [c Hc]; [naive_solver lia|].
    simpl. rewrite Hc. by eauto. }
  rewrite Hns. simpl. eexists. split; [done|]. simpl.
  split_and!; [done..|apply elem_of_used_nodes|done|].
  intros Hsmall. rewrite of_uint63_spec, Uint63.of_Z_spec.
  rewrite Z.mod_small; [done|]. split; [lia|exact Hsmall].
Qed.

Lemma cost_totals_witness :
  ∃ r, extract_result no_rounding served_tree (take 2 five_coords)
         (drop 2 five_coords) five_coords [2; 3; 4] 2 0
         ["Power Source"; "House"] {[ "poleCost" := 1200%float ]} false = Some r ∧
    let costs : gmap string float := {[ "poleCost" := 1200%float ]} in
    let low := total_length (filter is_low (edges served_tree)) in
    let high := total_length (filter (λ e, ¬ is_low e) (edges served_tree)) in
    let poles_used := of_uint63 (Uint63.of_Z (Z.of_nat (numPolesUsed r))) in
    totalLowVoltageMeters r = no_rounding low 2 ∧
    totalHighVoltageMeters r = no_rounding high 2 ∧
    numPolesUsed r =
      length (filter (λ i, i ∈ used_nodes served_tree) [2; 3; 4]) ∧
    (∀ i, i ∈ used_nodes served_tree ↔
          ∃ e, e ∈ edges served_tree ∧ (i = e.1.1 ∨ i = e.1.2)) ∧
    totalCostEstimate r =
      no_rounding (poles_used * default 1500 (costs !! "poleCost")
             + (low * default 8 (costs !! "lowVoltageCostPerMeter")
                + high * default 25 (costs !! "highVoltageCostPerMeter")))%float 2 ∧
    ((Z.of_nat (numPolesUsed r) < 2 ^ 63)%Z →
       Prim2SF poles_used =
       SpecFloat.binary_normalize prec emax (Z.of_nat (numPolesUsed r)) 0 false).
Proof.
  apply (cost_totals no_rounding served_tree (take 2 five_coords)
           (drop 2 five_coords) five_coords [2; 3; 4] 2 0
           ["Power Source"; "House"] {[ "poleCost" := 1200%float ]} false).
  intros e He. vm_compute in He.
  repeat (apply elem_of_cons in He as [->|He]; [vm_compute; lia|]).
  by apply not_elem_of_nil in He.
Defined.

(** The totals of [served_tree]: with the default rates, and with a pole
    cost of 1200 given in the request. *)
Example served_tree_priced :
  fmap (M := option)
    (λ r, (totalLowVoltageMeters r, totalHighVoltageMeters r, numPolesUsed r,
           totalCostEstimate r))
    (extract_result no_rounding served_tree (take 2 five_coords)
       (drop 2 five_coords) five_coords [2; 3; 4] 2 0 ["Power Source"; "House"]
       {[ "poleCost" := 1200%float ]} false)
  = Some (50%float, 120%float, 1, (1200 + (50 * 8 + 120 * 25))%float).
Proof. by vm_compute. Qed.

Example served_tree_totals :
  fmap (M := option)
    (λ r, (totalLowVoltageMeters r, totalHighVoltageMeters r, numPolesUsed r,
           totalCostEstimate r))
    (extract_result no_rounding served_tree (take 2 five_coords)
       (drop 2 five_coords) five_coords [2; 3; 4] 2 0 ["Power Source"; "House"] ∅ false)
  = Some (50%float, 120%float, 1, (1500 + (50 * 8 + 120 * 25))%float).
Proof. by vm_compute. Qed.

(** * Nodes out of the source's reach *)

(** A tree with the nodes of the candidate graph keeps, through pruning,
    every terminal of the candidate graph, and gains no node. *)
Lemma spanning_tree_pruned (DG arbo : DiGraph) (pole_indices terminal_indices : list node) :
  wf arbo → (∀ n, n ∈ nodes arbo ↔ n ∈ nodes DG) →
  ∃ mst, prune_dead_end_pole_branches arbo pole_indices terminal_indices = Some mst ∧
    (∀ n, n ∈ nodes mst → n ∈ nodes DG) ∧
    (∀ t, t ∈ nodes DG → t ∈ terminal_indices → t ∈ nodes mst).
Proof.
  intros Hwf Hspan.
  destruct (prune_spec pole_indices terminal_indices arbo Hwf)
    as (mst & Hrun & _ & _ & [Hsub _] & Hgone).
  exists mst. split_and!; [done| |].
  - intros n Hn. by apply Hspan, Hsub.
  - intros t Ht Hterm. destruct (decide (t ∈ nodes mst)) as [?|Hout]; [done|].
    apply Hspan in Ht. by destruct (Hgone t Ht Hout) as [_ []].
Qed.

Lemma far_source_in_range : indices_in_range 0 [1; 2] [3] far_source.
Proof.
  intros i j Hi Hj.
  repeat (apply elem_of_cons in Hi as [->|Hi]);
    try (by apply not_elem_of_nil in Hi);
    repeat (apply elem_of_cons in Hj as [->|Hj]);
    try (by apply not_elem_of_nil in Hj); vm_compute; by eexists.
Qed.

(** C3, as stated, fails: with [far_source] the candidate graph is the one
    edge from pole 3 to terminal 2.  Terminal 1, which no admissible edge
    touches, is absent; but the source is not a node either, so no path leads
    from the source to terminal 2, and yet terminal 2 is in the pruned tree
    of every tree that spans the candidate graph. *)
Lemma far_source_terminal_stays :
  build_directed_graph_for_arborescence 0 [1; 2] [3] far_source ∅
    = Some far_source_graph ∧
  2 ∈ nodes far_source_graph ∧ (0 ∉ nodes far_source_graph) ∧
  ¬ rtc (has_edge far_source_graph) 0 2 ∧
  ∀ arbo, wf arbo → (∀ n, n ∈ nodes arbo ↔ n ∈ nodes far_source_graph) →
    ∃ mst, prune_dead_end_pole_branches arbo [3] [1; 2] = Some mst ∧ 2 ∈ nodes mst.
Proof.
  split_and!.
  - by vm_compute.
  - vm_compute. list_membership.
  - vm_compute. set_solver.
  - intros [?|(y & [a He] & _)]%rtc_inv; [done|]. vm_compute in He.
    repeat (apply elem_of_cons in He as [He|He]; [done|]).
    by apply not_elem_of_nil in He.
  - intros arbo Hwf Hspan.
    destruct (spanning_tree_pruned far_source_graph arbo [3] [1; 2] Hwf Hspan)
      as (mst & ? & _ & Hkeep).
    exists mst. split; [done|]. apply Hkeep; [vm_compute|]; list_membership.
Qed.

(** * A candidate graph without edges *)

(** C4: a candidate graph without edge has no node either, the source
    included, so a tree over it has no node; and without poles the builder
    always returns that graph. *)
Theorem candidate_graph_without_edges
    (source_idx : node) (terminal_indices pole_indices : list node)
    (dist_matrix : list (list float)) (costs : gmap string float) (DG : DiGraph) :
  build_directed_graph_for_arborescence
    source_idx terminal_indices pole_indices dist_matrix costs = Some DG →
  edges DG = [] →
  DG = empty ∧ (source_idx ∉ nodes DG) ∧
  (∀ arbo, (∀ n, n ∈ nodes arbo → n ∈ nodes DG) → arbo = empty) ∧
  build_directed_graph_for_arborescence
    source_idx terminal_indices [] dist_matrix costs = Some empty.
Proof.
  intros Hbuild Hedges.
  destruct (build_after_trunks _ _ _ _ _ _ Hbuild) as (_ & Hiso & _).
  assert (DG = empty) as ->.
  { destruct DG as [|[n s] DG]; [done|]. exfalso.
    destruct (Hiso n) as (e & He & _); [by left|].
    rewrite Hedges in He. by apply not_elem_of_nil in He. }
  split_and!; [done|by apply not_elem_of_nil| |done].
  intros [|[n s] arbo] Hsub; [done|]. exfalso.
  apply (not_elem_of_nil n), Hsub. by left.
Qed.

Lemma candidate_graph_without_edges_witness :
  ([] : DiGraph) = empty ∧ (0 ∉ nodes []) ∧
  (∀ arbo, (∀ n, n ∈ nodes arbo → n ∈ nodes []) → arbo = empty) ∧
  build_directed_graph_for_arborescence 0 [1] [] two_points ∅ = Some empty.
Proof.
  apply (candidate_graph_without_edges 0 [1] [] two_points ∅ []); by vm_compute.
Defined.

(** * The candidate generators *)

Section candidate_facts.
Variable great_circle : point → point → float.
Variable Voronoi_vertices : list point → option (list point).
Variable Delaunay_simplices : list point → option (list (list nat)).
Variable np_partition : list float → nat → list float.
Variable np_argsort : list float → list nat.

Local Abbreviation separated := (pairwise_separated great_circle).

Lemma separated_short out : length out ≤ 1 → separated out.
Proof.
  intros Hlen i j p q Hij _ Hj. apply lookup_lt_Some in Hj. lia.
Qed.

Lemma keep_if_separated_inv kept pt :
  separated kept → separated (keep_if_separated great_circle kept pt).
Proof.
  intros Hkept. unfold keep_if_separated.
  case_bool_decide; [apply separated_short; simpl; lia|].
  simpl. destruct (forallb _ _) eqn:Hall; [|done].
  intros i j p q Hij Hi Hj.
  destruct (decide (j < length kept)) as [Hlt|Hge].
  - rewrite lookup_app_l in Hi, Hj by lia. by apply (Hkept i j p q).
  - pose proof (lookup_lt_Some _ _ _ Hj) as Hj'.
    rewrite length_app in Hj'. simpl in Hj'.
    assert (j = length kept) as -> by lia.
    rewrite lookup_app_l in Hi by lia.
    rewrite list_lookup_middle in Hj by done. simplify_eq.
    rewrite forallb_forall in Hall. apply Hall.
    apply list_elem_of_In, list_elem_of_fmap. exists p. split; [done|].
    by eapply list_elem_of_lookup_2.
Qed.

Lemma greedy_separated candidates kept :
  separated kept → separated (foldl (keep_if_separated great_circle) kept candidates).
Proof.
  revert kept. induction candidates as [|pt cs IH]; intros kept Hkept; [done|].
  simpl. by apply IH, keep_if_separated_inv.
Qed.

Lemma separation_filter_separated candidates out :
  separation_filter great_circle np_argsort candidates = Some out → separated out.
Proof.
  unfold separation_filter.
  destruct (take_rows _ _) as [sorted|]; [simpl|done]. intros [= <-].
  apply greedy_separated, separated_short. simpl. lia.
Qed.
End candidate_facts.

(** C8: what either generator returns is pairwise separated by at least
    10 m, and on fewer than three points both return no candidate. *)
Theorem candidates_separated
    (great_circle : point → point → float)
    (Voronoi_vertices : list point → option (list point))
    (Delaunay_simplices : list point → option (list (list nat)))
    (np_partition : list float → nat → list float)
    (np_argsort : list float → list nat) (coords : list point) :
  (∀ out, generate_voronoi_candidates great_circle Voronoi_vertices np_partition
            np_argsort coords = Some out →
          pairwise_separated great_circle out) ∧
  (∀ max_candidates out,
      generate_fermat_candidates great_circle Delaunay_simplices np_argsort
        coords max_candidates = Some out →
      pairwise_separated great_circle out) ∧
  (length coords < 3 →
     generate_voronoi_candidates great_circle Voronoi_vertices np_partition
       np_argsort coords = Some [] ∧
     ∀ max_candidates,
       generate_fermat_candidates great_circle Delaunay_simplices np_argsort
         coords max_candidates = Some []).
Proof.
  split_and!.
  - intros out. unfold generate_voronoi_candidates.
    case_bool_decide; [intros [= <-]; apply separated_short; simpl; lia|].
    destruct (Voronoi_vertices coords) as [verts|]; [simpl|done].
    case_bool_decide; [intros [= <-]; apply separated_short; simpl; lia|].
    destruct (mapM _ _) as [nearest|]; [simpl|done].
    case_bool_decide as Hempty; [intros [= <-]; apply separated_short; simpl; lia|].
    case_bool_decide; [intros [= <-]; apply separated_short; simpl; lia|].
    apply separation_filter_separated.
  - intros max_candidates out. unfold generate_fermat_candidates.
    case_bool_decide; [intros [= <-]; apply separated_short; simpl; lia|].
    destruct (Delaunay_simplices coords) as [simplices|]; [simpl|done].
    destruct (for_each _ _ _) as [candidates|]; [simpl|done].
    case_bool_decide; [intros [= <-]; apply separated_short; simpl; lia|].
    case_bool_decide; [apply separation_filter_separated|].
    intros [= <-]. apply separated_short. lia.
  - intros Hlen. unfold generate_voronoi_candidates, generate_fermat_candidates.
    by rewrite !bool_decide_eq_true_2 by done.
Qed.

(** C9, as amended: the Voronoi strategy concludes with the rounding-based
    removal of duplicates and then the latitude-sorted greedy filter, both
    applied to vertices of the diagram; the Fermat strategy concludes with the
    greedy filter alone, applied to the Fermat points as they are: they are
    neither rounded nor deduplicated. *)
Theorem candidates_post_processing
    (great_circle : point → point → float)
    (Voronoi_vertices : list point → option (list point))
    (Delaunay_simplices : list point → option (list (list nat)))
    (np_partition : list float → nat → list float)
    (np_argsort : list float → list nat) (coords : list point) :
  (∀ out, generate_voronoi_candidates great_circle Voronoi_vertices np_partition
            np_argsort coords = Some out →
     ∃ raw, (∀ p, p ∈ raw → ∃ verts, Voronoi_vertices coords = Some verts ∧ p ∈ verts) ∧
            finish_separated great_circle np_argsort (dedup_rounded raw) = Some out) ∧
  (∀ max_candidates out,
     generate_fermat_candidates great_circle Delaunay_simplices np_argsort
       coords max_candidates = Some out →
     ∃ raw, (∀ p, p ∈ raw → ∃ simplex pts, take_rows coords simplex = Some pts ∧
                                 fermat_torricelli_point pts = Some p) ∧
            finish_separated great_circle np_argsort raw = Some out).
Proof.
  split.
  - intros out. unfold generate_voronoi_candidates.
    case_bool_decide.
    { intros [= <-]. exists []. split; [by intros ? ?%not_elem_of_nil|done]. }
    destruct (Voronoi_vertices coords) as [verts|] eqn:Hverts; [simpl|done].
    case_bool_decide.
    { intros [= <-]. exists []. split; [by intros ? ?%not_elem_of_nil|done]. }
    destruct (mapM _ _) as [nearest|]; [simpl|done].
    set (raw := (filter _ (zip verts _)).*1).
    assert (∀ p, p ∈ raw → ∃ vs, Some verts = Some vs ∧ p ∈ vs) as Hraw.
    { intros p Hp. exists verts. split; [done|].
      apply list_elem_of_fmap in Hp as ([p' m] & -> & Hp).
      apply list_elem_of_filter in Hp as [_ Hp]. by apply elem_of_zip_l in Hp. }
    case_bool_decide as Hempty.
    { intros [= <-]. exists []. split; [by intros ? ?%not_elem_of_nil|].
      apply nil_length_inv in Hempty. by rewrite Hempty. }
    fold (dedup_rounded raw). unfold finish_separated.
    case_bool_decide.
    + intros [= <-]. exists raw. split; [done|].
      by rewrite bool_decide_eq_false_2 by lia.
    + intros Hout. exists raw. split; [done|].
      by rewrite bool_decide_eq_true_2 by lia.
  - intros max_candidates out. unfold generate_fermat_candidates.
    case_bool_decide.
    { intros [= <-]. exists []. split; [by intros ? ?%not_elem_of_nil|done]. }
    destruct (Delaunay_simplices coords) as [simplices|]; [simpl|done].
    destruct (for_each _ _ _) as [raw|] eqn:Hloop; [simpl|done].
    assert (∀ p, p ∈ raw → ∃ simplex pts, take_rows coords simplex = Some pts ∧
                                 fermat_torricelli_point pts = Some p) as Hraw.
    { revert Hloop.
      apply (for_each_inv (λ cs : list point, ∀ p, p ∈ cs →
               ∃ simplex pts, take_rows coords simplex = Some pts ∧
                              fermat_torricelli_point pts = Some p));
        [|by intros ? ?%not_elem_of_nil].
      intros simplex cs cs' _ Hcs. case_bool_decide; [by intros [= <-]|].
      destruct (take_rows coords simplex) as [pts|] eqn:Hpts; [simpl|done].
      destruct (fermat_torricelli_point pts) as [pt|] eqn:Hpt; [simpl|done].
      intros [= <-] p [Hp|Hp]%elem_of_app; [by apply Hcs|].
      apply list_elem_of_singleton in Hp as ->. eauto. }
    unfold finish_separated. case_bool_decide as Hempty.
    { intros [= <-]. exists []. split; [by intros ? ?%not_elem_of_nil|done]. }
    intros Hout. by exists raw.
Qed.

(** C9, as stated, fails for the Fermat strategy: the one candidate of
    [obtuse_triangle] is returned with all its decimals, where rounding to 6
    decimals first would have returned another row. *)
Lemma fermat_candidates_not_rounded :
  generate_fermat_candidates no_distance one_triangle argsort obtuse_triangle 100
    = Some [(10.12345678, 20)%float] ∧
  fermat_torricelli_point obtuse_triangle = Some (10.12345678, 20)%float ∧
  finish_separated no_distance argsort (dedup_rounded [(10.12345678, 20)%float])
    = Some [(10.123457, 20)%float] ∧
  row_eqb (10.12345678, 20)%float (10.123457, 20)%float = false.
Proof. split_and!; by vm_compute. Qed.

(** * Further properties of the builder and the pruner *)

(** X1: the pruner returns on every graph (the loop ends), and what it
    returns is the input restricted to the nodes that are left: no node and
    no edge is new, an edge between two nodes that are left is kept with its
    data, only pole indices that are no terminal indices have gone, and no
    leaf of the result is one of those. *)
Theorem pruner_returns_induced_subgraph
    (arbo : DiGraph) (pole_indices terminal_indices : list node) :
  wf arbo →
  ∃ mst, prune_dead_end_pole_branches arbo pole_indices terminal_indices = Some mst ∧
    wf mst ∧ induced_subgraph arbo mst ∧
    (∀ n, n ∈ nodes arbo → n ∉ nodes mst →
          n ∈ pole_indices ∧ (n ∉ terminal_indices)) ∧
    (∀ n, n ∈ nodes mst → out_degree mst n = 0 →
          ¬ (n ∈ pole_indices ∧ (n ∉ terminal_indices))).
Proof.
  intros Hwf.
  destruct (prune_spec pole_indices terminal_indices arbo Hwf)
    as (mst & Hrun & Hwf' & Hdl & Hsub & Hgone).
  exists mst. split_and!; [done..|].
  intros n Hn Hdeg Hdead.
  eapply (filter_nil_not_elem_of _ _ n Hdl); [done|].
  apply elem_of_leaves. split; [done|]. by apply out_degree_0.
Qed.

Lemma pruner_returns_induced_subgraph_witness :
  ∃ mst, prune_dead_end_pole_branches dead_branch_tree [2; 3; 4] [1] = Some mst ∧
    wf mst ∧ induced_subgraph dead_branch_tree mst ∧
    (∀ n, n ∈ nodes dead_branch_tree → n ∉ nodes mst →
          n ∈ [2; 3; 4] ∧ (n ∉ [1])) ∧
    (∀ n, n ∈ nodes mst → out_degree mst n = 0 → ¬ (n ∈ [2; 3; 4] ∧ (n ∉ [1]))).
Proof.
  apply (pruner_returns_induced_subgraph dead_branch_tree [2; 3; 4] [1]).
  apply wf_dead_branch_tree.
Defined.

Example prune_dead_branch_tree :
  prune_dead_end_pole_branches dead_branch_tree [2; 3; 4] [1] = Some served_tree.
Proof. by vm_compute. Qed.

(** X2: every edge of the candidate graph leaves a pole or the source and
    leads to a pole or a terminal; so no edge leaves a node that is a
    terminal only, and when the source is neither listed as pole nor as
    terminal no edge leads into it. *)
Theorem candidate_edges_directed
    (source_idx : node) (terminal_indices pole_indices : list node)
    (dist_matrix : list (list float)) (costs : gmap string float) (DG : DiGraph) :
  build_directed_graph_for_arborescence
    source_idx terminal_indices pole_indices dist_matrix costs = Some DG →
  ∀ u v a, (u, v, a) ∈ edges DG →
    (u ∈ pole_indices ∨ u = source_idx) ∧
    (v ∈ pole_indices ∨ v ∈ terminal_indices) ∧
    (source_idx ∉ pole_indices → source_idx ∉ terminal_indices → v ≠ source_idx).
Proof.
  intros Hbuild u v a He.
  destruct (build_after_trunks _ _ _ _ _ _ Hbuild) as (_ & _ & Hall).
  destruct (Hall _ He) as [Hk|[[Hk _]|Hk]];
    unfold is_service_drop, is_pole_span, is_source_trunk in Hk; simpl in Hk;
    destruct Hk as (Hu & Hv & _); split_and!; try tauto;
    intros ?? ->; tauto.
Qed.

Lemma candidate_edges_directed_witness :
  (0 ∈ [2; 3] ∨ 0 = 0) ∧ (3 ∈ [2; 3] ∨ 3 ∈ [1]) ∧
  (0 ∉ [2; 3] → 0 ∉ [1] → 3 ≠ 0).
Proof.
  apply (candidate_edges_directed 0 [1] [2; 3] four_points ∅ four_points_graph)
    with (a := trunk_edge 20).
  - by vm_compute.
  - vm_compute. list_membership.
Defined.

(** X3: on indices inside the matrix the builder raises nothing, and the
    graph it returns is a well-formed adjacency structure in which every
    node is an end point of an edge. *)
Theorem builder_returns
    (source_idx : node) (terminal_indices pole_indices : list node)
    (dist_matrix : list (list float)) (costs : gmap string float) :
  indices_in_range source_idx terminal_indices pole_indices dist_matrix →
  ∃ DG, build_directed_graph_for_arborescence
          source_idx terminal_indices pole_indices dist_matrix costs = Some DG ∧
        wf DG ∧ no_isolated_node DG.
Proof.
  intros Hrange.
  destruct (build_returns source_idx terminal_indices pole_indices dist_matrix costs
              Hrange) as [DG Hbuild].
  exists DG. split; [done|].
  by destruct (build_after_trunks _ _ _ _ _ _ Hbuild) as (? & ? & _).
Qed.

Lemma builder_returns_witness :
  ∃ DG, build_directed_graph_for_arborescence 0 [1; 2] [3] far_source ∅ = Some DG ∧
        wf DG ∧ no_isolated_node DG.
Proof. apply (builder_returns 0 [1; 2] [3] far_source ∅), far_source_in_range. Defined.

(** X5: the index lists [compute_mst] works with are disjoint:
    [parse_input] lists as terminals the rows of the coordinate array other
    than the source, and the poles are numbered from the end of that array. *)
Theorem pole_and_terminal_indices_disjoint
    (n_coords n_total : nat) (source_idx p : node) :
  p ∈ py_range n_coords n_total → p ∉ terminal_indices_of n_coords source_idx.
Proof.
  unfold terminal_indices_of, py_range.
  intros Hp [_ Ht]%list_elem_of_filter. apply elem_of_seq in Hp, Ht. lia.
Qed.

Lemma pole_and_terminal_indices_disjoint_witness : 3 ∉ terminal_indices_of 3 0.
Proof.
  apply (pole_and_terminal_indices_disjoint 3 5 0 3).
  vm_compute. list_membership.
Defined.

(** * More about the pruner: what is above a node that stays, stays *)

Ltac concrete_wf G :=
  split;
  [ vm_compute; repeat (apply NoDup_cons; split; [set_solver|]); apply NoDup_nil_2
  | let u := fresh "u" in let s := fresh "s" in let Hus := fresh "Hus" in
    intros u s Hus; unfold G in Hus;
    repeat (apply elem_of_cons in Hus as [Hus|Hus]; [simplify_eq; split;
      [vm_compute; repeat (apply NoDup_cons; split; [set_solver|]); apply NoDup_nil_2
      |vm_compute; set_solver]|]);
    by apply not_elem_of_nil in Hus ].

Lemma wf_served_tree : wf served_tree.
Proof. concrete_wf served_tree. Qed.

Section prune_more.
Variables (pole_indices terminal_indices : list node).
Implicit Types (G : DiGraph) (n : node).

Local Abbreviation dead := (dead_end pole_indices terminal_indices).

Lemma dead_leaves_nil G :
  dead_leaves pole_indices terminal_indices G = [] ↔
  ∀ n, n ∈ nodes G → out_degree G n = 0 → ¬ dead n.
Proof.
  unfold dead_leaves, leaves. split.
  - intros E n Hn Hdeg Hd.
    assert (n ∈ filter dead (filter (λ n, out_degree G n = 0) (nodes G))) as Hin.
    { apply list_elem_of_filter. split; [done|]. by apply list_elem_of_filter. }
    rewrite E in Hin. by apply not_elem_of_nil in Hin.
  - intros H. apply elem_of_nil_inv. intros n.
    rewrite !list_elem_of_filter. intros (Hd & Hdeg & Hn). by eapply H.
Qed.

(** Taking leaves away takes away no start of an edge into a node that stays. *)
Lemma remove_leaves_closed ls G u v :
  wf G → (∀ l, l ∈ ls → adj G l = []) →
  has_edge G u v → v ∈ nodes (remove_nodes ls G) → u ∈ nodes (remove_nodes ls G).
Proof.
  intros HG Hls Huv. rewrite !elem_of_nodes_remove_nodes. intros [Hv _].
  destruct Huv as [a Ha]. split; [|by apply (edge_endpoints G u v a)].
  intros Hu. apply Hls in Hu.
  assert (v ∈ successors G u) as Hs by (apply has_edge_successors; [done|by exists a]).
  unfold successors in Hs. rewrite Hu in Hs. by apply not_elem_of_nil in Hs.
Qed.

Lemma prune_loop_closed turns G G' :
  wf G → length G < turns →
  prune_loop pole_indices terminal_indices turns G = Some G' →
  ∀ u v, has_edge G u v → v ∈ nodes G' → u ∈ nodes G'.
Proof.
  revert G. induction turns as [|turns IH]; intros G HG Hlen; [lia|].
  cbn [prune_loop]. rewrite prune_pass_spec by apply HG.
  destruct (decide (dead_leaves pole_indices terminal_indices G = [])) as [E|E].
  - rewrite bool_decide_eq_false_2 by (by intros ?). rewrite E. simpl.
    intros [= <-] u v [a Ha] _. by apply (edge_endpoints G u v a).
  - rewrite bool_decide_eq_true_2 by done.
    set (G1 := remove_nodes (dead_leaves pole_indices terminal_indices G) G).
    intros Hrun u v Huv Hv.
    assert (wf G1) as HG1 by (by apply wf_remove_nodes).
    assert (length G1 < turns) as Hlen1.
    { pose proof (length_remove_dead_leaves pole_indices terminal_indices G E).
      unfold G1. lia. }
    destruct (prune_loop_spec pole_indices terminal_indices turns G1)
      as (G'' & Hrun' & _ & _ & Hsub & _); [done..|].
    rewrite Hrun in Hrun'. injection Hrun' as <-.
    assert (v ∈ nodes G1) as Hv1 by (by apply Hsub).
    assert (u ∈ nodes G1) as Hu1.
    { eapply remove_leaves_closed; [done| |done..].
      intros l Hl. unfold dead_leaves in Hl.
      by apply list_elem_of_filter in Hl as [_ [_ ?]%elem_of_leaves]. }
    apply (IH G1 HG1 Hlen1 Hrun u v); [|done].
    destruct Huv as [a Ha]. exists a.
    by apply (induced_subgraph_remove_nodes _ G HG).
Qed.

(** A path to a node that stays, stays. *)
Lemma induced_subgraph_path G G' u v :
  wf G' → induced_subgraph G G' →
  (∀ u v, has_edge G u v → v ∈ nodes G' → u ∈ nodes G') →
  rtc (has_edge G) u v → v ∈ nodes G' →
  u ∈ nodes G' ∧ rtc (has_edge G') u v.
Proof.
  intros HG' Hsub Hclosed Hpath Hv.
  induction Hpath as [u|u w v Huw _ IH]; [done|].
  destruct (IH Hv) as [Hw Hwv].
  assert (u ∈ nodes G') as Hu by (by eapply Hclosed).
  split; [done|]. eapply rtc_l; [|done].
  destruct Huw as [a Ha]. exists a. by apply Hsub.
Qed.

Lemma induced_subgraph_rtc G G' u v :
  induced_subgraph G G' → rtc (has_edge G') u v → rtc (has_edge G) u v.
Proof.
  intros Hsub. induction 1 as [|u w v Huw _ IH]; [done|].
  eapply rtc_l; [|done]. by eapply induced_subgraph_has_edge.
Qed.

(** In a graph without cycle every node leads to a leaf. *)
Lemma acyclic_reaches_leaf G n :
  wf G → acyclic G → n ∈ nodes G →
  ∃ l, rtc (has_edge G) n l ∧ l ∈ nodes G ∧ adj G l = [].
Proof.
  intros HG Hac Hn. pose proof (acyclic_sn G n HG Hac) as Hsn.
  induction Hsn as [n _ IH].
  destruct (adj G n) as [|[v a] s] eqn:E.
  - by exists n.
  - assert (has_edge G n v) as Hnv.
    { apply has_edge_successors; [done|]. unfold successors. rewrite E. by left. }
    destruct (IH v Hnv) as (l & Hvl & Hl & Hadj).
    { destruct Hnv as [b Hb]. by apply (edge_endpoints G n v b). }
    exists l. split; [by eapply rtc_l|done].
Qed.
End prune_more.

(** X6: pruning takes no node away from above a node that stays: the start
    of every edge into a kept node is kept, and so is every path that
    leads to a kept node, edge by edge. *)
Theorem pruning_keeps_ancestors
    (arbo : DiGraph) (pole_indices terminal_indices : list node) :
  wf arbo →
  ∃ mst, prune_dead_end_pole_branches arbo pole_indices terminal_indices = Some mst ∧
    (∀ u v, has_edge arbo u v → v ∈ nodes mst → u ∈ nodes mst) ∧
    (∀ u v, rtc (has_edge arbo) u v → v ∈ nodes mst → rtc (has_edge mst) u v).
Proof.
  intros Hwf.
  destruct (prune_spec pole_indices terminal_indices arbo Hwf)
    as (mst & Hrun & Hwf' & _ & Hsub & _).
  assert (∀ u v, has_edge arbo u v → v ∈ nodes mst → u ∈ nodes mst) as Hclosed.
  { eapply prune_loop_closed; [done| |exact Hrun]. lia. }
  exists mst. split_and!; [done..|].
  intros u v Hpath Hv. by eapply induced_subgraph_path.
Qed.

Lemma pruning_keeps_ancestors_witness :
  ∃ mst, prune_dead_end_pole_branches dead_branch_tree [2; 3; 4] [1] = Some mst ∧
    (∀ u v, has_edge dead_branch_tree u v → v ∈ nodes mst → u ∈ nodes mst) ∧
    (∀ u v, rtc (has_edge dead_branch_tree) u v → v ∈ nodes mst →
            rtc (has_edge mst) u v).
Proof.
  apply (pruning_keeps_ancestors dead_branch_tree [2; 3; 4] [1]).
  apply wf_dead_branch_tree.
Defined.

(** X7: on a graph without cycle the pruner removes exactly the dead
    branches: a node goes if and only if it and everything below it is a
    pole index that is not a terminal index. *)
Theorem pruned_exactly_dead_branches
    (arbo : DiGraph) (pole_indices terminal_indices : list node) :
  wf arbo → acyclic arbo →
  ∃ mst, prune_dead_end_pole_branches arbo pole_indices terminal_indices = Some mst ∧
    ∀ n, n ∈ nodes arbo →
      (n ∉ nodes mst ↔
       ∀ t, rtc (has_edge arbo) n t → t ∈ pole_indices ∧ (t ∉ terminal_indices)).
Proof.
  intros Hwf Hac.
  destruct (prune_spec pole_indices terminal_indices arbo Hwf)
    as (mst & Hrun & Hwf' & Hdl & Hsub & Hgone).
  assert (∀ u v, has_edge arbo u v → v ∈ nodes mst → u ∈ nodes mst) as Hclosed.
  { eapply prune_loop_closed; [done| |exact Hrun]. lia. }
  exists mst. split; [done|]. intros n Hn. split.
  - intros Hn' t Hpath. apply Hgone.
    + by eapply rtc_edge_nodes.
    + intros Ht. by destruct (induced_subgraph_path arbo mst n t).
  - intros Hall Hn'.
    destruct (acyclic_reaches_leaf mst n) as (l & Hnl & Hl & Hadj);
      [done|by eapply induced_subgraph_acyclic|done|].
    apply (proj1 (dead_leaves_nil pole_indices terminal_indices mst) Hdl l Hl).
    + by apply out_degree_0.
    + apply Hall. by eapply induced_subgraph_rtc.
Qed.

Lemma pruned_exactly_dead_branches_witness :
  ∃ mst, prune_dead_end_pole_branches dead_branch_tree [2; 3; 4] [1] = Some mst ∧
    ∀ n, n ∈ nodes dead_branch_tree →
      (n ∉ nodes mst ↔
       ∀ t, rtc (has_edge dead_branch_tree) n t → t ∈ [2; 3; 4] ∧ (t ∉ [1])).
Proof.
  apply (pruned_exactly_dead_branches dead_branch_tree [2; 3; 4] [1]).
  - apply wf_dead_branch_tree.
  - apply (ranked_acyclic _ (λ n, match n with 0 => 0 | 2 | 3 => 1 | _ => 2 end)).
    intros e He. vm_compute in He. repeat (apply elem_of_cons in He as [->|He]);
      [simpl; lia..|by apply not_elem_of_nil in He].
Defined.

(** X8: the pruner hands back its input as it is exactly when no node of
    out-degree zero is a pole index that is not a terminal index (so always
    when [pole_indices] is empty). *)
Theorem pruner_unchanged_iff
    (arbo : DiGraph) (pole_indices terminal_indices : list node) :
  wf arbo →
  (prune_dead_end_pole_branches arbo pole_indices terminal_indices = Some arbo ↔
   ∀ n, n ∈ nodes arbo → out_degree arbo n = 0 →
        ¬ (n ∈ pole_indices ∧ (n ∉ terminal_indices))).
Proof.
  intros Hwf. rewrite <- (dead_leaves_nil pole_indices terminal_indices arbo). split.
  - intros Hrun.
    destruct (prune_spec pole_indices terminal_indices arbo Hwf)
      as (mst & Hrun' & _ & Hdl & _).
    rewrite Hrun in Hrun'. by injection Hrun' as <-.
  - by apply prune_fixed_point.
Qed.

Lemma pruner_unchanged_iff_witness :
  prune_dead_end_pole_branches served_tree [2; 3; 4] [1] = Some served_tree ↔
  ∀ n, n ∈ nodes served_tree → out_degree served_tree n = 0 →
       ¬ (n ∈ [2; 3; 4] ∧ (n ∉ [1])).
Proof.
  apply (pruner_unchanged_iff served_tree [2; 3; 4] [1]).
  apply wf_served_tree.
Defined.

(** * More about the builder: which pairs get an edge, and when it raises *)

Section for_each_more.
Context {A S : Type}.
Implicit Types (xs : list A) (body : A → S → option S).

(** What the turn at [x] brings about and no turn undoes holds at the end. *)
Lemma for_each_hits (Q : S → Prop) xs body x s s' :
  x ∈ xs →
  (∀ t t', body x t = Some t' → Q t') →
  (∀ y t t', y ∈ xs → body y t = Some t' → Q t → Q t') →
  for_each xs body s = Some s' → Q s'.
Proof.
  revert s. induction xs as [|y xs IH]; intros s Hx Hat Hkeep; simpl.
  - by apply not_elem_of_nil in Hx.
  - destruct (body y s) as [t|] eqn:E; [simpl|done].
    apply elem_of_cons in Hx as [->|Hx].
    + apply (for_each_inv Q).
      * intros z t1 t2 Hz Ht1 Hz'. eapply Hkeep; [by right|done..].
      * by eapply Hat.
    + apply IH; [done..|]. intros z t1 t2 Hz. apply Hkeep. by right.
Qed.

(** A loop that returns has run the body of every turn to its end. *)
Lemma for_each_Some_body xs body x s s' :
  for_each xs body s = Some s' → x ∈ xs → ∃ t, is_Some (body x t).
Proof.
  revert s. induction xs as [|y xs IH]; intros s; simpl.
  - intros _ Hx. by apply not_elem_of_nil in Hx.
  - destruct (body y s) as [t|] eqn:E; [simpl|done].
    intros Hrun [->|Hx]%elem_of_cons; [by exists s; rewrite E|by eapply IH].
Qed.

(** A loop whose body raises in no state returns. *)
Lemma for_each_returns xs body s :
  (∀ x t, x ∈ xs → is_Some (body x t)) → is_Some (for_each xs body s).
Proof.
  intros Hbody.
  destruct (for_each_is_Some (λ _, True) xs body s) as (s' & -> & _); [|done..].
  intros x t Hx _. destruct (Hbody x t Hx) as [t' ?]. eauto.
Qed.
End for_each_more.

Section build_more.
Variables (source_idx : node) (terminal_indices pole_indices : list node).
Variable dist_matrix : list (list float).
Implicit Types (G : DiGraph).

Lemma has_edge_add_edge u v a G x y :
  has_edge G x y → has_edge (add_edge u v a G) x y.
Proof.
  intros [b Hb]. destruct (decide ((x, y) = (u, v))) as [?|Hne]; simplify_eq.
  - exists a. apply edges_add_edge_new.
  - exists b. by apply edges_add_edge_old.
Qed.

Lemma has_edge_add_edge_new u v a G : has_edge (add_edge u v a G) u v.
Proof. exists a. apply edges_add_edge_new. Qed.

Lemma service_drop_mono p h G G' x y :
  service_drop dist_matrix p h G = Some G' → has_edge G x y → has_edge G' x y.
Proof.
  unfold service_drop. destruct (matrix_get _ _ _) as [d|]; [simpl|done].
  case_match; intros [= <-]; [apply has_edge_add_edge|done].
Qed.

Lemma pole_span_mono i j G G' x y :
  pole_span pole_indices dist_matrix i j G = Some G' →
  has_edge G x y → has_edge G' x y.
Proof.
  unfold pole_span.
  destruct (pole_indices !! i) as [p1|]; [simpl|done].
  destruct (pole_indices !! j) as [p2|]; [simpl|done].
  destruct (matrix_get _ _ _) as [d|]; [simpl|done].
  case_match; intros [= <-]; [|done]. intros. by do 2 apply has_edge_add_edge.
Qed.

Lemma source_trunk_mono p G G' x y :
  source_trunk source_idx dist_matrix p G = Some G' →
  has_edge G x y → has_edge G' x y.
Proof.
  unfold source_trunk. destruct (matrix_get _ _ _) as [d|]; [simpl|done].
  case_match; intros [= <-]; [apply has_edge_add_edge|done].
Qed.

Lemma drops_mono G G' x y :
  for_each pole_indices
    (λ p, for_each terminal_indices (service_drop dist_matrix p)) G = Some G' →
  has_edge G x y → has_edge G' x y.
Proof.
  intros Hrun Hxy. revert Hrun. apply (for_each_inv (λ G, has_edge G x y)); [|done].
  intros p t t' _ Ht. apply (for_each_inv (λ G, has_edge G x y)); [|done].
  intros h t1 t2 _ Ht1 Hh. by eapply service_drop_mono.
Qed.

Lemma spans_mono n G G' x y :
  for_each (seq 0 n)
    (λ i, for_each (seq (S i) (n - S i)) (pole_span pole_indices dist_matrix i)) G
    = Some G' →
  has_edge G x y → has_edge G' x y.
Proof.
  intros Hrun Hxy. revert Hrun. apply (for_each_inv (λ G, has_edge G x y)); [|done].
  intros i t t' _ Ht. apply (for_each_inv (λ G, has_edge G x y)); [|done].
  intros j t1 t2 _ Ht1 Hj. by eapply pole_span_mono.
Qed.

Lemma trunks_mono G G' x y :
  for_each pole_indices (source_trunk source_idx dist_matrix) G = Some G' →
  has_edge G x y → has_edge G' x y.
Proof.
  intros Hrun Hxy. revert Hrun. apply (for_each_inv (λ G, has_edge G x y)); [|done].
  intros p t t' _ Ht Hp. by eapply source_trunk_mono.
Qed.
End build_more.

(** X9: the builder leaves out no admissible pair.  In the graph it returns
    there is an edge from a pole to a terminal whose matrix entry [d] has
    [0.1 < d <= 100], an edge in both directions between two poles (at
    positions [i < j] of [pole_indices]) with [0.1 < d <= 150], and an edge
    from the source to a pole with [0.1 < d <= 150]. *)
Theorem admissible_pairs_connected
    (source_idx : node) (terminal_indices pole_indices : list node)
    (dist_matrix : list (list float)) (costs : gmap string float) (DG : DiGraph) :
  build_directed_graph_for_arborescence
    source_idx terminal_indices pole_indices dist_matrix costs = Some DG →
  (∀ p h d, p ∈ pole_indices → h ∈ terminal_indices →
     matrix_get dist_matrix p h = Some d →
     (0.1 <? d)%float = true → (d <=? 100)%float = true →
     has_edge DG p h) ∧
  (∀ i j p1 p2 d, i < j →
     pole_indices !! i = Some p1 → pole_indices !! j = Some p2 →
     matrix_get dist_matrix p1 p2 = Some d →
     (0.1 <? d)%float = true → (d <=? 150)%float = true →
     has_edge DG p1 p2 ∧ has_edge DG p2 p1) ∧
  (∀ p d, p ∈ pole_indices →
     matrix_get dist_matrix source_idx p = Some d →
     (0.1 <? d)%float = true → (d <=? 150)%float = true →
     has_edge DG source_idx p).
Proof.
  unfold build_directed_graph_for_arborescence.
  destruct (for_each pole_indices _ empty) as [G1|] eqn:E1; [simpl|done].
  destruct (for_each (seq 0 _) _ G1) as [G2|] eqn:E2; [simpl|done].
  intros E3. split_and!.
  - intros p h d Hp Hh Hd Hlo Hhi.
    eapply trunks_mono; [done|]. eapply spans_mono; [done|].
    revert E1. apply (for_each_hits (λ G, has_edge G p h) _ _ p); [done| |].
    + intros t t'. apply (for_each_hits (λ G, has_edge G p h) _ _ h); [done| |].
      * intros t1 t2. unfold service_drop, within, MAX_POLE_TO_TERMINAL.
        rewrite Hd. simpl. rewrite Hlo, Hhi. simpl.
        intros [= <-]. apply has_edge_add_edge_new.
      * intros h' t1 t2 _ Hrun. by eapply service_drop_mono.
    + intros p' t t' _ Hrun Ht. revert Hrun.
      apply (for_each_inv (λ G, has_edge G p h)); [|done].
      intros h' t1 t2 _ ? Hrun. by eapply service_drop_mono.
  - intros i j p1 p2 d Hij Hp1 Hp2 Hd Hlo Hhi.
    pose proof (lookup_lt_Some _ _ _ Hp1). pose proof (lookup_lt_Some _ _ _ Hp2).
    cut (has_edge G2 p1 p2 ∧ has_edge G2 p2 p1).
    { intros [? ?]. split; by eapply trunks_mono. }
    revert E2.
    apply (for_each_hits (λ G, has_edge G p1 p2 ∧ has_edge G p2 p1) _ _ i).
    + apply elem_of_seq. lia.
    + intros t t'.
      apply (for_each_hits (λ G, has_edge G p1 p2 ∧ has_edge G p2 p1) _ _ j).
      * apply elem_of_seq. lia.
      * intros t1 t2. unfold pole_span, within, MAX_POLE_TO_POLE.
        rewrite Hp1, Hp2. simpl. rewrite Hd. simpl. rewrite Hlo, Hhi. simpl.
        intros [= <-]. split; [|apply has_edge_add_edge_new].
        apply has_edge_add_edge, has_edge_add_edge_new.
      * intros j' t1 t2 _ Hrun [? ?]. split; by eapply pole_span_mono.
    + intros i' t t' _ Hrun [? ?].
      split; (revert Hrun; apply (for_each_inv (λ G, has_edge G _ _)); [|done]);
        intros j' t1 t2 _ ? Hrun; by eapply pole_span_mono.
  - intros p d Hp Hd Hlo Hhi.
    revert E3. apply (for_each_hits (λ G, has_edge G source_idx p) _ _ p); [done| |].
    + intros t t'. unfold source_trunk, within, MAX_POLE_TO_POLE.
      rewrite Hd. simpl. rewrite Hlo, Hhi. simpl.
      intros [= <-]. apply has_edge_add_edge_new.
    + intros p' t t' _ Hrun. by eapply source_trunk_mono.
Qed.

Lemma admissible_pairs_connected_witness :
  (∀ p h d, p ∈ [2; 3] → h ∈ [1] →
     matrix_get four_points p h = Some d →
     (0.1 <? d)%float = true → (d <=? 100)%float = true →
     has_edge four_points_graph p h) ∧
  (∀ i j p1 p2 d, i < j →
     [2; 3] !! i = Some p1 → [2; 3] !! j = Some p2 →
     matrix_get four_points p1 p2 = Some d →
     (0.1 <? d)%float = true → (d <=? 150)%float = true →
     has_edge four_points_graph p1 p2 ∧ has_edge four_points_graph p2 p1) ∧
  (∀ p d, p ∈ [2; 3] →
     matrix_get four_points 0 p = Some d →
     (0.1 <? d)%float = true → (d <=? 150)%float = true →
     has_edge four_points_graph 0 p).
Proof.
  apply (admissible_pairs_connected 0 [1] [2; 3] four_points ∅ four_points_graph).
  apply build_four_points.
Defined.

(** X10: the builder raises exactly when an entry it reads lies outside the
    distance matrix: it returns if and only if the matrix has an entry for
    every pole and terminal, for every two poles in the order of
    [pole_indices], and for the source and every pole.  Without poles it
    reads nothing and returns whatever the other arguments are. *)
Theorem builder_raises_iff
    (source_idx : node) (terminal_indices pole_indices : list node)
    (dist_matrix : list (list float)) (costs : gmap string float) :
  (is_Some (build_directed_graph_for_arborescence
              source_idx terminal_indices pole_indices dist_matrix costs) ↔
   (∀ p h, p ∈ pole_indices → h ∈ terminal_indices →
      is_Some (matrix_get dist_matrix p h)) ∧
   (∀ i j p1 p2, i < j →
      pole_indices !! i = Some p1 → pole_indices !! j = Some p2 →
      is_Some (matrix_get dist_matrix p1 p2)) ∧
   (∀ p, p ∈ pole_indices → is_Some (matrix_get dist_matrix source_idx p))) ∧
  is_Some (build_directed_graph_for_arborescence
             source_idx terminal_indices [] dist_matrix costs).
Proof.
  split; [|by eexists]. unfold build_directed_graph_for_arborescence. split.
  - intros [DG Hrun]. revert Hrun.
    destruct (for_each pole_indices _ empty) as [G1|] eqn:E1; [simpl|done].
    destruct (for_each (seq 0 _) _ G1) as [G2|] eqn:E2; [simpl|done].
    intros E3. split_and!.
    + intros p h Hp Hh.
      destruct (for_each_Some_body _ _ p _ _ E1 Hp) as (t & t' & Ht).
      destruct (for_each_Some_body _ _ h _ _ Ht Hh) as (t1 & t2 & Ht1).
      unfold service_drop in Ht1.
      by destruct (matrix_get dist_matrix p h).
    + intros i j p1 p2 Hij Hp1 Hp2.
      pose proof (lookup_lt_Some _ _ _ Hp1). pose proof (lookup_lt_Some _ _ _ Hp2).
      destruct (for_each_Some_body _ _ i _ _ E2) as (t & t' & Ht);
        [apply elem_of_seq; lia|].
      destruct (for_each_Some_body _ _ j _ _ Ht) as (t1 & t2 & Ht1);
        [apply elem_of_seq; lia|].
      unfold pole_span in Ht1. rewrite Hp1, Hp2 in Ht1. simpl in Ht1.
      by destruct (matrix_get dist_matrix p1 p2).
    + intros p Hp.
      destruct (for_each_Some_body _ _ p _ _ E3 Hp) as (t & t' & Ht).
      unfold source_trunk in Ht.
      by destruct (matrix_get dist_matrix source_idx p).
  - intros (Hdrop & Hspan & Htrunk).
    destruct (for_each_returns pole_indices
      (λ p, for_each terminal_indices (service_drop dist_matrix p)) empty)
      as [G1 E1].
    { intros p G Hp. apply for_each_returns. intros h t Hh. unfold service_drop.
      destruct (Hdrop p h) as [d ->]; [done..|]. simpl. by case_match. }
    destruct (for_each_returns (seq 0 (length pole_indices))
      (λ i, for_each (seq (S i) (length pole_indices - S i))
              (pole_span pole_indices dist_matrix i)) G1) as [G2 E2].
    { intros i G Hi. apply elem_of_seq in Hi. cbv beta.
      apply for_each_returns. intros j t Hj. apply elem_of_seq in Hj.
      unfold pole_span.
      destruct (lookup_lt_is_Some_2 pole_indices i) as [p1 Hp1]; [lia|].
      destruct (lookup_lt_is_Some_2 pole_indices j) as [p2 Hp2]; [lia|].
      rewrite Hp1, Hp2. simpl.
      destruct (Hspan i j p1 p2) as [d ->]; [lia|done..|]. simpl. by case_match. }
    destruct (for_each_returns pole_indices
      (source_trunk source_idx dist_matrix) G2) as [G3 E3].
    { intros p t Hp. unfold source_trunk.
      destruct (Htrunk p Hp) as [d ->]. simpl. by case_match. }
    exists G3. cbv zeta. apply bind_Some. exists G1. split; [done|].
    apply bind_Some. by exists G2.
Qed.

(** * More about the candidate generators *)

Lemma argsort_insert_Permutation keys i idx : argsort_insert keys i idx ≡ₚ i :: idx.
Proof.
  induction idx as [|j idx IH]; simpl; [done|].
  case_match; [done|]. rewrite IH. apply Permutation_swap.
Qed.

Lemma argsort_returns_positions : returns_positions argsort.
Proof.
  intros keys. unfold argsort.
  assert (∀ l acc, foldl (λ idx i, argsort_insert keys i idx) acc l ≡ₚ acc ++ l) as H.
  { induction l as [|i l IH]; intros acc; simpl; [by rewrite app_nil_r|].
    rewrite IH, argsort_insert_Permutation. simpl. apply Permutation_middle. }
  apply H.
Qed.

Lemma forallb_false {A} (f : A → bool) (l : list A) :
  forallb f l = false → ∃ x, x ∈ l ∧ f x = false.
Proof.
  induction l as [|x l IH]; simpl; [done|].
  destruct (f x) eqn:E; simpl.
  - intros (y & ? & ?)%IH. exists y. split; [by right|done].
  - intros _. exists x. split; [by left|done].
Qed.

Section take_rows_facts.
Context {A : Type}.
Implicit Types (rows : list A) (idx : list nat).

Lemma take_rows_elem rows idx out x :
  take_rows rows idx = Some out → x ∈ out → x ∈ rows.
Proof.
  unfold take_rows. intros H%mapM_Some Hx.
  apply list_elem_of_lookup_1 in Hx as [k Hk].
  destruct (Forall2_lookup_r _ _ _ _ _ H Hk) as (i & _ & Hi).
  by eapply list_elem_of_lookup_2.
Qed.

Lemma take_rows_length rows idx out :
  take_rows rows idx = Some out → length out = length idx.
Proof. unfold take_rows. intros H%mapM_Some. symmetry. by eapply Forall2_length. Qed.

Lemma take_rows_is_Some rows idx :
  (∀ i, i ∈ idx → i < length rows) → is_Some (take_rows rows idx).
Proof.
  intros H. unfold take_rows. apply mapM_is_Some, Forall_forall.
  intros i Hi. apply lookup_lt_is_Some_2. by apply H.
Qed.

(** Every row is taken when every position is listed. *)
Lemma take_rows_all rows idx out x :
  idx ≡ₚ seq 0 (length rows) → take_rows rows idx = Some out → x ∈ rows → x ∈ out.
Proof.
  unfold take_rows. intros Hperm H%mapM_Some Hx.
  apply list_elem_of_lookup_1 in Hx as [i Hi].
  assert (i ∈ idx) as Hin.
  { rewrite Hperm. apply elem_of_seq. apply lookup_lt_Some in Hi. lia. }
  apply list_elem_of_lookup_1 in Hin as [k Hk].
  destruct (Forall2_lookup_l _ _ _ _ _ H Hk) as (y & Hy & Hiy).
  rewrite Hi in Hiy. injection Hiy as <-. by eapply list_elem_of_lookup_2.
Qed.

Lemma take_rows_permuted rows idx :
  idx ≡ₚ seq 0 (length rows) →
  ∃ out, take_rows rows idx = Some out ∧ length out = length rows.
Proof.
  intros Hperm. destruct (take_rows_is_Some rows idx) as [out Hout].
  { intros i. rewrite Hperm. intros ?%elem_of_seq. lia. }
  exists out. split; [done|].
  rewrite (take_rows_length _ _ _ Hout), Hperm. apply length_seq.
Qed.
End take_rows_facts.

Section greedy_facts.
Variable great_circle : point → point → float.
Variable np_argsort : list float → list nat.

Local Abbreviation keep := (keep_if_separated great_circle).
Local Abbreviation too_close p q :=
  ((MIN_CANDIDATE_SEPARATION <=? great_circle p q)%float = false).

Lemma keep_if_separated_cases kept pt :
  (keep kept pt = kept ++ [pt]) ∨
  (keep kept pt = kept ∧ ∃ q, q ∈ kept ∧ too_close pt q).
Proof.
  unfold keep_if_separated. case_bool_decide as Hlen.
  - left. apply nil_length_inv in Hlen. by rewrite Hlen.
  - simpl. destruct (forallb _ _) eqn:Hall; [by left|right].
    split; [done|]. apply forallb_false in Hall as (d & Hd & Hclose).
    apply list_elem_of_fmap in Hd as (q & -> & Hq). by exists q.
Qed.

Lemma greedy_maximal cs kept :
  let out := foldl keep kept cs in
  (∀ q, q ∈ kept → q ∈ out) ∧
  (∀ q, q ∈ out → q ∈ kept ∨ q ∈ cs) ∧
  (∀ p, p ∈ cs → p ∈ out ∨ ∃ q, q ∈ out ∧ too_close p q) ∧
  length out ≤ length kept + length cs.
Proof.
  revert kept. induction cs as [|pt cs IH]; intros kept; simpl.
  { split_and!; [done|by left|by intros ? ?%not_elem_of_nil|lia]. }
  destruct (IH (keep kept pt)) as (Hgrow & Hfrom & Hmax & Hlen).
  destruct (keep_if_separated_cases kept pt) as [E|[E (q & Hq & Hclose)]];
    rewrite E in *.
  - split_and!.
    + intros q Hq. apply Hgrow, elem_of_app. by left.
    + intros q Hq. apply Hfrom in Hq as [Hq|Hq]; [|right; by right].
      apply elem_of_app in Hq as [Hq|Hq]; [by left|].
      apply list_elem_of_singleton in Hq as ->. right. by left.
    + intros p [->|Hp]%elem_of_cons; [|by apply Hmax].
      left. apply Hgrow, elem_of_app. right. by left.
    + rewrite length_app in Hlen. simpl in Hlen. lia.
  - split_and!; [done| | |lia].
    + intros q' [?|?]%Hfrom; [by left|right; by right].
    + intros p [->|Hp]%elem_of_cons; [|by apply Hmax].
      right. exists q. split; [by apply Hgrow|done].
Qed.

Lemma greedy_nonempty cs kept :
  kept ≠ [] ∨ cs ≠ [] → foldl keep kept cs ≠ [].
Proof.
  revert kept. induction cs as [|pt cs IH]; intros kept; simpl; [by intros [?|?]|].
  intros _. apply IH. left.
  destruct (keep_if_separated_cases kept pt) as [->|[-> (q & Hq & _)]].
  - by destruct kept.
  - intros ->. by apply not_elem_of_nil in Hq.
Qed.

Lemma separation_filter_elem candidates out p :
  separation_filter great_circle np_argsort candidates = Some out →
  p ∈ out → p ∈ candidates.
Proof.
  unfold separation_filter.
  destruct (take_rows _ _) as [sorted|] eqn:Hsorted; [simpl|done]. intros [= <-] Hp.
  destruct (greedy_maximal sorted []) as (_ & Hfrom & _).
  destruct (Hfrom p Hp) as [Hnil|Hin]; [by apply not_elem_of_nil in Hnil|].
  by eapply take_rows_elem.
Qed.

Lemma separation_filter_spec candidates :
  returns_positions np_argsort →
  ∃ out, separation_filter great_circle np_argsort candidates = Some out ∧
    (∀ p, p ∈ out → p ∈ candidates) ∧
    (∀ p, p ∈ candidates → p ∈ out ∨ ∃ q, q ∈ out ∧ too_close p q) ∧
    (candidates ≠ [] → out ≠ []) ∧
    length out ≤ length candidates.
Proof.
  intros Hsort. unfold separation_filter.
  assert (np_argsort candidates.*1 ≡ₚ seq 0 (length candidates)) as Hperm.
  { pose proof (Hsort candidates.*1) as H. by rewrite length_fmap in H. }
  destruct (take_rows_permuted candidates _ Hperm) as (sorted & Hsorted & Hlen).
  rewrite Hsorted. simpl. eexists. split; [done|].
  destruct (greedy_maximal sorted []) as (_ & Hfrom & Hmax & Hle).
  split_and!.
  - intros p [Hnil|Hin]%Hfrom; [by apply not_elem_of_nil in Hnil|].
    by eapply take_rows_elem.
  - intros p Hp. apply Hmax. by eapply take_rows_all.
  - intros Hne. apply greedy_nonempty. right. intros ->.
    simpl in Hlen. by destruct candidates.
  - simpl in Hle. lia.
Qed.
End greedy_facts.

(** X11: when [np.argsort] returns the positions of its argument, the
    greedy separation loop of both generators raises nothing; it returns
    candidates it was given, at least one when there is one; and every
    candidate it drops is closer than [MIN_CANDIDATE_SEPARATION] (not at
    least that far) to a candidate it returns. *)
Theorem separation_filter_maximal
    (great_circle : point → point → float) (np_argsort : list float → list nat)
    (candidates : list point) :
  returns_positions np_argsort →
  ∃ out, separation_filter great_circle np_argsort candidates = Some out ∧
    (∀ p, p ∈ out → p ∈ candidates) ∧
    (∀ p, p ∈ candidates →
       p ∈ out ∨
       ∃ q, q ∈ out ∧ (MIN_CANDIDATE_SEPARATION <=? great_circle p q)%float = false) ∧
    (candidates ≠ [] → out ≠ []).
Proof.
  intros Hsort.
  destruct (separation_filter_spec great_circle np_argsort candidates Hsort)
    as (out & ? & ? & ? & ? & _).
  by exists out.
Qed.

Lemma separation_filter_maximal_witness :
  ∃ out, separation_filter no_distance argsort five_coords = Some out ∧
    (∀ p, p ∈ out → p ∈ five_coords) ∧
    (∀ p, p ∈ five_coords →
       p ∈ out ∨
       ∃ q, q ∈ out ∧ (MIN_CANDIDATE_SEPARATION <=? no_distance p q)%float = false) ∧
    (five_coords ≠ [] → out ≠ []).
Proof.
  apply (separation_filter_maximal no_distance argsort five_coords).
  apply argsort_returns_positions.
Defined.

Section fermat_facts.
Variable great_circle : point → point → float.
Variable Delaunay_simplices : list point → option (list (list nat)).
Variable np_argsort : list float → list nat.

Lemma fermat_torricelli_point_cases pts p :
  fermat_torricelli_point pts = Some p →
  ∃ A B C, pts = [A; B; C] ∧ (p = A ∨ p = B ∨ p = C ∨ p = centroid A B C).
Proof.
  destruct pts as [|A [|B [|C [|]]]]; try done. unfold fermat_torricelli_point.
  intros H. exists A, B, C. split; [done|].
  repeat case_match; simplify_eq; auto.
Qed.

Lemma fermat_torricelli_point_is_Some A B C :
  is_Some (fermat_torricelli_point [A; B; C]).
Proof. unfold fermat_torricelli_point. repeat case_match; by eexists. Qed.

Lemma fermat_loop_returns coords max_candidates simplices candidates :
  (∀ s, s ∈ simplices → length s = 3 ∧ ∀ i, i ∈ s → i < length coords) →
  ∃ candidates',
    for_each simplices (λ simplex candidates,
        if bool_decide (max_candidates ≤ length candidates) then Some candidates
        else
          pts ← take_rows coords simplex;
          st_pt ← fermat_torricelli_point pts;
          Some (candidates ++ [st_pt])) candidates = Some candidates' ∧
    length candidates' ≤ length candidates + length simplices ∧
    (length candidates ≤ max_candidates → length candidates' ≤ max_candidates).
Proof.
  revert candidates. induction simplices as [|s ss IH]; intros cs Hvalid.
  { exists cs. simpl. split_and!; [done|lia|done]. }
  cbn [for_each]. case_bool_decide as Hfull.
  - simpl. destruct (IH cs) as (cs' & -> & Hlen & Hmax).
    { intros s' Hs'. apply Hvalid. by right. }
    exists cs'. simpl. split_and!; [done|lia|done].
  - destruct (Hvalid s) as [Hs3 Hin]; [by left|].
    destruct (take_rows_is_Some coords s Hin) as [pts Hpts].
    pose proof (take_rows_length _ _ _ Hpts) as Hlen3. rewrite Hs3 in Hlen3.
    destruct pts as [|A [|B [|C [|]]]]; try done.
    destruct (fermat_torricelli_point_is_Some A B C) as [pt Hpt].
    rewrite Hpts. cbn -[fermat_torricelli_point]. rewrite Hpt. cbn [mbind option_bind].
    destruct (IH (cs ++ [pt])) as (cs' & -> & Hlen & Hmax).
    { intros s' Hs'. apply Hvalid. by right. }
    exists cs'. rewrite length_app in Hlen, Hmax. simpl in *.
    split_and!; [done|lia|]. intros _. apply Hmax. lia.
Qed.

Lemma fermat_loop_length coords max_candidates simplices candidates candidates' :
  for_each simplices (λ simplex candidates,
      if bool_decide (max_candidates ≤ length candidates) then Some candidates
      else
        pts ← take_rows coords simplex;
        st_pt ← fermat_torricelli_point pts;
        Some (candidates ++ [st_pt])) candidates = Some candidates' →
  length candidates ≤ max_candidates → length candidates' ≤ max_candidates.
Proof.
  intros Hrun Hlen. revert Hrun.
  apply (for_each_inv (λ cs : list point, length cs ≤ max_candidates)); [|done].
  intros simplex cs cs' _ Hcs. case_bool_decide; [by intros [= <-]|].
  destruct (take_rows coords simplex) as [pts|]; [simpl|done].
  destruct (fermat_torricelli_point pts) as [pt|]; [simpl|done].
  intros [= <-]. rewrite length_app. simpl. lia.
Qed.

Lemma fermat_loop_from_input coords max_candidates simplices candidates :
  for_each simplices (λ simplex candidates,
      if bool_decide (max_candidates ≤ length candidates) then Some candidates
      else
        pts ← take_rows coords simplex;
        st_pt ← fermat_torricelli_point pts;
        Some (candidates ++ [st_pt])) [] = Some candidates →
  ∀ p, p ∈ candidates →
    p ∈ coords ∨
    ∃ A B C, A ∈ coords ∧ B ∈ coords ∧ C ∈ coords ∧ p = centroid A B C.
Proof.
  apply (for_each_inv (λ cs : list point, ∀ p, p ∈ cs →
    p ∈ coords ∨
    ∃ A B C, A ∈ coords ∧ B ∈ coords ∧ C ∈ coords ∧ p = centroid A B C));
    [|by intros ? ?%not_elem_of_nil].
  intros simplex cs cs' _ Hcs. case_bool_decide; [by intros [= <-]|].
  destruct (take_rows coords simplex) as [pts|] eqn:Hpts; [simpl|done].
  destruct (fermat_torricelli_point pts) as [pt|] eqn:Hpt; [simpl|done].
  intros [= <-] p [Hp|Hp]%elem_of_app; [by apply Hcs|].
  apply list_elem_of_singleton in Hp as ->.
  apply fermat_torricelli_point_cases in Hpt as (A & B & C & -> & Hcase).
  assert (A ∈ coords ∧ B ∈ coords ∧ C ∈ coords) as (HA & HB & HC).
  { split_and!; eapply take_rows_elem; try done; list_membership. }
  destruct Hcase as [->|[->|[->| ->]]]; [by left..|].
  right. by exists A, B, C.
Qed.
End fermat_facts.

Lemma generate_fermat_candidates_length
    (great_circle : point → point → float)
    (Delaunay_simplices : list point → option (list (list nat)))
    (np_argsort : list float → list nat)
    (coords : list point) (max_candidates : nat) (out : list point) :
  returns_positions np_argsort →
  generate_fermat_candidates great_circle Delaunay_simplices np_argsort
    coords max_candidates = Some out →
  length out ≤ max_candidates.
Proof.
  intros Hsort. unfold generate_fermat_candidates.
  case_bool_decide; [intros [= <-]; simpl; lia|].
  destruct (Delaunay_simplices coords) as [simplices|]; [simpl|done].
  destruct (for_each _ _ _) as [raw|] eqn:Hloop; [simpl|done].
  apply fermat_loop_length in Hloop; [|simpl; lia].
  case_bool_decide; [intros [= <-]; simpl; lia|].
  case_bool_decide; [|by intros [= <-]].
  destruct (separation_filter_spec great_circle np_argsort raw Hsort)
    as (out' & -> & _ & _ & _ & Hle).
  intros [= <-]. lia.
Qed.

(** X12: the Fermat strategy invents no location of its own: every candidate
    it returns is a row of the coordinate array itself (the vertex at an
    angle of 120 degrees or more) or the mean of three of its rows. *)
Theorem fermat_candidates_from_input
    (great_circle : point → point → float)
    (Delaunay_simplices : list point → option (list (list nat)))
    (np_argsort : list float → list nat)
    (coords : list point) (max_candidates : nat) (out : list point) :
  generate_fermat_candidates great_circle Delaunay_simplices np_argsort
    coords max_candidates = Some out →
  ∀ p, p ∈ out →
    p ∈ coords ∨
    ∃ A B C, A ∈ coords ∧ B ∈ coords ∧ C ∈ coords ∧ p = centroid A B C.
Proof.
  unfold generate_fermat_candidates.
  case_bool_decide; [by intros [= <-] ? ?%not_elem_of_nil|].
  destruct (Delaunay_simplices coords) as [simplices|]; [simpl|done].
  destruct (for_each _ _ _) as [raw|] eqn:Hloop; [simpl|done].
  pose proof (fermat_loop_from_input _ _ _ _ Hloop) as Hraw.
  case_bool_decide; [by intros [= <-] ? ?%not_elem_of_nil|].
  case_bool_decide; [|by intros [= <-]].
  intros Hout p Hp. eapply Hraw, separation_filter_elem; done.
Qed.

Lemma fermat_candidates_from_input_witness :
  generate_fermat_candidates no_distance one_triangle argsort obtuse_triangle 100
    = Some [(10.12345678, 20)%float] ∧
  ∀ p, p ∈ [(10.12345678, 20)%float] →
    p ∈ obtuse_triangle ∨
    ∃ A B C, A ∈ obtuse_triangle ∧ B ∈ obtuse_triangle ∧ C ∈ obtuse_triangle ∧
             p = centroid A B C.
Proof.
  assert (generate_fermat_candidates no_distance one_triangle argsort
            obtuse_triangle 100 = Some [(10.12345678, 20)%float]) as H
    by (by vm_compute).
  split; [exact H|].
  exact (fermat_candidates_from_input no_distance one_triangle argsort
           obtuse_triangle 100 _ H).
Defined.

Lemma generate_fermat_candidates_returns
    (great_circle : point → point → float)
    (Delaunay_simplices : list point → option (list (list nat)))
    (np_argsort : list float → list nat)
    (coords : list point) (max_candidates : nat) (simplices : list (list nat)) :
  returns_positions np_argsort →
  Delaunay_simplices coords = Some simplices →
  (∀ s, s ∈ simplices → length s = 3 ∧ ∀ i, i ∈ s → i < length coords) →
  ∃ out, generate_fermat_candidates great_circle Delaunay_simplices np_argsort
           coords max_candidates = Some out ∧
         length out ≤ max_candidates ∧ length out ≤ length simplices.
Proof.
  intros Hsort Htri Hvalid. unfold generate_fermat_candidates.
  case_bool_decide; [exists []; simpl; split_and!; [done|lia..]|].
  rewrite Htri. simpl.
  destruct (fermat_loop_returns coords max_candidates simplices [] Hvalid)
    as (raw & -> & Hlen & Hmax). simpl in *.
  case_bool_decide; [exists []; simpl; split_and!; [done|lia..]|].
  case_bool_decide.
  - destruct (separation_filter_spec great_circle np_argsort raw Hsort)
      as (out & -> & _ & _ & _ & Hle).
    exists out. split_and!; [done|lia..].
  - exists raw. split_and!; [done|lia..].
Qed.

(** X13: given a triangulation (triangles of three positions of the
    coordinate array) and an [np.argsort] that returns positions, the Fermat
    strategy raises nothing, and it returns at most [max_candidates]
    candidates and at most one for each triangle. *)
Theorem fermat_generation_returns
    (great_circle : point → point → float)
    (Delaunay_simplices : list point → option (list (list nat)))
    (np_argsort : list float → list nat)
    (coords : list point) (max_candidates : nat) (simplices : list (list nat)) :
  returns_positions np_argsort →
  Delaunay_simplices coords = Some simplices →
  (∀ s, s ∈ simplices → length s = 3 ∧ ∀ i, i ∈ s → i < length coords) →
  ∃ out, generate_fermat_candidates great_circle Delaunay_simplices np_argsort
           coords max_candidates = Some out ∧
         length out ≤ max_candidates ∧ length out ≤ length simplices.
Proof. apply generate_fermat_candidates_returns. Qed.

Lemma fermat_generation_returns_witness :
  ∃ out, generate_fermat_candidates no_distance one_triangle argsort
           obtuse_triangle 100 = Some out ∧
         length out ≤ 100 ∧ length out ≤ length [[0; 1; 2]].
Proof.
  apply (fermat_generation_returns no_distance one_triangle argsort
           obtuse_triangle 100 [[0; 1; 2]]).
  - apply argsort_returns_positions.
  - reflexivity.
  - intros s ->%list_elem_of_singleton. split; [reflexivity|].
    intros i Hi. vm_compute. repeat (apply elem_of_cons in Hi as [->|Hi]); [lia..|].
    by apply not_elem_of_nil in Hi.
Defined.

(** * The Voronoi strategy *)

Lemma elem_of_row_insert r rows x : x ∈ row_insert r rows → x = r ∨ x ∈ rows.
Proof.
  induction rows as [|r' rows IH]; simpl.
  - intros ->%list_elem_of_singleton. by left.
  - case_match.
    + intros [->|[->|?]%IH]%elem_of_cons; [right; by left|by left|right; by right].
    + intros [->|?]%elem_of_cons; [by left|by right].
Qed.

Lemma elem_of_row_dedup rows x : x ∈ row_dedup rows → x ∈ rows.
Proof.
  induction rows as [|r rows IH]; [done|]. cbn [row_dedup].
  destruct rows as [|r' rows']; [done|]. case_match.
  - intros ?%IH. by right.
  - intros [->|?%IH]%elem_of_cons; [by left|by right].
Qed.

Lemma elem_of_np_unique_rows rows x : x ∈ np_unique_rows rows → x ∈ rows.
Proof.
  unfold np_unique_rows. intros Hx%elem_of_row_dedup. revert Hx.
  induction rows as [|r rows IH]; simpl; [done|].
  intros [->|?%IH]%elem_of_row_insert; [by left|by right].
Qed.

(** X14: every candidate of the Voronoi strategy is a vertex of the diagram
    rounded to 6 decimals, and that vertex passed the distance mask: of its
    row of distances to the points, as [np.partition(row, 2)] orders it, the
    first entry is at least [MIN_DIST_TO_TERMINAL] and the third at most
    [MAX_CIRCUMRADIUS]. *)
Theorem voronoi_candidates_filtered
    (great_circle : point → point → float)
    (Voronoi_vertices : list point → option (list point))
    (np_partition : list float → nat → list float)
    (np_argsort : list float → list nat)
    (coords out : list point) :
  generate_voronoi_candidates great_circle Voronoi_vertices np_partition
    np_argsort coords = Some out →
  ∀ p, p ∈ out →
    ∃ verts v lo hi,
      Voronoi_vertices coords = Some verts ∧ v ∈ verts ∧
      p = (np_round v.1 6, np_round v.2 6) ∧
      np_partition (great_circle v <$> coords) 2 !! 0 = Some lo ∧
      np_partition (great_circle v <$> coords) 2 !! 2 = Some hi ∧
      (8 <=? lo)%float = true ∧ (hi <=? 300)%float = true.
Proof.
  unfold generate_voronoi_candidates.
  case_bool_decide; [by intros [= <-] ? ?%not_elem_of_nil|].
  destruct (Voronoi_vertices coords) as [verts|] eqn:Hverts; [simpl|done].
  case_bool_decide; [by intros [= <-] ? ?%not_elem_of_nil|].
  destruct (mapM _ _) as [nearest|] eqn:Hnearest; [simpl|done].
  set (raw := (filter _ (zip verts _)).*1).
  assert (∀ v, v ∈ raw → ∃ lo hi, v ∈ verts ∧
      np_partition (great_circle v <$> coords) 2 !! 0 = Some lo ∧
      np_partition (great_circle v <$> coords) 2 !! 2 = Some hi ∧
      (8 <=? lo)%float = true ∧ (hi <=? 300)%float = true) as Hraw.
  { intros v Hv. apply list_elem_of_fmap in Hv as ([v' m] & -> & Hv).
    apply list_elem_of_filter in Hv as [Hm Hv]. simpl in Hm. subst m.
    apply list_elem_of_lookup_1 in Hv as [k Hk].
    apply lookup_zip_with_Some in Hk as (v & m & [= <- <-] & Hkv & Hkm).
    apply list_lookup_fmap_Some in Hkm as ([lo hi] & Hmask & Hlh).
    apply mapM_Some in Hnearest.
    destruct (Forall2_lookup_r _ _ _ _ _ Hnearest Hlh) as (row & Hrow & Hpart).
    unfold haversine_vec in Hrow.
    apply list_lookup_fmap_Some in Hrow as (v'' & -> & Hv'').
    rewrite Hkv in Hv''. injection Hv'' as <-.
    destruct (np_partition _ 2 !! 0) as [lo'|] eqn:Hlo; [simpl in Hpart|done].
    destruct (np_partition _ 2 !! 2) as [hi'|] eqn:Hhi; [simpl in Hpart|done].
    injection Hpart as -> ->. simpl in Hmask.
    symmetry in Hmask. apply andb_true_iff in Hmask as [? ?].
    exists lo, hi. split_and!; [by eapply list_elem_of_lookup_2|done..]. }
  case_bool_decide as Hempty.
  { apply nil_length_inv in Hempty. rewrite Hempty.
    by intros [= <-] ? ?%not_elem_of_nil. }
  assert (∀ p, p ∈ np_unique_rows (np_round_rows raw 6) →
    ∃ verts' v lo hi, Some verts = Some verts' ∧ v ∈ verts' ∧
      p = (np_round v.1 6, np_round v.2 6) ∧
      np_partition (great_circle v <$> coords) 2 !! 0 = Some lo ∧
      np_partition (great_circle v <$> coords) 2 !! 2 = Some hi ∧
      (8 <=? lo)%float = true ∧ (hi <=? 300)%float = true) as Huniq.
  { intros p Hp%elem_of_np_unique_rows. unfold np_round_rows in Hp.
    apply list_elem_of_fmap in Hp as (v & -> & Hv).
    destruct (Hraw v Hv) as (lo & hi & ? & ? & ? & ? & ?).
    by exists verts, v, lo, hi. }
  case_bool_decide; [by intros [= <-]|].
  intros Hout p Hp. eapply Huniq, separation_filter_elem; done.
Qed.

Lemma voronoi_candidates_filtered_witness :
  generate_voronoi_candidates fifty_metres one_vertex as_it_is argsort
    obtuse_triangle = Some [(10.123457, 20)%float] ∧
  ∀ p, p ∈ [(10.123457, 20)%float] →
    ∃ verts v lo hi,
      one_vertex obtuse_triangle = Some verts ∧ v ∈ verts ∧
      p = (np_round v.1 6, np_round v.2 6) ∧
      as_it_is (fifty_metres v <$> obtuse_triangle) 2 !! 0 = Some lo ∧
      as_it_is (fifty_metres v <$> obtuse_triangle) 2 !! 2 = Some hi ∧
      (8 <=? lo)%float = true ∧ (hi <=? 300)%float = true.
Proof.
  assert (generate_voronoi_candidates fifty_metres one_vertex as_it_is argsort
            obtuse_triangle = Some [(10.123457, 20)%float]) as H
    by (by vm_compute).
  split; [exact H|].
  exact (voronoi_candidates_filtered fifty_metres one_vertex as_it_is argsort
           obtuse_triangle _ H).
Defined.

(** * More about the result of [compute_mst] *)

Section names_facts.
Variable original_names : list string.

Lemma node_names_go (l : list node) (off : nat) (m : gmap nat string) (i : node) :
  let m' := foldl (λ names ip, <[ip.2 := "Pole " +:+ pretty (S ip.1)]> names)
                  m (imap (λ j p, (off + j, p)) l) in
  (i ∉ l → m' !! i = m !! i) ∧
  (NoDup l → ∀ k, l !! k = Some i → m' !! i = Some ("Pole " +:+ pretty (S (off + k)))).
Proof.
  revert off m. induction l as [|p l IH]; intros off m; simpl.
  { split; [done|]. by intros _ k. }
  rewrite (imap_ext _ (λ j p, (S off + j, p))) by (intros; simpl; f_equal; lia).
  destruct (IH (S off) (<[p := "Pole " +:+ pretty (S (off + 0))]> m)) as [Hout Hin].
  split.
  - intros Hi. apply not_elem_of_cons in Hi as [Hne Hi].
    rewrite Hout by done. by rewrite lookup_insert_ne.
  - intros [Hp Hnd]%NoDup_cons [|k] Hk; simpl in Hk.
    + injection Hk as ->. rewrite Hout by done. by rewrite lookup_insert_eq.
    + rewrite (Hin Hnd k Hk). do 3 f_equal. lia.
Qed.

(** The dictionary of names: used poles are numbered from 1 in the order
    of the list, every other key has the name of the request. *)
Lemma node_names_spec (used_poles : list node) (i : node) :
  NoDup used_poles →
  (∀ k, used_poles !! k = Some i →
        node_names original_names used_poles !! i = Some ("Pole " +:+ pretty (S k))) ∧
  (i ∉ used_poles → node_names original_names used_poles !! i = original_names !! i).
Proof.
  intros Hnd. unfold node_names.
  rewrite (imap_ext _ (λ j p, (0 + j, p))) by done.
  destruct (node_names_go used_poles 0 (map_seq 0 original_names) i) as [Hout Hin].
  split.
  - intros k Hk. by rewrite (Hin Hnd k Hk).
  - intros Hi. rewrite Hout by done. apply lookup_map_seq_0.
Qed.

Lemma node_names_named_as (used_poles : list node) (i : node) (fallback : string) :
  NoDup used_poles →
  named_as original_names used_poles i fallback
    (default fallback (node_names original_names used_poles !! i)).
Proof.
  intros Hnd. destruct (node_names_spec used_poles i Hnd) as [Hin Hout]. split.
  - intros k Hk. by rewrite (Hin k Hk).
  - intros Hi. by rewrite Hout.
Qed.
End names_facts.

Section result_facts.
Variable round : float → nat → float.
Variables (extended_coords : list point) (names : gmap nat string).

(** What one tree edge becomes in the result. *)
Local Abbreviation shown e eo :=
  (extended_coords !! e.1.1 = Some (lat (start eo), lng (start eo)) ∧
   extended_coords !! e.1.2 = Some (lat (end_ eo), lng (end_ eo)) ∧
   name (start eo) = default ("Node " +:+ pretty e.1.1) (names !! e.1.1) ∧
   name (end_ eo) = default ("Node " +:+ pretty e.1.2) (names !! e.1.2) ∧
   lengthMeters eo = round (length_m e.2) 2 ∧
   edge_voltage eo = voltage e.2).

Lemma collect_edge_edges es E l h E' l' h' :
  for_each es (collect_edge round extended_coords names) (E, l, h) = Some (E', l', h') →
  ∃ E2, E' = E ++ E2 ∧ Forall2 (λ e eo, shown e eo) es E2.
Proof.
  revert E l h. induction es as [|[[u v] data] es IH]; intros E l h; simpl.
  - intros [= <- <- <-]. exists []. by rewrite app_nil_r.
  - destruct (extended_coords !! u) as [[u1 u2]|] eqn:Hu; [simpl|done].
    destruct (extended_coords !! v) as [[v1 v2]|] eqn:Hv; [simpl|done].
    case_bool_decide; simpl; intros (E2 & -> & HE2)%IH;
      (eexists (_ :: E2); split; [by rewrite <- app_assoc|];
       constructor; [by simpl|done]).
Qed.
End result_facts.

Lemma extract_result_inv
    (round : float → nat → float)
    (mst : DiGraph) (coords candidates extended_coords : list point)
    (pole_indices : list node) (pole_start_idx : nat) (source_idx : node)
    (original_names : list string) (costs : gmap string float) (flag : bool)
    (r : Result) :
  extract_result round mst coords candidates extended_coords pole_indices
    pole_start_idx source_idx original_names costs flag = Some r →
  let used_poles := used_pole_indices mst pole_indices in
  let names := node_names original_names used_poles in
  (∃ l h, for_each (edges mst) (collect_edge round extended_coords names)
            ([], 0%float, 0%float) = Some (result_edges r, l, h)) ∧
  (if flag then
     result_nodes r =
       imap (λ i coord,
               {| index := i; node_lat := coord.1; node_lng := coord.2;
                  node_name := "Candidate " +:+ pretty i; type := "pole" |})
            extended_coords
   else
     mapM (λ i,
             c ← extended_coords !! i;
             Some {| index := i; node_lat := c.1; node_lng := c.2;
                     node_name := default ("Unused " +:+ pretty i) (names !! i);
                     type := if bool_decide (i = source_idx) then "source"
                             else if bool_decide (i < pole_start_idx) then "terminal"
                             else "pole" |})
          (merge_sort (≤) (elements (used_nodes mst))) = Some (result_nodes r)) ∧
  numPolesUsed r = length used_poles ∧
  debug r = {| sourceIndex := source_idx;
               sourceName := default "Power Source" (names !! source_idx);
               originalPoints := length coords;
               candidatesGenerated := length candidates;
               candidatesUsed := length used_poles |}.
Proof.
  unfold extract_result.
  destruct (for_each _ _ _) as [[[E l] h]|] eqn:Hrun; [simpl|done].
  destruct flag.
  - simpl. intros [= <-]. simpl. split_and!; [by eauto|done..].
  - destruct (mapM _ _) as [ns|] eqn:Hns; [simpl|done].
    intros [= <-]. simpl. split_and!; [by eauto|done..].
Qed.

Lemma StronglySorted_le_lt (l : list nat) :
  StronglySorted (≤) l → NoDup l → StronglySorted (<) l.
Proof.
  induction 1 as [|x l Hl IH Hx]; intros Hnd; [constructor|].
  apply NoDup_cons in Hnd as [Hxl Hnd]. constructor; [by apply IH|].
  rewrite Forall_forall in Hx |- *. intros y Hy.
  pose proof (Hx y Hy). assert (x ≠ y) by (by intros ->). lia.
Qed.

Lemma imap_positions {A} (l : list A) (off : nat) :
  imap (λ i _, off + i) l = seq off (length l).
Proof.
  revert off. induction l as [|x l IH]; intros off; simpl; [done|].
  f_equal; [lia|]. rewrite <- IH. apply imap_ext. intros. simpl. lia.
Qed.

(** X15: the node list of the result.  With [debug] off it lists the end
    points of the tree edges and nothing else, each once, by ascending index,
    with its coordinates and with type "source" for the source index,
    "terminal" for any other index below [pole_start_idx] and "pole" above.
    With [debug] on it lists every row of the extended coordinate array,
    used or not, as "Candidate i" of type "pole", the source and the
    terminals too. *)
Theorem result_nodes_listed
    (round : float → nat → float)
    (mst : DiGraph) (coords candidates extended_coords : list point)
    (pole_indices : list node) (pole_start_idx : nat) (source_idx : node)
    (original_names : list string) (costs : gmap string float) (flag : bool)
    (r : Result) :
  extract_result round mst coords candidates extended_coords pole_indices
    pole_start_idx source_idx original_names costs flag = Some r →
  (flag = false →
     StronglySorted (<) (index <$> result_nodes r) ∧
     (∀ i, i ∈ index <$> result_nodes r ↔
           ∃ e, e ∈ edges mst ∧ (i = e.1.1 ∨ i = e.1.2)) ∧
     (∀ n, n ∈ result_nodes r →
           extended_coords !! index n = Some (node_lat n, node_lng n) ∧
           type n = if bool_decide (index n = source_idx) then "source"
                    else if bool_decide (index n < pole_start_idx) then "terminal"
                    else "pole")) ∧
  (flag = true →
     index <$> result_nodes r = seq 0 (length extended_coords) ∧
     (∀ n, n ∈ result_nodes r →
           extended_coords !! index n = Some (node_lat n, node_lng n) ∧
           type n = "pole" ∧ node_name n = "Candidate " +:+ pretty (index n))).
Proof.
  intros (_ & Hnodes & _)%extract_result_inv. split; intros ->.
  - apply mapM_Some in Hnodes.
    assert (index <$> result_nodes r = merge_sort (≤) (elements (used_nodes mst)))
      as Hidx.
    { induction Hnodes as [|i n idx ns Hin _ IH]; [done|].
      rewrite fmap_cons, IH. f_equal.
      destruct (extended_coords !! i); [simpl in Hin|done]. by injection Hin as <-. }
    split_and!.
    + rewrite Hidx. apply StronglySorted_le_lt.
      * apply StronglySorted_merge_sort; apply _.
      * rewrite merge_sort_Permutation. apply NoDup_elements.
    + intros i. rewrite Hidx, merge_sort_Permutation, elem_of_elements.
      apply elem_of_used_nodes.
    + intros n Hn. apply list_elem_of_lookup_1 in Hn as [k Hk].
      destruct (Forall2_lookup_r _ _ _ _ _ Hnodes Hk) as (i & _ & Hi).
      destruct (extended_coords !! i) as [[c1 c2]|] eqn:Hc; [simpl in Hi|done].
      injection Hi as <-. by simpl.
  - rewrite Hnodes. split.
    + rewrite fmap_imap. simpl.
      rewrite (imap_ext _ (λ i _, 0 + i)) by done. apply imap_positions.
    + intros n Hn. apply elem_of_lookup_imap_1 in Hn as (i & [c1 c2] & -> & Hc).
      by simpl.
Qed.

Lemma result_nodes_listed_witness :
  ∃ r, extract_result no_rounding served_tree (take 2 five_coords)
         (drop 2 five_coords) five_coords [2; 3; 4] 2 0
         ["Power Source"; "House"] ∅ false = Some r ∧
  (false = false →
     StronglySorted (<) (index <$> result_nodes r) ∧
     (∀ i, i ∈ index <$> result_nodes r ↔
           ∃ e, e ∈ edges served_tree ∧ (i = e.1.1 ∨ i = e.1.2)) ∧
     (∀ n, n ∈ result_nodes r →
           five_coords !! index n = Some (node_lat n, node_lng n) ∧
           type n = if bool_decide (index n = 0) then "source"
                    else if bool_decide (index n < 2) then "terminal"
                    else "pole")) ∧
  (false = true →
     index <$> result_nodes r = seq 0 (length five_coords) ∧
     (∀ n, n ∈ result_nodes r →
           five_coords !! index n = Some (node_lat n, node_lng n) ∧
           type n = "pole" ∧ node_name n = "Candidate " +:+ pretty (index n))).
Proof.
  destruct (extract_result no_rounding served_tree (take 2 five_coords)
         (drop 2 five_coords) five_coords [2; 3; 4] 2 0
         ["Power Source"; "House"] ∅ false) as [r|] eqn:E; [|by vm_compute in E].
  exists r. split; [done|].
  exact (result_nodes_listed _ _ _ _ _ _ _ _ _ _ _ _ E).
Defined.

(** X16: the edge list of the result follows the tree: one entry for each
    edge, in the order of [mst.edges()], with the coordinates of the two end
    points, the length rounded to 2 decimals and the voltage of the edge. *)
Theorem result_edges_follow_tree
    (round : float → nat → float)
    (mst : DiGraph) (coords candidates extended_coords : list point)
    (pole_indices : list node) (pole_start_idx : nat) (source_idx : node)
    (original_names : list string) (costs : gmap string float) (flag : bool)
    (r : Result) :
  extract_result round mst coords candidates extended_coords pole_indices
    pole_start_idx source_idx original_names costs flag = Some r →
  Forall2 (λ e eo,
      extended_coords !! e.1.1 = Some (lat (start eo), lng (start eo)) ∧
      extended_coords !! e.1.2 = Some (lat (end_ eo), lng (end_ eo)) ∧
      lengthMeters eo = round (length_m e.2) 2 ∧
      edge_voltage eo = voltage e.2)
    (edges mst) (result_edges r).
Proof.
  intros ((l & h & Hrun) & _)%extract_result_inv.
  apply collect_edge_edges in Hrun as (E2 & -> & HE2). simpl.
  eapply Forall2_impl; [done|]. simpl. tauto.
Qed.

Lemma result_edges_follow_tree_witness :
  ∃ r, extract_result no_rounding served_tree (take 2 five_coords)
         (drop 2 five_coords) five_coords [2; 3; 4] 2 0
         ["Power Source"; "House"] ∅ false = Some r ∧
  Forall2 (λ e eo,
      five_coords !! e.1.1 = Some (lat (start eo), lng (start eo)) ∧
      five_coords !! e.1.2 = Some (lat (end_ eo), lng (end_ eo)) ∧
      lengthMeters eo = no_rounding (length_m e.2) 2 ∧
      edge_voltage eo = voltage e.2)
    (edges served_tree) (result_edges r).
Proof.
  destruct (extract_result no_rounding served_tree (take 2 five_coords)
         (drop 2 five_coords) five_coords [2; 3; 4] 2 0
         ["Power Source"; "House"] ∅ false) as [r|] eqn:E; [|by vm_compute in E].
  exists r. split; [done|].
  exact (result_edges_follow_tree _ _ _ _ _ _ _ _ _ _ _ _ E).
Defined.

(** X17: how the result names its nodes when no pole index is listed twice.
    The poles that are an end point of a tree edge are "Pole 1", "Pole 2", ...
    in the order of [pole_indices]; every other node has the name the request
    gave it.  This holds for the end points of the edge list, for the node
    list with [debug] off and for the source name of the debug record. *)
Theorem used_poles_numbered
    (round : float → nat → float)
    (mst : DiGraph) (coords candidates extended_coords : list point)
    (pole_indices : list node) (pole_start_idx : nat) (source_idx : node)
    (original_names : list string) (costs : gmap string float) (flag : bool)
    (r : Result) :
  NoDup pole_indices →
  extract_result round mst coords candidates extended_coords pole_indices
    pole_start_idx source_idx original_names costs flag = Some r →
  let used_poles := filter (λ i, i ∈ used_nodes mst) pole_indices in
  numPolesUsed r = length used_poles ∧
  Forall2 (λ e eo,
      named_as original_names used_poles e.1.1
        ("Node " +:+ pretty e.1.1) (name (start eo)) ∧
      named_as original_names used_poles e.1.2
        ("Node " +:+ pretty e.1.2) (name (end_ eo)))
    (edges mst) (result_edges r) ∧
  (flag = false → ∀ n, n ∈ result_nodes r →
     named_as original_names used_poles (index n)
       ("Unused " +:+ pretty (index n)) (node_name n)) ∧
  named_as original_names used_poles source_idx "Power Source"
    (sourceName (debug r)).
Proof.
  intros Hnd ((l & h & Hrun) & Hnodes & Hnum & Hdebug)%extract_result_inv.
  assert (NoDup (used_pole_indices mst pole_indices)) as Hused
    by (by apply NoDup_filter).
  fold (used_pole_indices mst pole_indices). cbv zeta. split_and!; [done| | |].
  - apply collect_edge_edges in Hrun as (E2 & -> & HE2). simpl.
    eapply Forall2_impl; [done|]. simpl.
    intros e eo (_ & _ & -> & -> & _). split; by apply node_names_named_as.
  - intros -> n Hn. apply mapM_Some in Hnodes.
    apply list_elem_of_lookup_1 in Hn as [k Hk].
    destruct (Forall2_lookup_r _ _ _ _ _ Hnodes Hk) as (i & _ & Hi).
    destruct (extended_coords !! i) as [c|]; [simpl in Hi|done].
    injection Hi as <-. simpl. by apply node_names_named_as.
  - rewrite Hdebug. simpl. by apply node_names_named_as.
Qed.

Lemma used_poles_numbered_witness :
  ∃ r, extract_result no_rounding served_tree (take 2 five_coords)
         (drop 2 five_coords) five_coords [2; 3; 4] 2 0
         ["Power Source"; "House"] ∅ false = Some r ∧
  let used_poles := filter (λ i, i ∈ used_nodes served_tree) [2; 3; 4] in
  numPolesUsed r = length used_poles ∧
  Forall2 (λ e eo,
      named_as ["Power Source"; "House"] used_poles e.1.1
        ("Node " +:+ pretty e.1.1) (name (start eo)) ∧
      named_as ["Power Source"; "House"] used_poles e.1.2
        ("Node " +:+ pretty e.1.2) (name (end_ eo)))
    (edges served_tree) (result_edges r) ∧
  (false = false → ∀ n, n ∈ result_nodes r →
     named_as ["Power Source"; "House"] used_poles (index n)
       ("Unused " +:+ pretty (index n)) (node_name n)) ∧
  named_as ["Power Source"; "House"] used_poles 0 "Power Source"
    (sourceName (debug r)).
Proof.
  destruct (extract_result no_rounding served_tree (take 2 five_coords)
         (drop 2 five_coords) five_coords [2; 3; 4] 2 0
         ["Power Source"; "House"] ∅ false) as [r|] eqn:E; [|by vm_compute in E].
  exists r. split; [done|].
  apply (used_poles_numbered _ _ _ _ _ _ _ _ _ _ _ _ ) with (2 := E).
  repeat (apply NoDup_cons; split; [set_solver|]). apply NoDup_nil_2.
Defined.

(** * The request parser *)

Lemma for_each_raising_app {A S E} (xs ys : list A) (body : A → S → E + S) (s : S) :
  for_each_raising (xs ++ ys) body s =
  match for_each_raising xs body s with
  | inl e => inl e
  | inr s' => for_each_raising ys body s'
  end.
Proof.
  revert s. induction xs as [|x xs IH]; intros s; simpl; [done|].
  destruct (body x s); [done|apply IH].
Qed.

Section parse_facts.
Variable float_of_str : string → option float.
Variable str_of_float : float → string.
Variable str_strip : string → string.
Variable str_lower : string → string.

Local Abbreviation coords_of := (point_coords float_of_str).
Local Abbreviation name_of := (point_name str_of_float str_strip).
Local Abbreviation source_name := (is_source_name str_lower).
Local Abbreviation parse_one :=
  (parse_point float_of_str str_of_float str_strip str_lower).
Local Abbreviation parse :=
  (parse_input float_of_str str_of_float str_strip str_lower).

(** The loop over the points: it raises at the first point without valid
    coordinates; otherwise it collects the coordinates and the names of all
    points, with the first point named as a source, if any. *)
Lemma parse_points_spec (points : list (gmap string value)) :
  match for_each_raising (imap pair points) parse_one ([], [], None) with
  | inl e =>
      ∃ i p, points !! i = Some p ∧ coords_of i p = inl e ∧
             ∀ j q, j < i → points !! j = Some q → ∃ c, coords_of j q = inr c
  | inr (cs, ns, src) =>
      length cs = length points ∧
      (∀ i p, points !! i = Some p →
              ∃ c, coords_of i p = inr c ∧ cs !! i = Some c) ∧
      length ns = length points ∧
      match src with
      | Some s =>
          (∃ p, points !! s = Some p ∧ source_name (name_of s p) = true) ∧
          (∀ j q, j < s → points !! j = Some q →
                  source_name (name_of j q) = false) ∧
          ns !! s = Some "Power Source"
      | None =>
          ∀ j q, points !! j = Some q → source_name (name_of j q) = false
      end ∧
      ∀ i p, points !! i = Some p → src ≠ Some i → ns !! i = Some (name_of i p)
  end.
Proof.
  induction points as [|p points IH] using rev_ind.
  { simpl. split_and!; done. }
  rewrite imap_app, for_each_raising_app. simpl.
  replace (length points + 0) with (length points) by lia.
  destruct (for_each_raising (imap pair points) _ _) as [e|[[cs ns] src]].
  { destruct IH as (i & q & Hi & He & Hbefore). exists i, q. split_and!; [|done|].
    - by apply lookup_app_l_Some.
    - intros j q' Hj Hq'. apply (Hbefore j q' Hj).
      apply lookup_lt_Some in Hi.
      by rewrite lookup_app_l in Hq' by lia. }
  destruct IH as (Hcs & Hcoords & Hns & Hsrc & Hnames).
  destruct (coords_of (length points) p) as [e|c] eqn:Hc.
  { exists (length points), p. split_and!; [by apply list_lookup_middle|done|].
    intros j q Hj Hq. rewrite lookup_app_l in Hq by lia.
    destruct (Hcoords j q Hq) as (c & ? & _). by exists c. }
  assert (∀ i q, (points ++ [p]) !! i = Some q →
            (i < length points ∧ points !! i = Some q) ∨
            (i = length points ∧ q = p)) as Hsplit.
  { intros i q Hq. apply lookup_app_Some in Hq as [Hq|[Hlen Hq]].
    - left. split; [by eapply lookup_lt_Some|done].
    - right. apply list_lookup_singleton_Some in Hq as [? ->]. split; [lia|done]. }
  assert (length (cs ++ [c]) = length (points ++ [p])) as Hcs'
    by (rewrite !length_app; simpl; lia).
  assert (∀ i q, (points ++ [p]) !! i = Some q →
            ∃ c', coords_of i q = inr c' ∧ (cs ++ [c]) !! i = Some c') as Hcoords'.
  { intros i q [[Hi Hq]|[-> ->]]%Hsplit.
    - destruct (Hcoords i q Hq) as (c' & ? & ?). exists c'. split; [done|].
      by apply lookup_app_l_Some.
    - exists c. split; [done|]. rewrite <- Hcs. by apply list_lookup_middle. }
  assert (∀ names, length names = length points →
            length (names ++ [name_of (length points) p]) = length (points ++ [p]))
    as Hlen' by (intros; rewrite !length_app; simpl; lia).
  destruct (source_name (name_of (length points) p)) eqn:Hsource;
    [destruct src as [s|]|].
  - (* a source was found before: this one keeps its own name *)
    destruct Hsrc as ((ps & Hps & Hs) & Hfirst & Hname).
    pose proof (lookup_lt_Some _ _ _ Hps) as Hlt.
    split_and!; [done|done|by apply Hlen'| | | |].
    + exists ps. split; [by apply lookup_app_l_Some|done].
    + intros j q Hj Hq. apply (Hfirst j q Hj).
      by rewrite lookup_app_l in Hq by lia.
    + by apply lookup_app_l_Some.
    + intros i q [[Hi Hq]|[-> ->]]%Hsplit Hne.
      * apply lookup_app_l_Some. by apply Hnames.
      * rewrite <- Hns. by apply list_lookup_middle.
  - (* the first source *)
    split_and!; [done|done|by rewrite length_insert; apply Hlen'| | | |].
    + exists p. split; [by apply list_lookup_middle|done].
    + intros j q Hj Hq. apply (Hsrc j q).
      by rewrite lookup_app_l in Hq by lia.
    + apply list_lookup_insert_eq. rewrite length_app. simpl. lia.
    + intros i q [[Hi Hq]|[-> ->]]%Hsplit Hne; [|done].
      rewrite list_lookup_insert_ne by lia.
      apply lookup_app_l_Some. apply Hnames; [done|]. by intros [=].
  - destruct src as [s|].
    + destruct Hsrc as ((ps & Hps & Hs) & Hfirst & Hname).
      pose proof (lookup_lt_Some _ _ _ Hps) as Hlt.
      split_and!; [done|done|by apply Hlen'| | | |].
      * exists ps. split; [by apply lookup_app_l_Some|done].
      * intros j q Hj Hq. apply (Hfirst j q Hj).
        by rewrite lookup_app_l in Hq by lia.
      * by apply lookup_app_l_Some.
      * intros i q [[Hi Hq]|[-> ->]]%Hsplit Hne.
        -- apply lookup_app_l_Some. by apply Hnames.
        -- rewrite <- Hns. by apply list_lookup_middle.
    + split_and!; [done|done|by apply Hlen'| |].
      * intros j q [[Hj Hq]|[-> ->]]%Hsplit; [by eapply Hsrc|done].
      * intros i q [[Hi Hq]|[-> ->]]%Hsplit Hne.
        -- apply lookup_app_l_Some. by apply Hnames.
        -- rewrite <- Hns. by apply list_lookup_middle.
Qed.

Lemma length_filter_ne_seq (s n : nat) :
  s < n → length (filter (λ i, i ≠ s) (seq 0 n)) = n - 1.
Proof.
  intros Hs. replace n with (s + (1 + (n - S s))) at 1 by lia.
  rewrite !seq_app, !filter_app. simpl.
  rewrite (filter_cons_False _ s) by (by intros ?). rewrite filter_nil. simpl.
  rewrite !length_app.
  assert (∀ a k, (∀ i, a ≤ i < a + k → i ≠ s) →
            filter (λ i, i ≠ s) (seq a k) = seq a k) as Hall.
  { intros a k. revert a. induction k as [|k IH]; intros a Hak; simpl; [done|].
    rewrite filter_cons_True by (apply Hak; lia). f_equal.
    apply IH. intros i Hi. apply Hak. lia. }
  rewrite !Hall by (intros; lia). rewrite !length_seq. lia.
Qed.

Lemma point_coords_in_range i p c :
  coords_of i p = inr c →
  (-90 <=? c.1)%float = true ∧ (c.1 <=? 90)%float = true ∧
  (-180 <=? c.2)%float = true ∧ (c.2 <=? 180)%float = true.
Proof.
  unfold point_coords.
  destruct (float_of_key _ p "lat") as [lat|]; [|done].
  destruct (float_of_key _ p "lng") as [lng|]; [|done].
  destruct (-90 <=? lat)%float eqn:H1, (lat <=? 90)%float eqn:H2,
    (-180 <=? lng)%float eqn:H3, (lng <=? 180)%float eqn:H4; simpl; try done.
  by intros [= <-].
Qed.

Lemma point_coords_error i p e :
  coords_of i p = inl e →
  e = missing_or_invalid_lat_lng (S i) ∨ ∃ lat lng, e = invalid_coordinates (S i) lat lng.
Proof.
  unfold point_coords.
  destruct (float_of_key _ p "lat") as [lat|]; [|intros [= <-]; by left].
  destruct (float_of_key _ p "lng") as [lng|]; [|intros [= <-]; by left].
  case_match; [|done]. intros [= <-]. right. by exists lat, lng.
Qed.

Lemma parse_input_inr request coords terminal_indices source_idx names costs :
  parse request = inr (coords, terminal_indices, source_idx, names, costs) →
  let points := request_points request in
  2 ≤ length points ∧
  costs = request_costs request ∧
  terminal_indices = terminal_indices_of (length points) source_idx ∧
  length coords = length points ∧
  (∀ i p, points !! i = Some p →
          ∃ c, coords_of i p = inr c ∧ coords !! i = Some c) ∧
  length names = length points ∧
  names !! source_idx = Some "Power Source" ∧
  ((∃ p, points !! source_idx = Some p ∧
         source_name (name_of source_idx p) = true ∧
         ∀ j q, j < source_idx → points !! j = Some q →
                source_name (name_of j q) = false)
   ∨ (source_idx = 0 ∧
      ∀ j q, points !! j = Some q → source_name (name_of j q) = false)) ∧
  ∀ i p, points !! i = Some p → i ≠ source_idx → names !! i = Some (name_of i p).
Proof.
  unfold parse_input. case_bool_decide as Hlen; [done|].
  pose proof (parse_points_spec (request_points request)) as Hloop.
  destruct (for_each_raising _ _ _) as [e|[[cs ns] src]]; [done|].
  destruct Hloop as (Hcs & Hcoords & Hns & Hsrc & Hnames).
  destruct src as [s|]; intros [= <- <- <- <- <-]; cbv zeta.
  - destruct Hsrc as ((ps & Hps & Hs) & Hfirst & Hname).
    split_and!; [lia|done|by rewrite Hcs|done..| |].
    + left. by exists ps.
    + intros i p Hp Hne. apply Hnames; [done|]. by intros [= ->].
  - split_and!; [lia|done|by rewrite Hcs|done..|by rewrite length_insert| | |].
    + apply list_lookup_insert_eq. lia.
    + by right.
    + intros i p Hp Hne. rewrite list_lookup_insert_ne by done. by apply Hnames.
Qed.
End parse_facts.

(** X18: how [parse_input] fails.  With fewer than 2 points it raises "At
    least 2 points required", whatever the points are.  Otherwise it raises
    exactly when some point has no valid coordinates (a key missing, a value
    that is no number, or a number outside [-90, 90] x [-180, 180]); the
    error is that of the first such point and carries its number, counted
    from 1. *)
Theorem parse_input_raises
    (float_of_str : string → option float) (str_of_float : float → string)
    (str_strip str_lower : string → string) (request : OptimizationRequest) :
  let points := request_points request in
  match parse_input float_of_str str_of_float str_strip str_lower request with
  | inl e =>
      (length points < 2 ∧ e = at_least_2_points_required) ∨
      (2 ≤ length points ∧
       ∃ i p, points !! i = Some p ∧ point_coords float_of_str i p = inl e ∧
         (e = missing_or_invalid_lat_lng (S i) ∨
          ∃ lat lng, e = invalid_coordinates (S i) lat lng) ∧
         ∀ j q, j < i → points !! j = Some q →
                ∃ c, point_coords float_of_str j q = inr c)
  | inr _ =>
      2 ≤ length points ∧
      ∀ i p, points !! i = Some p → ∃ c, point_coords float_of_str i p = inr c
  end.
Proof.
  cbv zeta. unfold parse_input. case_bool_decide as Hlen; [by left|].
  pose proof (parse_points_spec float_of_str str_of_float str_strip str_lower
                (request_points request)) as Hloop.
  destruct (for_each_raising _ _ _) as [e|[[cs ns] src]].
  - right. split; [lia|]. destruct Hloop as (i & p & Hp & He & Hbefore).
    exists i, p. split_and!; [done..|by eapply point_coords_error|done].
  - destruct Hloop as (_ & Hcoords & _).
    assert (2 ≤ length (request_points request) ∧
            ∀ i p, request_points request !! i = Some p →
                   ∃ c, point_coords float_of_str i p = inr c) as Hok.
    { split; [lia|]. intros i p Hp. destruct (Hcoords i p Hp) as (c & ? & _).
      by exists c. }
    by destruct src.
Qed.

(** X19: what [parse_input] returns.  There are as many coordinate rows and
    names as points, and at least 2; the source index is the position of a
    point, and that point is named "Power Source"; the terminal indices are
    all the other positions, in ascending order; the costs are those of the
    request; and every coordinate row lies in [-90, 90] x [-180, 180] (an
    infinity or a NaN never gets through). *)
Theorem parse_input_shape
    (float_of_str : string → option float) (str_of_float : float → string)
    (str_strip str_lower : string → string) (request : OptimizationRequest)
    (coords : list point) (terminal_indices : list node) (source_idx : node)
    (names : list string) (costs : gmap string float) :
  parse_input float_of_str str_of_float str_strip str_lower request
    = inr (coords, terminal_indices, source_idx, names, costs) →
  let n := length (request_points request) in
  2 ≤ n ∧ length coords = n ∧ length names = n ∧
  source_idx < n ∧ names !! source_idx = Some "Power Source" ∧
  terminal_indices = filter (λ i, i ≠ source_idx) (seq 0 n) ∧
  length terminal_indices = n - 1 ∧
  costs = request_costs request ∧
  (∀ c, c ∈ coords →
     (-90 <=? c.1)%float = true ∧ (c.1 <=? 90)%float = true ∧
     (-180 <=? c.2)%float = true ∧ (c.2 <=? 180)%float = true).
Proof.
  intros (Hlen & -> & -> & Hcs & Hcoords & Hns & Hname & _ & _)%parse_input_inr.
  cbv zeta.
  assert (source_idx < length (request_points request)) as Hsrc.
  { apply lookup_lt_Some in Hname. lia. }
  split_and!; [done..| | |done|].
  - unfold terminal_indices_of, py_range. by rewrite Nat.sub_0_r.
  - unfold terminal_indices_of, py_range. rewrite Nat.sub_0_r.
    by apply length_filter_ne_seq.
  - intros c Hc. apply list_elem_of_lookup_1 in Hc as [i Hi].
    destruct (lookup_lt_is_Some_2 (request_points request) i) as [p Hp].
    { apply lookup_lt_Some in Hi. lia. }
    destruct (Hcoords i p Hp) as (c' & Hc' & Hi'). rewrite Hi in Hi'.
    injection Hi' as <-. by eapply point_coords_in_range.
Qed.

Lemma parse_station_and_house :
  parse_input no_number no_text unchanged unchanged station_and_house
  = inr ([(0, 0); (0.001, 0)]%float, [0], 1, ["house"; "Power Source"], ∅).
Proof. by vm_compute. Qed.

Lemma parse_input_shape_witness :
  let n := length (request_points station_and_house) in
  2 ≤ n ∧ length [(0, 0); (0.001, 0)]%float = n ∧
  length ["house"; "Power Source"] = n ∧
  1 < n ∧ ["house"; "Power Source"] !! 1 = Some "Power Source" ∧
  [0] = filter (λ i, i ≠ 1) (seq 0 n) ∧
  length [0] = n - 1 ∧
  (∅ : gmap string float) = request_costs station_and_house ∧
  (∀ c, c ∈ [(0, 0); (0.001, 0)]%float →
     (-90 <=? c.1)%float = true ∧ (c.1 <=? 90)%float = true ∧
     (-180 <=? c.2)%float = true ∧ (c.2 <=? 180)%float = true).
Proof.
  apply (parse_input_shape no_number no_text unchanged unchanged station_and_house).
  apply parse_station_and_house.
Defined.

(** X20: which point [parse_input] takes for the source: the first point
    whose name is a source name, and the first point of the request when no
    name is one; every other point keeps its own name (its 'name' value,
    stripped, or "Location i" from its number), a later point with a source
    name too. *)
Theorem parse_input_source
    (float_of_str : string → option float) (str_of_float : float → string)
    (str_strip str_lower : string → string) (request : OptimizationRequest)
    (coords : list point) (terminal_indices : list node) (source_idx : node)
    (names : list string) (costs : gmap string float) :
  parse_input float_of_str str_of_float str_strip str_lower request
    = inr (coords, terminal_indices, source_idx, names, costs) →
  let points := request_points request in
  let source_name i p :=
    is_source_name str_lower (point_name str_of_float str_strip i p) in
  ((∃ p, points !! source_idx = Some p ∧ source_name source_idx p = true ∧
         ∀ j q, j < source_idx → points !! j = Some q → source_name j q = false)
   ∨ (source_idx = 0 ∧ ∀ j q, points !! j = Some q → source_name j q = false)) ∧
  ∀ i p, points !! i = Some p → i ≠ source_idx →
         names !! i = Some (point_name str_of_float str_strip i p).
Proof.
  intros (_ & _ & _ & _ & _ & _ & _ & Hsrc & Hnames)%parse_input_inr. by cbv zeta.
Qed.

Lemma parse_input_source_witness :
  let points := request_points station_and_house in
  let source_name i p := is_source_name unchanged (point_name no_text unchanged i p) in
  ((∃ p, points !! 1 = Some p ∧ source_name 1 p = true ∧
         ∀ j q, j < 1 → points !! j = Some q → source_name j q = false)
   ∨ (1 = 0 ∧ ∀ j q, points !! j = Some q → source_name j q = false)) ∧
  ∀ i p, points !! i = Some p → i ≠ 1 →
         ["house"; "Power Source"] !! i = Some (point_name no_text unchanged i p).
Proof.
  apply (parse_input_source no_number no_text unchanged unchanged station_and_house
           [(0, 0); (0.001, 0)]%float [0] 1 ["house"; "Power Source"] ∅).
  apply parse_station_and_house.
Defined.

(** ** Source names *)

Lemma prefix_nil (s : string) : String.prefix "" s = true.
Proof. by destruct s. Qed.

Lemma prefix_app (a b r : string) :
  String.prefix a b = true → String.prefix a (b +:+ r) = true.
Proof.
  revert b. induction a as [|c a IH]; intros b; [intros _; apply prefix_nil|].
  destruct b as [|c' b]; [done|].
  change (String c' b +:+ r) with (String c' (b +:+ r)). cbn.
  case_match; [apply IH|done].
Qed.

Lemma prefix_split (b s : string) :
  String.prefix b s = true → ∃ r, s = b +:+ r.
Proof.
  revert s. induction b as [|c b IH]; intros s.
  - intros _. by exists s.
  - destruct s as [|c' s]; [done|]. cbn. case_match; [|done].
    intros [r ->]%IH. exists r. by subst.
Qed.

Lemma str_in_app (a b r : string) : str_in a b = true → str_in a (b +:+ r) = true.
Proof.
  induction b as [|c b IH].
  - cbn. rewrite orb_false_r. destruct a; [|done]. intros _.
    change ("" +:+ r) with r. destruct r; cbn; by rewrite ?prefix_nil.
  - change (String c b +:+ r) with (String c (b +:+ r)).
    cbn [str_in]. intros [Hp|Hin]%orb_true_iff; apply orb_true_iff.
    + left. by apply (prefix_app a (String c b) r).
    + right. by apply IH.
Qed.

Lemma str_in_trans (a b s : string) :
  str_in a b = true → str_in b s = true → str_in a s = true.
Proof.
  intros Hab. induction s as [|c s IH]; cbn [str_in].
  - rewrite orb_false_r. intros [r Hr]%prefix_split.
    destruct b; [|done]. apply Hab.
  - intros [Hp|Hin]%orb_true_iff.
    + apply prefix_split in Hp as [r Hr].
      change (str_in a (String c s) = true). rewrite Hr. by apply str_in_app.
    + rewrite (IH Hin). apply orb_true_r.
Qed.

(** X21: the nine source keywords come down to six: a name is a source
    name exactly when, in lower case, it contains one of "source",
    "substation", "primary", "generator", "grid tie" and "utility".  The
    keywords "power source", "powersource" and "main source" and the separate
    test for "source" decide nothing. *)
Theorem source_keywords_simplified (str_lower : string → string) (name : string) :
  is_source_name str_lower name =
  existsb (λ kw, str_in kw (str_lower name))
    ["source"; "substation"; "primary"; "generator"; "grid tie"; "utility"].
Proof.
  unfold is_source_name, SOURCE_KEYWORDS. cbv zeta. simpl.
  set (n := str_lower name).
  pose proof (str_in_trans "source" "power source" n eq_refl) as H1.
  pose proof (str_in_trans "source" "powersource" n eq_refl) as H2.
  pose proof (str_in_trans "source" "main source" n eq_refl) as H3.
  destruct (str_in "source" n).
  - by rewrite !orb_true_r.
  - destruct (str_in "power source" n); [by discriminate H1|].
    destruct (str_in "powersource" n); [by discriminate H2|].
    destruct (str_in "main source" n); [by discriminate H3|].
    simpl. by rewrite !orb_false_r.
Qed.

(** * [compute_mst] from the request to the result *)

Lemma extract_result_returns (round : float → nat → float) (mst : DiGraph)
    (coords candidates extended_coords : list point)
    (pole_indices : list node) (pole_start_idx : nat) (source_idx : node)
    (original_names : list string) (costs : gmap string float) (flag : bool) :
  (∀ e, e ∈ edges mst →
        e.1.1 < length extended_coords ∧ e.1.2 < length extended_coords) →
  is_Some (extract_result round mst coords candidates extended_coords pole_indices
             pole_start_idx source_idx original_names costs flag).
Proof.
  intros Hrange. unfold extract_result.
  destruct (collect_edge_returns round extended_coords
              (node_names original_names (used_pole_indices mst pole_indices))
              (edges mst) ([], 0%float, 0%float) Hrange) as [[[E l] h] Hrun].
  rewrite Hrun. simpl. destruct flag; [by eexists|].
  destruct (mapM_is_Some_2 (λ i,
           c ← extended_coords !! i;
           Some {| index := i; node_lat := c.1; node_lng := c.2;
                   node_name := default ("Unused " +:+ pretty i)
                     (node_names original_names
                        (used_pole_indices mst pole_indices) !! i);
                   type := if bool_decide (i = source_idx) then "source"
                           else if bool_decide (i < pole_start_idx) then "terminal"
                           else "pole" |})
         (merge_sort (≤) (elements (used_nodes mst)))) as [ns Hns].
  { apply Forall_forall.
    intros i Hi. rewrite merge_sort_Permutation, elem_of_elements in Hi.
    apply elem_of_used_nodes in Hi as (e & He & Hi).
    destruct (Hrange e He) as [? ?].
    destruct (lookup_lt_is_Some_2 extended_coords i) as [c Hc]; [naive_solver lia|].
    simpl. rewrite Hc. by eauto. }
  rewrite Hns. by eexists.
Qed.

(** ** The distance matrix *)

Section cdist_facts.
Variable haversine_meters : float → float → float → float → option float.

Local Abbreviation distances := (cdist haversine_meters).

(** The matrix has an entry for every two rows. *)
Lemma matrix_get_cdist (X : list point) (dist_matrix : list (list float)) (i j : nat) :
  distances X X = Some dist_matrix →
  i < length X → j < length X → is_Some (matrix_get dist_matrix i j).
Proof.
  unfold cdist, matrix_get. intros Hrows%mapM_Some Hi Hj.
  destruct (lookup_lt_is_Some_2 X i Hi) as [u Hu].
  destruct (Forall2_lookup_l _ _ _ _ _ Hrows Hu) as (row & -> & Hrow%mapM_Some).
  destruct (lookup_lt_is_Some_2 X j Hj) as [v Hv]. simpl.
  destruct (Forall2_lookup_l _ _ _ _ _ Hrow Hv) as (d & -> & _). by eexists.
Qed.

(** [cdist] raises exactly when the metric raises for some pair of rows. *)
Lemma cdist_None (XA XB : list point) :
  distances XA XB = None ↔
  ∃ u v, u ∈ XA ∧ v ∈ XB ∧ haversine_meters u.1 u.2 v.1 v.2 = None.
Proof.
  unfold cdist. rewrite mapM_None, Exists_exists. split.
  - intros (u & Hu & Hrow). apply mapM_None, Exists_exists in Hrow as (v & Hv & Hd).
    by exists u, v.
  - intros (u & v & Hu & Hv & Hd). exists u. split; [done|].
    apply mapM_None, Exists_exists. by exists v.
Qed.
End cdist_facts.

Lemma elem_of_py_range (a b i : nat) : i ∈ py_range a b ↔ a ≤ i < b.
Proof. unfold py_range. rewrite elem_of_seq. lia. Qed.

(** The candidate graph of [compute_mst]: the builder raises nothing, and
    every node of the graph is a row of the extended coordinate array. *)
Lemma compute_mst_candidate_graph
    (haversine_meters : float → float → float → float → option float)
    (coords candidates : list point) (dist_matrix : list (list float))
    (terminal_indices : list node) (source_idx : node) (costs : gmap string float) :
  source_idx < length coords →
  (∀ t, t ∈ terminal_indices → t < length coords) →
  let extended_coords := coords ++ candidates in
  let pole_indices := py_range (length coords) (length coords + length candidates) in
  cdist haversine_meters extended_coords extended_coords = Some dist_matrix →
  ∃ DG, build_directed_graph_for_arborescence source_idx terminal_indices
          pole_indices dist_matrix costs = Some DG ∧
        wf DG ∧ ∀ n, n ∈ nodes DG → n < length extended_coords.
Proof.
  intros Hsrc Hterm. cbv zeta.
  set (ext := coords ++ candidates).
  set (poles := py_range (length coords) (length coords + length candidates)).
  intros Hdist.
  assert (length ext = length coords + length candidates) as Hext
    by apply length_app.
  assert (∀ i, i ∈ source_idx :: poles → i < length ext) as Hleft.
  { intros i [->|Hi%elem_of_py_range]%elem_of_cons; lia. }
  assert (∀ i, i ∈ terminal_indices ++ poles → i < length ext) as Hright.
  { intros i [Hi%Hterm|Hi%elem_of_py_range]%elem_of_app; lia. }
  destruct (build_returns source_idx terminal_indices poles dist_matrix costs)
    as [DG HDG].
  { intros i j Hi Hj.
    apply (matrix_get_cdist haversine_meters ext); [done|by apply Hleft|by apply Hright]. }
  exists DG. split; [done|].
  destruct (build_after_trunks _ _ _ _ _ _ HDG) as (Hwf & Hiso & Hall).
  split; [done|]. intros n Hn.
  destruct (Hiso n Hn) as (e & He & Hne).
  assert (e.1.1 ∈ source_idx :: poles ∧ e.1.2 ∈ terminal_indices ++ poles) as [H1 H2].
  { destruct (Hall e He) as [(? & ? & _)|[[(? & ? & _) _]|(? & ? & _)]];
      set_solver. }
  destruct Hne as [-> | ->]; [by apply Hleft|by apply Hright].
Qed.

Section compute_mst_facts.
Variable great_circle : point → point → float.
Variable Delaunay_simplices : list point → option (list (list nat)).
Variable np_argsort : list float → list nat.
Variable haversine_meters : float → float → float → float → option float.
Variable minimum_spanning_arborescence : DiGraph → option DiGraph.
Variable round : float → nat → float.

Local Abbreviation distances := (cdist haversine_meters).

(** The steps of [compute_mst], one after the other. *)
Lemma compute_mst_steps (coords : list point) (terminal_indices : list node)
    (source_idx : node) (original_names : list string)
    (costs : gmap string float) (flag : bool) :
  compute_mst great_circle Delaunay_simplices np_argsort haversine_meters
    minimum_spanning_arborescence round
    coords terminal_indices source_idx original_names costs flag =
  (candidates ← generate_fermat_candidates great_circle Delaunay_simplices
                  np_argsort coords 100;
   let extended_coords := coords ++ candidates in
   let pole_indices := py_range (length coords) (length coords + length candidates) in
   dist_matrix ← distances extended_coords extended_coords;
   DG ← build_directed_graph_for_arborescence
          source_idx terminal_indices pole_indices dist_matrix costs;
   arbo ← minimum_spanning_arborescence DG;
   mst ← prune_dead_end_pole_branches arbo pole_indices terminal_indices;
   extract_result round mst coords candidates extended_coords pole_indices
     (length coords) source_idx original_names costs flag).
Proof.
  unfold compute_mst.
  destruct (generate_fermat_candidates _ _ _ _ _) as [candidates|]; [simpl|done].
  case_bool_decide as Hlen.
  - by rewrite length_app.
  - destruct candidates; [|simpl in Hlen; lia]. simpl.
    rewrite app_nil_r, Nat.add_0_r. unfold py_range. by rewrite Nat.sub_diag.
Qed.

(** With the tree the solver returned, the rest of [compute_mst] raises
    nothing, and the nodes of the pruned tree are nodes of the solver's. *)
Lemma compute_mst_after_solver (coords candidates : list point)
    (terminal_indices : list node) (source_idx : node)
    (original_names : list string) (costs : gmap string float) (flag : bool)
    (arbo : DiGraph) :
  let extended_coords := coords ++ candidates in
  let pole_indices := py_range (length coords) (length coords + length candidates) in
  wf arbo → (∀ n, n ∈ nodes arbo → n < length extended_coords) →
  ∃ mst r,
    prune_dead_end_pole_branches arbo pole_indices terminal_indices = Some mst ∧
    wf mst ∧ induced_subgraph arbo mst ∧
    extract_result round mst coords candidates extended_coords pole_indices
      (length coords) source_idx original_names costs flag = Some r.
Proof.
  cbv zeta. intros Hwf Hnodes.
  destruct (prune_spec (py_range (length coords) (length coords + length candidates))
              terminal_indices arbo Hwf) as (mst & Hmst & Hwf' & _ & Hind & _).
  destruct (extract_result_returns round mst coords candidates (coords ++ candidates)
              (py_range (length coords) (length coords + length candidates))
              (length coords) source_idx original_names costs flag) as [r Hr].
  { intros [[u v] a] He. simpl.
    destruct (edge_endpoints mst u v a Hwf' He) as [Hu Hv].
    split; apply Hnodes, Hind; done. }
  by exists mst, r.
Qed.

(** From the parsed request on, [compute_mst] can raise in the
    triangulation, in the distance and in the arborescence solver only. *)
Lemma compute_mst_flow (coords : list point) (terminal_indices : list node)
    (source_idx : node) (original_names : list string)
    (costs : gmap string float) (flag : bool) :
  returns_positions np_argsort →
  source_idx < length coords →
  (∀ t, t ∈ terminal_indices → t < length coords) →
  (∀ simplices, Delaunay_simplices coords = Some simplices →
     ∀ s, s ∈ simplices → length s = 3 ∧ ∀ i, i ∈ s → i < length coords) →
  (∀ G B, wf G → minimum_spanning_arborescence G = Some B →
          wf B ∧ ∀ n, n ∈ nodes B → n ∈ nodes G) →
  let run := compute_mst great_circle Delaunay_simplices np_argsort
               haversine_meters minimum_spanning_arborescence round
               coords terminal_indices source_idx original_names costs flag in
  (3 ≤ length coords ∧ Delaunay_simplices coords = None ∧ run = None) ∨
  ∃ candidates,
    generate_fermat_candidates great_circle Delaunay_simplices np_argsort
      coords 100 = Some candidates ∧
    match distances (coords ++ candidates) (coords ++ candidates) with
    | None =>
        run = None ∧
        ∃ u v, u ∈ coords ++ candidates ∧ v ∈ coords ++ candidates ∧
               haversine_meters u.1 u.2 v.1 v.2 = None
    | Some dist_matrix =>
        ∃ DG,
          build_directed_graph_for_arborescence source_idx terminal_indices
            (py_range (length coords) (length coords + length candidates))
            dist_matrix costs = Some DG ∧
          match minimum_spanning_arborescence DG with
          | None => run = None
          | Some _ => is_Some run
          end
    end.
Proof.
  intros Hsort Hsrc Hterm Htri Hsolver. cbv zeta. rewrite compute_mst_steps.
  assert ((3 ≤ length coords ∧ Delaunay_simplices coords = None) ∨
          ∃ candidates, generate_fermat_candidates great_circle Delaunay_simplices
                          np_argsort coords 100 = Some candidates) as [[? Hnone]|[cs Hcs]].
  { destruct (decide (length coords < 3)) as [Hlt|Hge].
    - right. exists []. unfold generate_fermat_candidates.
      by rewrite bool_decide_eq_true_2.
    - destruct (Delaunay_simplices coords) as [simplices|] eqn:Hd;
        [right|left; split; [lia|done]].
      destruct (generate_fermat_candidates_returns great_circle Delaunay_simplices
                  np_argsort coords 100 simplices) as (out & ? & _);
        [done..|by apply Htri|by exists out]. }
  { left. split_and!; [done..|]. unfold generate_fermat_candidates.
    rewrite bool_decide_eq_false_2 by lia. by rewrite Hnone. }
  right. exists cs. split; [done|]. rewrite Hcs. cbn [mbind option_bind]. cbv zeta.
  destruct (distances (coords ++ cs) (coords ++ cs)) as [dm|] eqn:Hdm.
  2: { split; [done|]. by apply cdist_None. }
  cbn [mbind option_bind].
  destruct (compute_mst_candidate_graph haversine_meters coords cs dm terminal_indices
              source_idx costs Hsrc Hterm Hdm) as (DG & HDG & Hwf & Hnodes).
  exists DG. split; [done|]. rewrite HDG. cbn [mbind option_bind].
  destruct (minimum_spanning_arborescence DG) as [arbo|] eqn:Harbo; [|done].
  cbn [mbind option_bind].
  destruct (Hsolver DG arbo Hwf Harbo) as [Hwf' Hsub].
  destruct (compute_mst_after_solver coords cs terminal_indices source_idx
              original_names costs flag arbo Hwf') as (mst & r & -> & _ & _ & Hr).
  { intros n Hn. by apply Hnodes, Hsub. }
  cbn [mbind option_bind]. rewrite Hr. by eexists.
Qed.
End compute_mst_facts.

Lemma parse_input_indices
    (float_of_str : string → option float) (str_of_float : float → string)
    (str_strip str_lower : string → string) (request : OptimizationRequest)
    (coords : list point) (terminal_indices : list node) (source_idx : node)
    (names : list string) (costs : gmap string float) :
  parse_input float_of_str str_of_float str_strip str_lower request
    = inr (coords, terminal_indices, source_idx, names, costs) →
  length coords = length (request_points request) ∧
  2 ≤ length coords ∧
  source_idx < length coords ∧
  (∀ t, t ∈ terminal_indices → t < length coords) ∧
  names !! source_idx = Some "Power Source".
Proof.
  intros (Hlen & _ & -> & Hcs & _ & Hns & Hname & _)%parse_input_inr.
  split_and!; [done|lia| | |done].
  - apply lookup_lt_Some in Hname. lia.
  - intros t. unfold terminal_indices_of.
    rewrite list_elem_of_filter, elem_of_py_range. lia.
Qed.


(** X22: once the request is parsed, [compute_mst] raises in the libraries
    only.  Given an [np.argsort] that returns positions, a triangulation made
    of triangles of the coordinate array, and a solver that returns a graph
    on nodes of its input, [compute_mst] fails when the triangulation fails
    (it is called for 3 points or more), when [haversine_meters] raises for
    two rows of the extended coordinate array, and when the solver fails on
    the candidate graph, and in no other case: the candidate generation, the
    graph builder, the pruner and the aggregation raise nothing. *)
Theorem compute_mst_raises_only_in_libraries
    (float_of_str : string → option float) (str_of_float : float → string)
    (str_strip str_lower : string → string)
    (great_circle : point → point → float)
    (Delaunay_simplices : list point → option (list (list nat)))
    (np_argsort : list float → list nat)
    (haversine_meters : float → float → float → float → option float)
    (minimum_spanning_arborescence : DiGraph → option DiGraph)
    (round : float → nat → float)
    (request : OptimizationRequest)
    (coords : list point) (terminal_indices : list node) (source_idx : node)
    (names : list string) (costs : gmap string float) :
  returns_positions np_argsort →
  parse_input float_of_str str_of_float str_strip str_lower request
    = inr (coords, terminal_indices, source_idx, names, costs) →
  (∀ simplices, Delaunay_simplices coords = Some simplices →
     ∀ s, s ∈ simplices → length s = 3 ∧ ∀ i, i ∈ s → i < length coords) →
  (∀ G B, wf G → minimum_spanning_arborescence G = Some B →
          wf B ∧ ∀ n, n ∈ nodes B → n ∈ nodes G) →
  let run := compute_mst_request float_of_str str_of_float str_strip str_lower
               great_circle Delaunay_simplices np_argsort haversine_meters
               minimum_spanning_arborescence round request in
  (3 ≤ length coords ∧ Delaunay_simplices coords = None ∧ run = None) ∨
  ∃ candidates,
    generate_fermat_candidates great_circle Delaunay_simplices np_argsort
      coords 100 = Some candidates ∧
    match cdist haversine_meters (coords ++ candidates) (coords ++ candidates) with
    | None =>
        run = None ∧
        ∃ u v, u ∈ coords ++ candidates ∧ v ∈ coords ++ candidates ∧
               haversine_meters u.1 u.2 v.1 v.2 = None
    | Some dist_matrix =>
        ∃ DG,
          build_directed_graph_for_arborescence source_idx terminal_indices
            (py_range (length coords) (length coords + length candidates))
            dist_matrix costs = Some DG ∧
          match minimum_spanning_arborescence DG with
          | None => run = None
          | Some _ => is_Some run
          end
    end.
Proof.
  intros Hsort Hparse Htri Hsolver. unfold compute_mst_request. rewrite Hparse.
  destruct (parse_input_indices _ _ _ _ _ _ _ _ _ _ Hparse) as (_ & _ & ? & ? & _).
  by apply compute_mst_flow.
Qed.

Lemma parse_pole_on_terminal :
  parse_input no_number no_text unchanged unchanged pole_on_terminal
  = inr (bent_line, [1; 2], 0, ["Power Source"; "Location 2"; "Location 3"],
         {[ "poleCost" := 1200%float ]}).
Proof. by vm_compute. Qed.

Lemma bent_line_candidates :
  generate_fermat_candidates no_distance one_triangle argsort bent_line 100
  = Some [(0, 0.0005)%float].
Proof. by vm_compute. Qed.

Lemma bent_line_cdist :
  cdist metres_apart (bent_line ++ [(0, 0.0005)%float])
    (bent_line ++ [(0, 0.0005)%float]) = Some bent_line_distances.
Proof. by vm_compute. Qed.

Lemma one_triangle_valid (simplices : list (list nat)) :
  one_triangle bent_line = Some simplices →
  ∀ s, s ∈ simplices → length s = 3 ∧ ∀ i, i ∈ s → i < length bent_line.
Proof.
  intros [= <-] s ->%list_elem_of_singleton. split; [reflexivity|].
  intros i Hi. vm_compute. repeat (apply elem_of_cons in Hi as [->|Hi]); [lia..|].
  by apply not_elem_of_nil in Hi.
Qed.

Lemma compute_mst_raises_only_in_libraries_witness :
  let run := compute_mst_request no_number no_text unchanged unchanged
               no_distance one_triangle argsort metres_apart
               already_a_tree no_rounding pole_on_terminal in
  (3 ≤ length bent_line ∧ one_triangle bent_line = None ∧ run = None) ∨
  ∃ candidates,
    generate_fermat_candidates no_distance one_triangle argsort
      bent_line 100 = Some candidates ∧
    match cdist metres_apart (bent_line ++ candidates) (bent_line ++ candidates) with
    | None =>
        run = None ∧
        ∃ u v, u ∈ bent_line ++ candidates ∧ v ∈ bent_line ++ candidates ∧
               metres_apart u.1 u.2 v.1 v.2 = None
    | Some dist_matrix =>
        ∃ DG,
          build_directed_graph_for_arborescence 0 [1; 2]
            (py_range (length bent_line) (length bent_line + length candidates))
            dist_matrix {[ "poleCost" := 1200%float ]} = Some DG ∧
          match already_a_tree DG with
          | None => run = None
          | Some _ => is_Some run
          end
    end.
Proof.
  apply (compute_mst_raises_only_in_libraries no_number no_text unchanged unchanged
           no_distance one_triangle argsort metres_apart already_a_tree no_rounding
           pole_on_terminal bent_line [1; 2] 0
           ["Power Source"; "Location 2"; "Location 3"]
           {[ "poleCost" := 1200%float ]}).
  - apply argsort_returns_positions.
  - apply parse_pole_on_terminal.
  - apply one_triangle_valid.
  - by intros G B HG [= <-].
Defined.

Section compute_mst_result.
Variable float_of_str : string → option float.
Variable str_of_float : float → string.
Variables str_strip str_lower : string → string.
Variable great_circle : point → point → float.
Variable Delaunay_simplices : list point → option (list (list nat)).
Variable np_argsort : list float → list nat.
Variable haversine_meters : float → float → float → float → option float.
Variable minimum_spanning_arborescence : DiGraph → option DiGraph.
Variable round : float → nat → float.

(** A run of [compute_mst] that returns, step by step. *)
Lemma compute_mst_request_inv (request : OptimizationRequest) (r : Result) :
  compute_mst_request float_of_str str_of_float str_strip str_lower
    great_circle Delaunay_simplices np_argsort haversine_meters
    minimum_spanning_arborescence round request = Some r →
  ∃ coords terminal_indices source_idx names costs candidates dist_matrix DG arbo mst,
    let pole_indices := py_range (length coords) (length coords + length candidates) in
    parse_input float_of_str str_of_float str_strip str_lower request
      = inr (coords, terminal_indices, source_idx, names, costs) ∧
    generate_fermat_candidates great_circle Delaunay_simplices np_argsort
      coords 100 = Some candidates ∧
    cdist haversine_meters (coords ++ candidates) (coords ++ candidates)
      = Some dist_matrix ∧
    build_directed_graph_for_arborescence source_idx terminal_indices pole_indices
      dist_matrix costs = Some DG ∧
    minimum_spanning_arborescence DG = Some arbo ∧
    prune_dead_end_pole_branches arbo pole_indices terminal_indices = Some mst ∧
    extract_result round mst coords candidates (coords ++ candidates) pole_indices
      (length coords) source_idx names costs (request_debug request) = Some r.
Proof.
  unfold compute_mst_request.
  destruct (parse_input _ _ _ _ request)
    as [e|[[[[coords terminal_indices] source_idx] names] costs]] eqn:Hparse; [done|].
  rewrite compute_mst_steps.
  destruct (generate_fermat_candidates _ _ _ _ _) as [candidates|] eqn:Hcs;
    [cbn [mbind option_bind]; cbv zeta|done].
  destruct (cdist _ _ _) as [dist_matrix|] eqn:Hdm; [cbn [mbind option_bind]|done].
  destruct (build_directed_graph_for_arborescence _ _ _ _ _) as [DG|] eqn:HDG;
    [cbn [mbind option_bind]|done].
  destruct (minimum_spanning_arborescence DG) as [arbo|] eqn:Harbo;
    [cbn [mbind option_bind]|done].
  destruct (prune_dead_end_pole_branches _ _ _) as [mst|] eqn:Hmst;
    [cbn [mbind option_bind]|done].
  intros Hr. by exists coords, terminal_indices, source_idx, names, costs,
    candidates, dist_matrix, DG, arbo, mst.
Qed.
End compute_mst_result.

(** X23: the counts of a result of [compute_mst].  The debug record gives
    the number of points of the request (at least 2) and the source index, a
    position among them, under the name "Power Source"; the number of poles
    used is at most the number of candidates generated, which is at most
    100. *)
Theorem compute_mst_counts
    (float_of_str : string → option float) (str_of_float : float → string)
    (str_strip str_lower : string → string)
    (great_circle : point → point → float)
    (Delaunay_simplices : list point → option (list (list nat)))
    (np_argsort : list float → list nat)
    (haversine_meters : float → float → float → float → option float)
    (minimum_spanning_arborescence : DiGraph → option DiGraph)
    (round : float → nat → float)
    (request : OptimizationRequest) (r : Result) :
  returns_positions np_argsort →
  compute_mst_request float_of_str str_of_float str_strip str_lower
    great_circle Delaunay_simplices np_argsort haversine_meters
    minimum_spanning_arborescence round request = Some r →
  let n := length (request_points request) in
  2 ≤ n ∧ originalPoints (debug r) = n ∧
  sourceIndex (debug r) < n ∧ sourceName (debug r) = "Power Source" ∧
  candidatesUsed (debug r) = numPolesUsed r ∧
  numPolesUsed r ≤ candidatesGenerated (debug r) ∧
  candidatesGenerated (debug r) ≤ 100.
Proof.
  intros Hsort (coords & terminal_indices & source_idx & names & costs & candidates &
    dist_matrix & DG & arbo & mst & Hparse & Hcs & _ & _ & _ & _ & Hr)%compute_mst_request_inv.
  cbv zeta in *.
  destruct (parse_input_indices _ _ _ _ _ _ _ _ _ _ Hparse)
    as (Hlen & Hn & Hsrc & _ & Hname).
  apply extract_result_inv in Hr as (_ & _ & Hnum & Hdebug). cbv zeta in *.
  set (poles := py_range (length coords) (length coords + length candidates)) in *.
  assert (NoDup (used_pole_indices mst poles)) as Hnd.
  { apply NoDup_filter. apply NoDup_seq. }
  assert (source_idx ∉ used_pole_indices mst poles) as Hout.
  { unfold used_pole_indices, poles. rewrite list_elem_of_filter, elem_of_py_range. lia. }
  assert (length (used_pole_indices mst poles) ≤ length candidates) as Hused.
  { unfold used_pole_indices. etrans; [apply length_filter|].
    unfold poles, py_range. rewrite length_seq. lia. }
  rewrite Hdebug, Hnum. simpl.
  rewrite (proj2 (node_names_spec names _ source_idx Hnd) Hout), Hname. simpl.
  split_and!; [lia..|done|done|done|].
  by eapply generate_fermat_candidates_length.
Qed.

Lemma compute_mst_counts_witness :
  ∃ r, compute_mst_request no_number no_text unchanged unchanged
         no_distance one_triangle argsort metres_apart
         already_a_tree no_rounding pole_on_terminal = Some r ∧
  let n := length (request_points pole_on_terminal) in
  2 ≤ n ∧ originalPoints (debug r) = n ∧
  sourceIndex (debug r) < n ∧ sourceName (debug r) = "Power Source" ∧
  candidatesUsed (debug r) = numPolesUsed r ∧
  numPolesUsed r ≤ candidatesGenerated (debug r) ∧
  candidatesGenerated (debug r) ≤ 100.
Proof.
  destruct (compute_mst_request no_number no_text unchanged unchanged
         no_distance one_triangle argsort metres_apart
         already_a_tree no_rounding pole_on_terminal) as [r|] eqn:E;
    [|by vm_compute in E].
  exists r. split; [done|].
  apply (compute_mst_counts _ _ _ _ _ _ _ _ _ _ _ _ argsort_returns_positions E).
Defined.

(** X24: every wire of a result of [compute_mst] is an admissible
    connection, when the solver returns edges of the candidate graph with
    their attributes: its voltage is "low" or "high", and its length, before
    it is rounded to 2 decimals, is above 0.1 m and at most 100 m for a "low"
    edge and at most 150 m for a "high" edge. *)
Theorem result_wires_admissible
    (float_of_str : string → option float) (str_of_float : float → string)
    (str_strip str_lower : string → string)
    (great_circle : point → point → float)
    (Delaunay_simplices : list point → option (list (list nat)))
    (np_argsort : list float → list nat)
    (haversine_meters : float → float → float → float → option float)
    (minimum_spanning_arborescence : DiGraph → option DiGraph)
    (round : float → nat → float)
    (request : OptimizationRequest) (r : Result) :
  (∀ G B, wf G → minimum_spanning_arborescence G = Some B →
          wf B ∧ ∀ e, e ∈ edges B → e ∈ edges G) →
  compute_mst_request float_of_str str_of_float str_strip str_lower
    great_circle Delaunay_simplices np_argsort haversine_meters
    minimum_spanning_arborescence round request = Some r →
  ∀ eo, eo ∈ result_edges r →
    ∃ d, lengthMeters eo = round d 2 ∧
      ((edge_voltage eo = "low" ∧
        (0.1 <? d)%float = true ∧ (d <=? 100)%float = true) ∨
       (edge_voltage eo = "high" ∧
        (0.1 <? d)%float = true ∧ (d <=? 150)%float = true)).
Proof.
  intros Hsolver (coords & terminal_indices & source_idx & names & costs &
    candidates & dist_matrix & DG & arbo & mst & _ & _ & _ & HDG & Harbo & Hmst & Hr)
    %compute_mst_request_inv.
  cbv zeta in *. intros eo Heo.
  destruct (build_after_trunks _ _ _ _ _ _ HDG) as (HwfDG & _ & Hall).
  destruct (Hsolver DG arbo HwfDG Harbo) as [Hwf Hsub].
  destruct (prune_spec (py_range (length coords) (length coords + length candidates))
              terminal_indices arbo Hwf) as (mst' & Hmst' & _ & _ & Hind & _).
  rewrite Hmst in Hmst'. injection Hmst' as <-.
  apply extract_result_inv in Hr as ((l & h & Hrun) & _).
  apply collect_edge_edges in Hrun as (E2 & HE2 & Hshown). simpl in HE2. subst E2.
  apply list_elem_of_lookup_1 in Heo as [k Hk].
  destruct (Forall2_lookup_r _ _ _ _ _ Hshown Hk) as (e & He & _ & _ & _ & _ & Hlen & Hvolt).
  apply list_elem_of_lookup_2 in He.
  assert (e ∈ edges DG) as HeDG by (by apply Hsub, Hind).
  rewrite Hlen, Hvolt.
  destruct (Hall e HeDG) as [(_ & _ & d & _ & [? ?]%within_bounds & ->)
    |[[(_ & _ & d & _ & [? ?]%within_bounds & ->) _]
     |(_ & _ & d & _ & [? ?]%within_bounds & ->)]];
    exists d; (split; [done|]); [by left|by right..].
Qed.

Lemma result_wires_admissible_witness :
  ∃ r, compute_mst_request no_number no_text unchanged unchanged
         no_distance one_triangle argsort metres_apart
         already_a_tree no_rounding pole_on_terminal = Some r ∧
  ∀ eo, eo ∈ result_edges r →
    ∃ d, lengthMeters eo = no_rounding d 2 ∧
      ((edge_voltage eo = "low" ∧
        (0.1 <? d)%float = true ∧ (d <=? 100)%float = true) ∨
       (edge_voltage eo = "high" ∧
        (0.1 <? d)%float = true ∧ (d <=? 150)%float = true)).
Proof.
  destruct (compute_mst_request no_number no_text unchanged unchanged
         no_distance one_triangle argsort metres_apart
         already_a_tree no_rounding pole_on_terminal) as [r|] eqn:E;
    [|by vm_compute in E].
  exists r. split; [done|].
  apply (result_wires_admissible no_number no_text unchanged unchanged
           no_distance one_triangle argsort metres_apart already_a_tree no_rounding
           pole_on_terminal r); [|done].
  by intros G B HG [= <-].
Defined.

(** * Nodes out of the source's reach, in the result *)

Lemma result_nodes_used
    (round : float → nat → float)
    (mst : DiGraph) (coords candidates extended_coords : list point)
    (pole_indices : list node) (pole_start_idx : nat) (source_idx : node)
    (original_names : list string) (costs : gmap string float) (r : Result) :
  extract_result round mst coords candidates extended_coords pole_indices
    pole_start_idx source_idx original_names costs false = Some r →
  ∀ i, i ∈ index <$> result_nodes r → i ∈ used_nodes mst.
Proof.
  intros (_ & Hnodes & _)%extract_result_inv i Hi. apply mapM_Some in Hnodes.
  apply list_elem_of_fmap in Hi as (n & -> & Hn).
  apply list_elem_of_lookup_1 in Hn as [k Hk].
  destruct (Forall2_lookup_r _ _ _ _ _ Hnodes Hk) as (i & Hi%list_elem_of_lookup_2 & Hin).
  rewrite merge_sort_Permutation, elem_of_elements in Hi.
  destruct (extended_coords !! i); [simpl in Hin|done]. by injection Hin as <-.
Qed.

Lemma rtc_has_edge_subgraph (G G' : DiGraph) (u v : node) :
  (∀ e, e ∈ edges G' → e ∈ edges G) → rtc (has_edge G') u v → rtc (has_edge G) u v.
Proof.
  intros Hsub. induction 1 as [|u w v [a Ha] _ IH]; [done|].
  eapply rtc_l; [|done]. exists a. by apply Hsub.
Qed.

(** C3, as amended: for a request that parses and for which the candidates
    and the distance matrix are computed, the builder returns the candidate
    graph; and whenever the solver returns, for that graph, a tree that is
    rooted at the source and whose edges are edges of the candidate graph,
    the pruner and the aggregation raise nothing, [compute_mst] returns a
    result, and a node that the source does not reach under the admissible
    edges is absent from the resulting tree, and with [debug] off from the
    node list of the result. *)
Theorem unreached_nodes
    (float_of_str : string → option float) (str_of_float : float → string)
    (str_strip str_lower : string → string)
    (great_circle : point → point → float)
    (Delaunay_simplices : list point → option (list (list nat)))
    (np_argsort : list float → list nat)
    (haversine_meters : float → float → float → float → option float)
    (minimum_spanning_arborescence : DiGraph → option DiGraph)
    (round : float → nat → float)
    (request : OptimizationRequest)
    (coords : list point) (terminal_indices : list node) (source_idx : node)
    (names : list string) (costs : gmap string float)
    (candidates : list point) (dist_matrix : list (list float)) :
  let extended_coords := coords ++ candidates in
  let pole_indices := py_range (length coords) (length coords + length candidates) in
  parse_input float_of_str str_of_float str_strip str_lower request
    = inr (coords, terminal_indices, source_idx, names, costs) →
  generate_fermat_candidates great_circle Delaunay_simplices np_argsort
    coords 100 = Some candidates →
  cdist haversine_meters extended_coords extended_coords = Some dist_matrix →
  ∃ DG,
    build_directed_graph_for_arborescence source_idx terminal_indices pole_indices
      dist_matrix costs = Some DG ∧
    ∀ arbo,
      minimum_spanning_arborescence DG = Some arbo →
      wf arbo → (∀ e, e ∈ edges arbo → e ∈ edges DG) →
      (∀ n, n ∈ nodes arbo → rtc (has_edge arbo) source_idx n) →
      ∃ mst r,
        prune_dead_end_pole_branches arbo pole_indices terminal_indices = Some mst ∧
        compute_mst_request float_of_str str_of_float str_strip str_lower
          great_circle Delaunay_simplices np_argsort haversine_meters
          minimum_spanning_arborescence round request = Some r ∧
        (∀ n, ¬ rtc (has_edge DG) source_idx n → n ∉ nodes mst) ∧
        (request_debug request = false →
         ∀ n, ¬ rtc (has_edge DG) source_idx n → n ∉ index <$> result_nodes r).
Proof.
  cbv zeta. intros Hparse Hcs Hdm.
  destruct (parse_input_indices _ _ _ _ _ _ _ _ _ _ Hparse) as (_ & _ & Hsrc & Hterm & _).
  destruct (compute_mst_candidate_graph haversine_meters coords candidates dist_matrix
              terminal_indices source_idx costs Hsrc Hterm Hdm)
    as (DG & HDG & HwfDG & Hnodes).
  exists DG. split; [done|]. intros arbo Harbo Hwf Hedges Hroot.
  assert (∀ n, n ∈ nodes arbo → rtc (has_edge DG) source_idx n) as Hreach.
  { intros n Hn. eapply rtc_has_edge_subgraph; [done|]. by apply Hroot. }
  destruct (compute_mst_after_solver round coords candidates terminal_indices
              source_idx names costs (request_debug request) arbo Hwf)
    as (mst & r & Hmst & Hwf' & Hind & Hr).
  { intros n Hn. destruct (rtc_inv_r _ _ (Hreach n Hn)) as [<-|(y & _ & [a Ha])].
    - rewrite length_app. lia.
    - apply Hnodes. by apply (edge_endpoints DG y n a). }
  assert (∀ n, ¬ rtc (has_edge DG) source_idx n → n ∉ nodes mst) as Habsent.
  { intros n Hn Hin. apply Hn, Hreach. by apply Hind. }
  exists mst, r. split_and!; [done| |done|].
  - unfold compute_mst_request. rewrite Hparse, compute_mst_steps, Hcs.
    cbn [mbind option_bind]. cbv zeta. rewrite Hdm. cbn [mbind option_bind].
    rewrite HDG. cbn [mbind option_bind]. rewrite Harbo. cbn [mbind option_bind].
    rewrite Hmst. cbn [mbind option_bind]. done.
  - intros Hflag n Hn Hin. rewrite Hflag in Hr.
    apply (result_nodes_used _ _ _ _ _ _ _ _ _ _ _ Hr), elem_of_used_nodes in Hin
      as ([[u v] a] & He & Hends).
    destruct (edge_endpoints mst u v a Hwf' He) as [Hu Hv]. simpl in Hends.
    apply (Habsent n Hn). by destruct Hends as [-> | ->].
Qed.

Lemma unreached_nodes_witness :
  ∃ DG,
    build_directed_graph_for_arborescence 0 [1; 2]
      (py_range (length bent_line) (length bent_line + length [(0, 0.0005)%float]))
      bent_line_distances {[ "poleCost" := 1200%float ]} = Some DG ∧
    ∀ arbo,
      already_a_tree DG = Some arbo →
      wf arbo → (∀ e, e ∈ edges arbo → e ∈ edges DG) →
      (∀ n, n ∈ nodes arbo → rtc (has_edge arbo) 0 n) →
      ∃ mst r,
        prune_dead_end_pole_branches arbo
          (py_range (length bent_line) (length bent_line + length [(0, 0.0005)%float]))
          [1; 2] = Some mst ∧
        compute_mst_request no_number no_text unchanged unchanged
          no_distance one_triangle argsort metres_apart
          already_a_tree no_rounding pole_on_terminal = Some r ∧
        (∀ n, ¬ rtc (has_edge DG) 0 n → n ∉ nodes mst) ∧
        (request_debug pole_on_terminal = false →
         ∀ n, ¬ rtc (has_edge DG) 0 n → n ∉ index <$> result_nodes r).
Proof.
  apply (unreached_nodes no_number no_text unchanged unchanged
           no_distance one_triangle argsort metres_apart already_a_tree no_rounding
           pole_on_terminal bent_line [1; 2] 0
           ["Power Source"; "Location 2"; "Location 3"]
           {[ "poleCost" := 1200%float ]} [(0, 0.0005)%float] bent_line_distances).
  - apply parse_pole_on_terminal.
  - apply bent_line_candidates.
  - apply bent_line_cdist.
Defined.

(** The candidate graph of that request is a tree rooted at the source
    already; the source does not reach terminal 1. *)
Example bent_line_graph_rooted :
  build_directed_graph_for_arborescence 0 [1; 2]
    (py_range (length bent_line) (length bent_line + length [(0, 0.0005)%float]))
    bent_line_distances {[ "poleCost" := 1200%float ]} = Some bent_line_graph ∧
  wf bent_line_graph ∧
  (∀ n, n ∈ nodes bent_line_graph → rtc (has_edge bent_line_graph) 0 n) ∧
  ¬ rtc (has_edge bent_line_graph) 0 1.
Proof.
  assert (wf bent_line_graph) as Hwf by concrete_wf bent_line_graph.
  assert (has_edge bent_line_graph 0 3) as H03.
  { exists (trunk_edge 50). vm_compute. list_membership. }
  assert (has_edge bent_line_graph 3 2) as H32.
  { exists (low_edge 50). vm_compute. list_membership. }
  split_and!; [by vm_compute|done| |].
  - intros n Hn. vm_compute in Hn.
    repeat (apply elem_of_cons in Hn as [->|Hn]);
      [by apply rtc_once|by eapply rtc_l; [|apply rtc_once]|apply rtc_refl|].
    by apply not_elem_of_nil in Hn.
  - intros Hreach. apply (rtc_edge_nodes _ _ _ Hwf) in Hreach.
    + vm_compute in Hreach. set_solver.
    + vm_compute. list_membership.
Qed.

(** The request [pole_on_terminal]: the one pole lies on terminal 1, at
    no distance, so that no admissible edge touches that terminal; the
    result holds the source, the pole and terminal 2, and not terminal 1. *)
Example pole_on_terminal_result :
  fmap (M := option) (λ r, (index <$> result_nodes r, length (result_edges r)))
    (compute_mst_request no_number no_text unchanged unchanged
       no_distance one_triangle argsort metres_apart
       already_a_tree no_rounding pole_on_terminal)
  = Some ([0; 2; 3], 2).
Proof. by vm_compute. Qed.

(** * Fewer than three points *)

(** X4: with fewer than three points [compute_mst] has no candidate pole
    and, once the request is parsed and the distances are computed, hands the
    solver the null graph.  If the solver returns a graph on nodes of its
    input, the result (with [debug] off) has no edge, no node and no pole;
    otherwise [compute_mst] fails, in [parse_input], in [haversine_meters]
    or in the solver on the null graph.  It never returns a tree that holds
    the source. *)
Theorem few_points_no_source_node
    (float_of_str : string → option float) (str_of_float : float → string)
    (str_strip str_lower : string → string)
    (great_circle : point → point → float)
    (Delaunay_simplices : list point → option (list (list nat)))
    (np_argsort : list float → list nat)
    (haversine_meters : float → float → float → float → option float)
    (minimum_spanning_arborescence : DiGraph → option DiGraph)
    (round : float → nat → float)
    (request : OptimizationRequest) :
  length (request_points request) < 3 →
  request_debug request = false →
  (∀ G B, minimum_spanning_arborescence G = Some B →
          ∀ n, n ∈ nodes B → n ∈ nodes G) →
  match compute_mst_request float_of_str str_of_float str_strip str_lower
          great_circle Delaunay_simplices np_argsort haversine_meters
          minimum_spanning_arborescence round request with
  | Some r => result_edges r = [] ∧ result_nodes r = [] ∧ numPolesUsed r = 0
  | None =>
      (∃ e, parse_input float_of_str str_of_float str_strip str_lower request = inl e) ∨
      ∃ coords terminal_indices source_idx names costs,
        parse_input float_of_str str_of_float str_strip str_lower request
          = inr (coords, terminal_indices, source_idx, names, costs) ∧
        (cdist haversine_meters coords coords = None ∨
         minimum_spanning_arborescence empty = None)
  end.
Proof.
  intros Hlen Hflag Hsub. unfold compute_mst_request.
  destruct (parse_input _ _ _ _ request)
    as [e|[[[[coords terminal_indices] source_idx] names] costs]] eqn:Hparse.
  { left. by exists e. }
  destruct (parse_input_indices _ _ _ _ _ _ _ _ _ _ Hparse) as (Hcs & _).
  rewrite compute_mst_steps. unfold generate_fermat_candidates.
  rewrite bool_decide_eq_true_2 by lia. cbn [mbind option_bind]. cbv zeta.
  rewrite app_nil_r.
  destruct (cdist haversine_meters coords coords) as [dm|] eqn:Hdm.
  2: { right. exists coords, terminal_indices, source_idx, names, costs. auto. }
  cbn [mbind option_bind]. simpl length. rewrite Nat.add_0_r.
  replace (py_range (length coords) (length coords)) with (@nil nat)
    by (unfold py_range; by rewrite Nat.sub_diag).
  change (build_directed_graph_for_arborescence source_idx terminal_indices [] dm costs)
    with (Some empty). cbn [mbind option_bind].
  destruct (minimum_spanning_arborescence empty) as [B|] eqn:HB.
  2: { right. exists coords, terminal_indices, source_idx, names, costs. auto. }
  assert (B = empty) as ->.
  { destruct B as [|[n s] B]; [done|]. exfalso.
    apply (not_elem_of_nil n), (Hsub _ _ HB). by left. }
  rewrite Hflag. by vm_compute.
Qed.

Lemma few_points_no_source_node_witness :
  match compute_mst_request no_number no_text unchanged unchanged
          no_distance one_triangle argsort metres_apart
          tree_unless_null no_rounding station_and_house with
  | Some r => result_edges r = [] ∧ result_nodes r = [] ∧ numPolesUsed r = 0
  | None =>
      (∃ e, parse_input no_number no_text unchanged unchanged station_and_house = inl e) ∨
      ∃ coords terminal_indices source_idx names costs,
        parse_input no_number no_text unchanged unchanged station_and_house
          = inr (coords, terminal_indices, source_idx, names, costs) ∧
        (cdist metres_apart coords coords = None ∨ tree_unless_null empty = None)
  end.
Proof.
  apply (few_points_no_source_node no_number no_text unchanged unchanged
           no_distance one_triangle argsort metres_apart tree_unless_null no_rounding
           station_and_house).
  - vm_compute. lia.
  - reflexivity.
  - intros [|[m s] G] B [= <-] n Hn; done.
Defined.

(** Two points of a request can be nearly antipodal; then the distance
    raises, and [compute_mst] with it. *)
Example antipodes_raise :
  compute_mst_request no_number no_text unchanged unchanged
    no_distance one_triangle argsort no_antipodes
    tree_unless_null no_rounding antipodes = None ∧
  compute_mst_request no_number no_text unchanged unchanged
    no_distance one_triangle argsort metres_apart
    tree_unless_null no_rounding station_and_house = None.
Proof. split; by vm_compute. Qed.
(** * The bounding box *)

(** ** The order of the floats that are no NaN *)

Lemma SFleb_trans (a b c : SpecFloat.spec_float) :
  SpecFloat.SFleb a b = true → SpecFloat.SFleb b c = true →
  SpecFloat.SFleb a c = true.
Proof.
  unfold SpecFloat.SFleb, SpecFloat.SFcompare.
  destruct a as [[]|[]| |[] ma ea], b as [[]|[]| |[] mb eb],
    c as [[]|[]| |[] mc ec]; simpl; try done;
    repeat match goal with
    | |- context [Z.compare ?x ?y] => destruct (Z.compare_spec x y)
    | |- context [Pos.compare_cont Eq ?x ?y] =>
        change (Pos.compare_cont Eq x y) with (Pos.compare x y);
        destruct (Pos.compare_spec x y)
    end; simpl; try done; try lia.
Qed.

Lemma SFltb_leb (a b : SpecFloat.spec_float) :
  SpecFloat.SFltb a b = true → SpecFloat.SFleb a b = true.
Proof.
  unfold SpecFloat.SFltb, SpecFloat.SFleb.
  by destruct (SpecFloat.SFcompare a b) as [[]|].
Qed.

Lemma SFcompare_opp (a b : SpecFloat.spec_float) :
  SpecFloat.SFcompare b a = CompOpp <$> SpecFloat.SFcompare a b.
Proof.
  unfold SpecFloat.SFcompare.
  destruct a as [[]|[]| |[] ma ea], b as [[]|[]| |[] mb eb]; simpl; try done;
    rewrite (Z.compare_antisym ea eb);
    destruct (Z.compare ea eb); simpl; try done;
    change (Pos.compare_cont Eq mb ma) with (Pos.compare mb ma);
    change (Pos.compare_cont Eq ma mb) with (Pos.compare ma mb);
    rewrite (Pos.compare_antisym ma mb); by destruct (Pos.compare ma mb).
Qed.

Lemma SFcompare_None (a b : SpecFloat.spec_float) :
  SpecFloat.SFcompare a b = None →
  a = SpecFloat.S754_nan ∨ b = SpecFloat.S754_nan.
Proof.
  destruct a as [[]|[]| |[] ma ea], b as [[]|[]| |[] mb eb]; simpl; auto; done.
Qed.

Section float_order.
Implicit Types (x y z : float).

Lemma is_nan_false x : is_nan x = false → Prim2SF x ≠ SpecFloat.S754_nan.
Proof.
  unfold is_nan. rewrite FloatAxioms.eqb_spec. intros H E. rewrite E in H. done.
Qed.

Lemma is_nan_true x y : is_nan x = true → (x <=? y)%float = false ∧ (y <=? x)%float = false.
Proof.
  unfold is_nan. rewrite !FloatAxioms.leb_spec, FloatAxioms.eqb_spec.
  destruct (Prim2SF x) as [[]|[]| |[] m e] eqn:E; simpl; try done.
  - intros _. split; [done|]. by destruct (Prim2SF y) as [[]|[]| |[]].
  - unfold SpecFloat.SFeqb, SpecFloat.SFcompare.
    rewrite Z.compare_refl. change (Pos.compare_cont Eq m m) with (Pos.compare m m).
    by rewrite Pos.compare_refl.
  - unfold SpecFloat.SFeqb, SpecFloat.SFcompare.
    rewrite Z.compare_refl. change (Pos.compare_cont Eq m m) with (Pos.compare m m).
    by rewrite Pos.compare_refl.
Qed.

Lemma leb_refl x : is_nan x = false → (x <=? x)%float = true.
Proof.
  unfold is_nan. rewrite FloatAxioms.leb_spec, FloatAxioms.eqb_spec.
  unfold SpecFloat.SFeqb, SpecFloat.SFleb.
  by destruct (SpecFloat.SFcompare _ _) as [[]|].
Qed.

Lemma leb_trans x y z :
  (x <=? y)%float = true → (y <=? z)%float = true → (x <=? z)%float = true.
Proof. rewrite !FloatAxioms.leb_spec. apply SFleb_trans. Qed.

Lemma ltb_leb x y : (x <? y)%float = true → (x <=? y)%float = true.
Proof. rewrite FloatAxioms.ltb_spec, FloatAxioms.leb_spec. apply SFltb_leb. Qed.

Lemma not_ltb_leb x y :
  is_nan x = false → is_nan y = false →
  (y <? x)%float = false → (x <=? y)%float = true.
Proof.
  intros Hx%is_nan_false Hy%is_nan_false.
  rewrite FloatAxioms.ltb_spec, FloatAxioms.leb_spec.
  unfold SpecFloat.SFltb, SpecFloat.SFleb. rewrite (SFcompare_opp (Prim2SF x)).
  destruct (SpecFloat.SFcompare (Prim2SF x) (Prim2SF y)) as [[]|] eqn:E; simpl; try done.
  by destruct (SFcompare_None _ _ E).
Qed.
End float_order.

(** ** The least and the greatest entry of a column *)

Lemma np_minimum_cases a b :
  is_nan a = false → is_nan b = false →
  is_nan (np_minimum a b) = false ∧
  (np_minimum a b = a ∨ np_minimum a b = b) ∧
  (np_minimum a b <=? a)%float = true ∧ (np_minimum a b <=? b)%float = true.
Proof.
  intros Ha Hb. unfold np_minimum. rewrite Ha, Hb.
  destruct (b <? a)%float eqn:E.
  - split_and!; [done|by right|by apply ltb_leb|by apply leb_refl].
  - split_and!; [done|by left|by apply leb_refl|by apply not_ltb_leb].
Qed.

Lemma np_maximum_cases a b :
  is_nan a = false → is_nan b = false →
  is_nan (np_maximum a b) = false ∧
  (np_maximum a b = a ∨ np_maximum a b = b) ∧
  (a <=? np_maximum a b)%float = true ∧ (b <=? np_maximum a b)%float = true.
Proof.
  intros Ha Hb. unfold np_maximum. rewrite Ha, Hb.
  destruct (a <? b)%float eqn:E.
  - split_and!; [done|by right|by apply ltb_leb|by apply leb_refl].
  - split_and!; [done|by left|by apply leb_refl|by apply not_ltb_leb].
Qed.

Lemma np_min_spec x xs :
  (∀ y, y ∈ x :: xs → is_nan y = false) →
  is_nan (np_min x xs) = false ∧ np_min x xs ∈ x :: xs ∧
  ∀ y, y ∈ x :: xs → (np_min x xs <=? y)%float = true.
Proof.
  unfold np_min. revert x. induction xs as [|z xs IH]; intros x Hnan; simpl.
  - split_and!; [apply Hnan; by left|by left|].
    intros y ->%list_elem_of_singleton. apply leb_refl, Hnan. by left.
  - destruct (np_minimum_cases x z) as (Hm & Hcase & Hx & Hz);
      [apply Hnan; by left|apply Hnan; right; by left|].
    destruct (IH (np_minimum x z)) as (Hn & Hin & Hle).
    { intros y [->|Hy]%elem_of_cons; [done|]. apply Hnan. by do 2 right. }
    split_and!; [done| |].
    + apply elem_of_cons in Hin as [->|Hin]; [|by do 2 right].
      destruct Hcase as [-> | ->]; [by left|right; by left].
    + intros y [->|[->|Hy]%elem_of_cons]%elem_of_cons.
      * eapply leb_trans; [|exact Hx]. apply Hle. by left.
      * eapply leb_trans; [|exact Hz]. apply Hle. by left.
      * apply Hle. by right.
Qed.

Lemma np_max_spec x xs :
  (∀ y, y ∈ x :: xs → is_nan y = false) →
  is_nan (np_max x xs) = false ∧ np_max x xs ∈ x :: xs ∧
  ∀ y, y ∈ x :: xs → (y <=? np_max x xs)%float = true.
Proof.
  unfold np_max. revert x. induction xs as [|z xs IH]; intros x Hnan; simpl.
  - split_and!; [apply Hnan; by left|by left|].
    intros y ->%list_elem_of_singleton. apply leb_refl, Hnan. by left.
  - destruct (np_maximum_cases x z) as (Hm & Hcase & Hx & Hz);
      [apply Hnan; by left|apply Hnan; right; by left|].
    destruct (IH (np_maximum x z)) as (Hn & Hin & Hle).
    { intros y [->|Hy]%elem_of_cons; [done|]. apply Hnan. by do 2 right. }
    split_and!; [done| |].
    + apply elem_of_cons in Hin as [->|Hin]; [|by do 2 right].
      destruct Hcase as [-> | ->]; [by left|right; by left].
    + intros y [->|[->|Hy]%elem_of_cons]%elem_of_cons.
      * eapply leb_trans; [exact Hx|]. apply Hle. by left.
      * eapply leb_trans; [exact Hz|]. apply Hle. by left.
      * apply Hle. by right.
Qed.

(** A NaN among the entries is what the fold returns. *)
Lemma np_min_nan x xs :
  (∃ y, y ∈ x :: xs ∧ is_nan y = true) → is_nan (np_min x xs) = true.
Proof.
  unfold np_min. revert x. induction xs as [|z xs IH]; intros x (y & Hy & Hnan); simpl.
  - by apply list_elem_of_singleton in Hy as ->.
  - apply IH. unfold np_minimum.
    destruct (is_nan x) eqn:Hx; [exists x; split; [by left|done]|].
    destruct (is_nan z) eqn:Hz; [exists z; split; [by left|done]|].
    apply elem_of_cons in Hy as [->|[->|Hy]%elem_of_cons]; [congruence..|].
    exists y. split; [by right|done].
Qed.

Lemma np_max_nan x xs :
  (∃ y, y ∈ x :: xs ∧ is_nan y = true) → is_nan (np_max x xs) = true.
Proof.
  unfold np_max. revert x. induction xs as [|z xs IH]; intros x (y & Hy & Hnan); simpl.
  - by apply list_elem_of_singleton in Hy as ->.
  - apply IH. unfold np_maximum.
    destruct (is_nan x) eqn:Hx; [exists x; split; [by left|done]|].
    destruct (is_nan z) eqn:Hz; [exists z; split; [by left|done]|].
    apply elem_of_cons in Hy as [->|[->|Hy]%elem_of_cons]; [congruence..|].
    exists y. split; [by right|done].
Qed.

(** X25: the bounding box of a non-empty array without NaN encloses every
    row, and each of its four sides is the coordinate of some row; a NaN
    among the latitudes makes both latitude bounds NaN, so that no row lies
    within them (and likewise for the longitudes). *)
Theorem bounding_box_encloses (coords : list point) (box : BoundingBox) :
  build_bounding_box coords = Some box →
  ((∀ c, c ∈ coords → is_nan c.1 = false ∧ is_nan c.2 = false) →
   (∀ c, c ∈ coords →
      (min_lat box <=? c.1)%float = true ∧ (c.1 <=? max_lat box)%float = true ∧
      (min_lon box <=? c.2)%float = true ∧ (c.2 <=? max_lon box)%float = true) ∧
   (∃ c, c ∈ coords ∧ c.1 = min_lat box) ∧ (∃ c, c ∈ coords ∧ c.1 = max_lat box) ∧
   (∃ c, c ∈ coords ∧ c.2 = min_lon box) ∧ (∃ c, c ∈ coords ∧ c.2 = max_lon box)) ∧
  ((∃ c, c ∈ coords ∧ is_nan c.1 = true) →
   is_nan (min_lat box) = true ∧ is_nan (max_lat box) = true ∧
   ∀ c : point, (min_lat box <=? c.1)%float = false ∧ (c.1 <=? max_lat box)%float = false) ∧
  ((∃ c, c ∈ coords ∧ is_nan c.2 = true) →
   is_nan (min_lon box) = true ∧ is_nan (max_lon box) = true ∧
   ∀ c : point, (min_lon box <=? c.2)%float = false ∧ (c.2 <=? max_lon box)%float = false).
Proof.
  destruct coords as [|c0 cs]; [done|]. intros [= <-]. simpl. split_and!.
  - intros Hnan.
    assert (∀ y, y ∈ c0.1 :: cs.*1 → is_nan y = false) as H1.
    { intros y Hy. change (y ∈ (c0 :: cs).*1) in Hy.
      apply list_elem_of_fmap in Hy as (c & -> & Hc). by apply Hnan. }
    assert (∀ y, y ∈ c0.2 :: cs.*2 → is_nan y = false) as H2.
    { intros y Hy. change (y ∈ (c0 :: cs).*2) in Hy.
      apply list_elem_of_fmap in Hy as (c & -> & Hc). by apply Hnan. }
    destruct (np_min_spec _ _ H1) as (_ & Hin1 & Hle1).
    destruct (np_max_spec _ _ H1) as (_ & Hin2 & Hle2).
    destruct (np_min_spec _ _ H2) as (_ & Hin3 & Hle3).
    destruct (np_max_spec _ _ H2) as (_ & Hin4 & Hle4).
    change (c0.1 :: cs.*1) with ((c0 :: cs).*1) in Hin1, Hin2.
    change (c0.2 :: cs.*2) with ((c0 :: cs).*2) in Hin3, Hin4.
    apply list_elem_of_fmap in Hin1 as (c1 & E1 & ?), Hin2 as (c2 & E2 & ?),
      Hin3 as (c3 & E3 & ?), Hin4 as (c4 & E4 & ?).
    split_and!; [|by eauto..]. intros c Hc.
    assert (c.1 ∈ c0.1 :: cs.*1) by (by apply (list_elem_of_fmap_2 fst (c0 :: cs))).
    assert (c.2 ∈ c0.2 :: cs.*2) by (by apply (list_elem_of_fmap_2 snd (c0 :: cs))).
    split_and!; auto.
  - intros (c & Hc & Hnan).
    assert (∃ y, y ∈ c0.1 :: cs.*1 ∧ is_nan y = true) as H.
    { exists c.1. split; [by apply (list_elem_of_fmap_2 fst (c0 :: cs))|done]. }
    pose proof (np_min_nan _ _ H) as Hmin. pose proof (np_max_nan _ _ H) as Hmax.
    split_and!; [done..|]. intros c'.
    split; [by apply (is_nan_true _ c'.1)|by apply (is_nan_true _ c'.1)].
  - intros (c & Hc & Hnan).
    assert (∃ y, y ∈ c0.2 :: cs.*2 ∧ is_nan y = true) as H.
    { exists c.2. split; [by apply (list_elem_of_fmap_2 snd (c0 :: cs))|done]. }
    pose proof (np_min_nan _ _ H) as Hmin. pose proof (np_max_nan _ _ H) as Hmax.
    split_and!; [done..|]. intros c'.
    split; [by apply (is_nan_true _ c'.2)|by apply (is_nan_true _ c'.2)].
Qed.

Lemma bounding_box_encloses_witness :
  ∃ box, build_bounding_box five_coords = Some box ∧
  ((∀ c, c ∈ five_coords → is_nan c.1 = false ∧ is_nan c.2 = false) →
   (∀ c, c ∈ five_coords →
      (min_lat box <=? c.1)%float = true ∧ (c.1 <=? max_lat box)%float = true ∧
      (min_lon box <=? c.2)%float = true ∧ (c.2 <=? max_lon box)%float = true) ∧
   (∃ c, c ∈ five_coords ∧ c.1 = min_lat box) ∧
   (∃ c, c ∈ five_coords ∧ c.1 = max_lat box) ∧
   (∃ c, c ∈ five_coords ∧ c.2 = min_lon box) ∧
   (∃ c, c ∈ five_coords ∧ c.2 = max_lon box)) ∧
  ((∃ c, c ∈ five_coords ∧ is_nan c.1 = true) →
   is_nan (min_lat box) = true ∧ is_nan (max_lat box) = true ∧
   ∀ c : point, (min_lat box <=? c.1)%float = false ∧
                (c.1 <=? max_lat box)%float = false) ∧
  ((∃ c, c ∈ five_coords ∧ is_nan c.2 = true) →
   is_nan (min_lon box) = true ∧ is_nan (max_lon box) = true ∧
   ∀ c : point, (min_lon box <=? c.2)%float = false ∧
                (c.2 <=? max_lon box)%float = false).
Proof.
  eexists. split; [reflexivity|].
  apply (bounding_box_encloses five_coords). reflexivity.
Defined.

(** * The Voronoi strategy raises in the diagram only *)

Lemma length_row_insert r rows : length (row_insert r rows) = S (length rows).
Proof. induction rows as [|r' rows IH]; simpl; [done|]. case_match; simpl; lia. Qed.

Lemma length_foldr_row_insert rows : length (foldr row_insert [] rows) = length rows.
Proof.
  induction rows as [|r rows IH]; simpl; [done|]. by rewrite length_row_insert, IH.
Qed.

Lemma length_row_dedup rows : length (row_dedup rows) ≤ length rows.
Proof.
  induction rows as [|r rows IH]; [done|]. cbn [row_dedup].
  destruct rows as [|r' rows']; [done|]. case_match; simpl in *; lia.
Qed.

(** X26: given the vertices of the diagram, an [np.partition] that keeps
    the length of a row and an [np.argsort] that returns positions, the
    Voronoi strategy raises nothing: with 3 points or more every row of
    distances has the entries 0 and 2 that are read from its partition.  It
    returns at most one candidate for each vertex. *)
Theorem voronoi_generation_returns
    (great_circle : point → point → float)
    (Voronoi_vertices : list point → option (list point))
    (np_partition : list float → nat → list float)
    (np_argsort : list float → list nat)
    (coords verts : list point) :
  returns_positions np_argsort →
  (∀ row kth, length (np_partition row kth) = length row) →
  Voronoi_vertices coords = Some verts →
  ∃ out, generate_voronoi_candidates great_circle Voronoi_vertices np_partition
           np_argsort coords = Some out ∧
         length out ≤ length verts.
Proof.
  intros Hsort Hpart Hverts. unfold generate_voronoi_candidates.
  case_bool_decide as Hlen; [exists []; simpl; split; [done|lia]|].
  rewrite Hverts. simpl.
  case_bool_decide; [exists []; simpl; split; [done|lia]|].
  match goal with |- context [mapM ?f ?l] =>
    destruct (mapM_is_Some_2 f l) as [nearest Hnearest] end.
  { apply Forall_forall. intros row Hrow. try unfold haversine_vec in Hrow.
    apply list_elem_of_fmap in Hrow as (v & -> & _). unfold compose. cbv beta zeta.
    destruct (lookup_lt_is_Some_2 (np_partition (great_circle v <$> coords) 2) 0)
      as [lo ->]; [rewrite Hpart, length_fmap; lia|]. cbn [mbind option_bind].
    destruct (lookup_lt_is_Some_2 (np_partition (great_circle v <$> coords) 2) 2)
      as [hi ->]; [rewrite Hpart, length_fmap; lia|].
    by eexists. }
  rewrite Hnearest. simpl.
  set (raw := (filter _ (zip verts _)).*1).
  assert (length raw ≤ length verts) as Hraw.
  { unfold raw. rewrite length_fmap. etrans; [apply length_filter|].
    rewrite length_zip_with. lia. }
  case_bool_decide; [exists raw; split; [done|lia]|].
  assert (length (np_unique_rows (np_round_rows raw 6)) ≤ length verts) as Huniq.
  { etrans; [|exact Hraw]. unfold np_unique_rows, np_round_rows.
    etrans; [apply length_row_dedup|]. rewrite length_foldr_row_insert.
    by rewrite length_fmap. }
  case_bool_decide; [eexists; split; [done|lia]|].
  destruct (separation_filter_spec great_circle np_argsort
              (np_unique_rows (np_round_rows raw 6)) Hsort)
    as (out & -> & _ & _ & _ & Hle).
  exists out. split; [done|lia].
Qed.

Lemma voronoi_generation_returns_witness :
  ∃ out, generate_voronoi_candidates fifty_metres one_vertex as_it_is argsort
           obtuse_triangle = Some out ∧
         length out ≤ length [(10.12345678, 20)%float].
Proof.
  apply (voronoi_generation_returns fifty_metres one_vertex as_it_is argsort
           obtuse_triangle [(10.12345678, 20)%float]).
  - apply argsort_returns_positions.
  - reflexivity.
  - reflexivity.
Defined.
